(** * WaveEye preprocessing core: a shallow embedding and its properties

    The development follows two source files of the repository:

    - [Preprocessing/mapping/mapping.py]: the identity normalizer
      ([normalize]), the connection map ([build_connection_map]), the
      value resolver ([find_connected_signal], [is_empty_value]) and
      the table assembler ([build_table]);
    - [Preprocessing/rtl/check_system.py]: the graph builder
      ([detect_module_name], [detect_ports_and_signals],
      [detect_instantiations], [analyze_system]), the flattener
      ([flatten_connections]) and the structural validator
      ([detect_missing_connections], [detect_width_mismatches]).

    Modelling conventions.

    - A Python [str] is a [string] of 8-bit characters; the character
      classes of [re] and of [str.strip] are the ASCII part of the
      Unicode ones.
    - Every regular expression of the source is written out as the
      deterministic matcher it denotes; the comment next to each
      matcher quotes the expression.
    - A [dict] whose iteration order is observable (the metadata map, a
      sampled row, [by_parent], [instances], the module map) is an
      association list in insertion order; a [dict] that is only looked
      up ([conn_map], [meta_norm], [decls]) is a [gmap]; a Python [set]
      is a [gset].
    - An exception ([IndexError], [StopIteration], [KeyError]) is the
      result [None].
    - [list(set(l))] has no specified order: the connection map takes the
      enumeration as a parameter [enum], constrained only to list the
      distinct elements of [l]. *)

From Stdlib Require Import Ascii NArith ZArith Lia Permutation.
From stdpp Require Import base option list sorting strings gmap fin_maps.

Local Open Scope char_scope.
Local Open Scope stdpp_scope.

(** ** Characters *)

Module Chars.

Definition code (c : ascii) : N := N_of_ascii c.

Definition in_range (lo hi : N) (c : ascii) : bool :=
  (lo <=? code c)%N && (code c <=? hi)%N.

(** [\d] *)
Definition is_digit (c : ascii) : bool := in_range 48 57 c.

Definition is_upper (c : ascii) : bool := in_range 65 90 c.
Definition is_lower (c : ascii) : bool := in_range 97 122 c.

(** [[A-Za-z_]] *)
Definition is_ident_start (c : ascii) : bool :=
  is_upper c || is_lower c || Ascii.eqb c "_".

(** [\w] *)
Definition is_word (c : ascii) : bool := is_ident_start c || is_digit c.

(** [\s], and the characters removed by [str.strip()]:
    TAB, LF, VT, FF, CR, FS, GS, RS, US and the space. *)
Definition is_space (c : ascii) : bool :=
  in_range 9 13 c || in_range 28 32 c.

(** [[0-9a-fA-F]] *)
Definition is_hex (c : ascii) : bool :=
  is_digit c || in_range 97 102 c || in_range 65 70 c.

Definition newline : ascii := "010".

(** One character of [str.lower()]. *)
Definition lower_char (c : ascii) : ascii :=
  if is_upper c then ascii_of_N (code c + 32) else c.

End Chars.
Import Chars.

(** ** Strings *)

Module Str.

Fixpoint lower (s : string) : string :=
  match s with
  | EmptyString => EmptyString
  | String c s' => String (lower_char c) (lower s')
  end.

Fixpoint all (p : ascii -> bool) (s : string) : bool :=
  match s with
  | EmptyString => true
  | String c s' => p c && all p s'
  end.

(** The longest prefix of [s] whose characters satisfy [p]. *)
Fixpoint take_while (p : ascii -> bool) (s : string) : string :=
  match s with
  | EmptyString => EmptyString
  | String c s' => if p c then String c (take_while p s') else EmptyString
  end.

Fixpoint drop_while (p : ascii -> bool) (s : string) : string :=
  match s with
  | EmptyString => EmptyString
  | String c s' => if p c then drop_while p s' else s
  end.

(** [Some r] when [s = pre ++ r]. *)
Fixpoint strip_prefix (pre s : string) : option string :=
  match pre with
  | EmptyString => Some s
  | String a pre' =>
      match s with
      | EmptyString => None
      | String c s' => if Ascii.eqb a c then strip_prefix pre' s' else None
      end
  end.

Definition startswith (s pre : string) : bool :=
  match strip_prefix pre s with Some _ => true | None => false end.

Definition endswith (s suf : string) : bool :=
  startswith (String.rev s) (String.rev suf).

(** [x in s] for strings. *)
Fixpoint contains (sub s : string) : bool :=
  startswith s sub ||
  match s with
  | EmptyString => false
  | String _ s' => contains sub s'
  end.

(** [s.split(sep)] for a one-character separator. *)
Fixpoint split_go (sep : ascii) (cur : string) (s : string) : list string :=
  match s with
  | EmptyString => [String.rev cur]
  | String c s' =>
      if Ascii.eqb c sep then String.rev cur :: split_go sep EmptyString s'
      else split_go sep (String c cur) s'
  end.

Definition split (sep : ascii) (s : string) : list string :=
  split_go sep EmptyString s.

(** [s.split(sep)[0]] *)
Definition before (sep : ascii) (s : string) : string :=
  take_while (fun c => negb (Ascii.eqb c sep)) s.

(** [s.split(sep)[-1]] *)
Definition after_last (sep : ascii) (s : string) : string :=
  String.rev (before sep (String.rev s)).

(** [s.strip()] *)
Definition lstrip (s : string) : string := drop_while is_space s.
Definition rstrip (s : string) : string :=
  String.rev (drop_while is_space (String.rev s)).
Definition strip (s : string) : string := rstrip (lstrip s).

(** [sep.join(l)] *)
Fixpoint join (sep : string) (l : list string) : string :=
  match l with
  | [] => EmptyString
  | [x] => x
  | x :: l' => x +:+ sep +:+ join sep l'
  end.

End Str.

(** ** The identity normalizer ([mapping.py]) *)

(** [re.sub(r'^[^.]*\.SEG\.', '', name)]: the class [[^.]*] can only
    stop at the first dot, so the expression matches exactly when the
    text from the first dot on starts with [.SEG.]. *)
Definition match_hier (seg name : string) : option string :=
  Str.strip_prefix ("." +:+ seg +:+ ".")
                   (Str.drop_while (fun c => negb (Ascii.eqb c ".")) name).

Definition sub_hier (seg name : string) : string :=
  default name (match_hier seg name).

(** [re.sub(r'^top\.', '', name)] *)
Definition sub_top (name : string) : string :=
  default name (Str.strip_prefix "top." name).

(** The body [.*?\]] of the array-index expression, tried just after an
    opening bracket: is there a closing bracket before the end of the
    line? ([.] does not match a line feed.) *)
Fixpoint closes (s : string) : bool :=
  match s with
  | EmptyString => false
  | String c s' =>
      if Ascii.eqb c "]" then true
      else if Ascii.eqb c newline then false
      else closes s'
  end.

(** [re.sub(r"\[.*?\]", "", s)], scanning left to right; [inside] says
    that the scan is within a match, up to its first closing bracket. *)
Fixpoint sub_index_go (inside : bool) (s : string) : string :=
  match s with
  | EmptyString => EmptyString
  | String c s' =>
      if inside then
        if Ascii.eqb c "]" then sub_index_go false s' else sub_index_go true s'
      else if Ascii.eqb c "[" && closes s' then sub_index_go true s'
      else String c (sub_index_go false s')
  end.

Definition sub_index (s : string) : string := sub_index_go false s.

Definition normalize (name : string) : string :=
  let name := sub_hier "dut" name in
  let name := sub_hier "tb" name in
  let name := sub_top name in
  let name := sub_index name in
  Str.lower name.

(** A name still begins with a hierarchy segment that [normalize]
    removes. *)
Definition has_hier_prefix (name : string) : bool :=
  bool_decide (is_Some (match_hier "dut" name))
  || bool_decide (is_Some (match_hier "tb" name))
  || Str.startswith name "top.".

(** ** Insertion-ordered dictionaries *)

Module Dict.
Section dict.
Context {V : Type}.

Definition t := list (string * V).

Definition keys (d : t) : list string := d.*1.

(** [d.get(k)]; [None] when the key is absent. *)
Fixpoint get (k : string) (d : t) : option V :=
  match d with
  | [] => None
  | (k', v) :: d' => if decide (k' = k) then Some v else get k d'
  end.

(** [d[k] = v]: an existing key keeps its position. *)
Fixpoint set (k : string) (v : V) (d : t) : t :=
  match d with
  | [] => [(k, v)]
  | (k', v') :: d' =>
      if decide (k' = k) then (k', v) :: d' else (k', v') :: set k v d'
  end.

End dict.
Arguments t : clear implicits.
End Dict.

(** Python truthiness of a string. *)
Definition truthy (s : string) : bool := negb (String.eqb s "").

(** ** The connection map ([mapping.py]) *)

Record Connection := mkConnection {
  parent_module : string;
  child_module : string;
  instance : string;
  child_port : string;
  parent_signal : string
}.

Global Instance Connection_eq_dec : EqDecision Connection.
Proof. solve_decision. Defined.

(** [conn_map.setdefault(k, []).append(v)] *)
Definition setdefault_append (k v : string)
    (m : gmap string (list string)) : gmap string (list string) :=
  <[k := default [] (m !! k) ++ [v]]> m.

Definition parent_names (conn : Connection) : list string :=
  [ parent_signal conn;
    parent_module conn +:+ "." +:+ parent_signal conn;
    Str.before "[" (parent_signal conn) ].

Definition child_names (conn : Connection) : list string :=
  [ child_port conn;
    instance conn +:+ "." +:+ child_port conn;
    Str.before "[" (child_port conn) ].

(** The two nested loops over the name variations of one connection. *)
Definition add_connection (m : gmap string (list string))
    (conn : Connection) : gmap string (list string) :=
  foldl (fun m parent_name =>
    foldl (fun m child_name =>
      setdefault_append child_name parent_name
        (setdefault_append parent_name child_name m))
      m (child_names conn))
    m (parent_names conn).

Section connection_map.

(** [list(set(l))]: some enumeration of the distinct elements of [l]. *)
Variable enum : list string -> list string.

(** [connectivity] is [None] for a missing file or a null document and
    [Some conns] for a document whose [connections_direct] is [conns]
    (the empty list when the key is absent). *)
Definition build_connection_map
    (connectivity : option (list Connection)) : gmap string (list string) :=
  match connectivity with
  | None => ∅
  | Some conns => enum <$> foldl add_connection ∅ conns
  end.

End connection_map.

(** What [list(set(l))] guarantees. *)
Definition set_enumeration (enum : list string -> list string) : Prop :=
  forall l, NoDup (enum l) /\ forall x, x ∈ enum l <-> x ∈ l.

(** ** The value resolver ([mapping.py]) *)

(** [for i, h in enumerate(headers): if p(h): return h, i] *)
Fixpoint first_header (p : string -> bool) (headers : list string) (i : nat)
    : option (string * nat) :=
  match headers with
  | [] => None
  | h :: hs => if p h then Some (h, i) else first_header p hs (S i)
  end.

(** Strategy 1: [connected_sig in headers], then [headers.index]. *)
Definition strategy_exact (connected_sig : string) (headers : list string)
    : option (string * nat) :=
  first_header (fun h => bool_decide (h = connected_sig)) headers 0.

(** Strategy 2: [normalize(h) == normalize(connected_sig)]. *)
Definition strategy_normalized (connected_sig : string) (headers : list string)
    : option (string * nat) :=
  let norm_target := normalize connected_sig in
  first_header (fun h => bool_decide (normalize h = norm_target)) headers 0.

(** Strategy 3: the last dot-separated components agree, the header's
    one without array indices, both lowercased. *)
Definition strategy_last_component (connected_sig : string)
    (headers : list string) : option (string * nat) :=
  let target_base := Str.after_last "." connected_sig in
  first_header (fun h =>
      let h_base := sub_index (Str.after_last "." h) in
      bool_decide (Str.lower h_base = Str.lower target_base))
    headers 0.

(** Strategy 4: the header ends in [.connected_sig] or [_connected_sig]. *)
Definition strategy_suffix (connected_sig : string) (headers : list string)
    : option (string * nat) :=
  first_header (fun h =>
      Str.endswith h ("." +:+ connected_sig)
      || Str.endswith h ("_" +:+ connected_sig))
    headers 0.

(** One iteration of the loop over [conn_map[sig_name]]: the first
    strategy that returns. *)
Definition try_candidate (headers : list string) (connected_sig : string)
    : option (string * nat) :=
  match strategy_exact connected_sig headers with
  | Some r => Some r
  | None =>
  match strategy_normalized connected_sig headers with
  | Some r => Some r
  | None =>
  match strategy_last_component connected_sig headers with
  | Some r => Some r
  | None => strategy_suffix connected_sig headers
  end end end.

Fixpoint try_candidates (headers : list string) (candidates : list string)
    : option (string * nat) :=
  match candidates with
  | [] => None
  | connected_sig :: rest =>
      match try_candidate headers connected_sig with
      | Some r => Some r
      | None => try_candidates headers rest
      end
  end.

(** [(None, None)] is [None]. *)
Definition find_connected_signal (sig_name : string) (headers : list string)
    (conn_map : gmap string (list string)) : option (string * nat) :=
  match conn_map !! sig_name with
  | None => None
  | Some candidates => try_candidates headers candidates
  end.

Definition is_empty_value (val : string) : bool :=
  let v := Str.strip val in
  negb (truthy v) || bool_decide (v ∈ [""; "-"; "?"]).

(** The resolver as the specification words it: candidates in order,
    each under its first strategy that succeeds, and the first one whose
    observed value in the row is not empty wins. It is compared with
    the resolver of the source below. *)
Fixpoint specified_resolution (row : Dict.t string) (candidates : list string)
    : option string :=
  match candidates with
  | [] => None
  | connected_sig :: rest =>
      match try_candidate (Dict.keys row) connected_sig with
      | Some (name, _) =>
          let v := default "" (Dict.get name row) in
          if negb (is_empty_value v) then Some v
          else specified_resolution row rest
      | None => specified_resolution row rest
      end
  end.

(** ** Matching waveform columns to metadata signals ([mapping.py]) *)

(** A sampled row and the metadata map, both in iteration order. *)
Abbreviation Row := (Dict.t string).
Abbreviation Metadata := (Dict.t string).

(** The loop that fills [meta_norm]. *)
Definition build_meta_norm (metadata_map : Metadata) : gmap string string :=
  foldl (fun meta_norm meta_sig =>
      let norm1 := normalize meta_sig in
      let norm2 := Str.lower (Str.after_last "." meta_sig) in
      <[norm2 := meta_sig]> (<[norm1 := meta_sig]> meta_norm))
    ∅ (Dict.keys metadata_map).

(** ['.'.join(parts[-2:])] *)
Definition last_two (parts : list string) : string :=
  Str.join "." (drop (length parts - 2) parts).

(** The metadata signal matched by one waveform column, if any. *)
Definition match_one (meta_norm : gmap string string) (wf_sig : string)
    : option string :=
  let cleaned := normalize wf_sig in
  match meta_norm !! cleaned with
  | Some m => Some m
  | None =>
      let wf_base := Str.lower (sub_index (Str.after_last "." wf_sig)) in
      match meta_norm !! wf_base with
      | Some m => Some m
      | None =>
          if Str.contains "." cleaned then
            let parts := Str.split "." cleaned in
            if bool_decide (2 <= length parts) then meta_norm !! last_two parts
            else None
          else None
      end
  end.

Definition match_waveform_signals (waveform_row : Row) (metadata_map : Metadata)
    : Dict.t string :=
  let meta_norm := build_meta_norm metadata_map in
  foldl (fun mapping wf_sig =>
      match match_one meta_norm wf_sig with
      | Some m => Dict.set wf_sig m mapping
      | None => mapping
      end)
    [] (Dict.keys waveform_row).

(** ** The table assembler ([mapping.py]) *)

(** [next((k for k, v in signal_map.items() if v == meta_sig), None)] *)
Definition wf_sig_of (signal_map : Dict.t string) (meta_sig : string)
    : option string :=
  fst <$> List.find (fun kv => bool_decide (kv.2 = meta_sig)) signal_map.

(** [row.get(wf_sig, "")], with [wf_sig] possibly [None]. *)
Definition row_get (row : Row) (wf_sig : option string) : string :=
  match wf_sig with
  | Some k => default "" (Dict.get k row)
  | None => ""
  end.

(** The first matched metadata signal that is a clock. *)
Definition find_clock_column (signal_map : Dict.t string)
    (clock_signals : list string) : option string :=
  snd <$> List.find (fun kv => bool_decide (kv.2 ∈ clock_signals)) signal_map.

(** [if clock_column:] *)
Definition clock_truthy (clock_column : option string) : bool :=
  match clock_column with
  | Some c => truthy c
  | None => false
  end.

(** [next(c for c in row.keys() if c.startswith("time_"))]; [None] is
    the [StopIteration] of a row without such a column. *)
Definition find_time_col (row : Row) : option string :=
  List.find (fun c => Str.startswith c "time_") (Dict.keys row).

(** [value = row.get(wf_sig, "") if wf_sig else ""] *)
Definition direct_value (signal_map : Dict.t string) (row : Row)
    (meta_sig : string) : string :=
  match wf_sig_of signal_map meta_sig with
  | Some k => if truthy k then row_get row (Some k) else ""
  | None => ""
  end.

(** The records kept in [filled_signals]. *)
Abbreviation Filled := (list (string * string)).

(** The body of the loop over [metadata_map] for a signal that is not the
    clock column: the value written to [e[meta_sig]] and the updated
    [filled_signals]. *)
Definition resolve_value (conn_map : gmap string (list string))
    (signal_map : Dict.t string) (row : Row) (filled : Filled)
    (meta_sig : string) : string * Filled :=
  let value := direct_value signal_map row meta_sig in
  if is_empty_value value && bool_decide (conn_map ≠ ∅) then
    match find_connected_signal meta_sig (Dict.keys row) conn_map with
    | Some (connected_name, connected_col) =>
        if truthy connected_name then
          let connected_value := row_get row (Some connected_name) in
          if negb (is_empty_value connected_value) then
            (connected_value,
             if existsb (fun f => bool_decide (f.1 = meta_sig)) filled
             then filled
             else filled ++ [(meta_sig, connected_name)])
          else (value, filled)
        else (value, filled)
    | None => (value, filled)
    end
  else (value, filled).

(** One iteration of the loop "insert all other metadata signals". *)
Definition fill_signal (conn_map : gmap string (list string))
    (signal_map : Dict.t string) (clock_column : option string) (row : Row)
    (state : Row * Filled) (meta_sig : string) : Row * Filled :=
  let '(e, filled) := state in
  if bool_decide (Some meta_sig = clock_column) then (e, filled)
  else
    let '(value, filled) :=
      resolve_value conn_map signal_map row filled meta_sig in
    (Dict.set meta_sig value e, filled).

(** The loop "insert all other metadata signals" of one row. *)
Definition fill_signals (conn_map : gmap string (list string))
    (metadata_map : Metadata) (signal_map : Dict.t string)
    (clock_column : option string) (row : Row)
    (e : Row) (filled : Filled) : Row * Filled :=
  foldl (fill_signal conn_map signal_map clock_column row)
        (e, filled) (Dict.keys metadata_map).

(** The row [e] before that loop: the time column, then the clock. *)
Definition initial_row (signal_map : Dict.t string)
    (clock_column : option string) (row : Row) (time_col : string) : Row :=
  let e := [(time_col, row_get row (Some time_col))] in
  match clock_column with
  | Some c =>
      if truthy c then Dict.set c (row_get row (wf_sig_of signal_map c)) e
      else e
  | None => e
  end.

(** The body of the loop over [waveform]: the detected time column, the
    output row [e] and the updated [filled_signals]; [None] when the row
    has no time column. *)
Definition build_row (conn_map : gmap string (list string))
    (metadata_map : Metadata) (signal_map : Dict.t string)
    (clock_column : option string) (row : Row) (filled : Filled)
    : option (string * Row * Filled) :=
  time_col ← find_time_col row;
  let e := initial_row signal_map clock_column row time_col in
  let '(e, filled) :=
    fill_signals conn_map metadata_map signal_map clock_column row e filled in
  Some (time_col, e, filled).

(** The loop over [waveform], threading [time_col] (the last one
    detected), [rows] and [filled_signals]. *)
Fixpoint build_rows (conn_map : gmap string (list string))
    (metadata_map : Metadata) (signal_map : Dict.t string)
    (clock_column : option string) (waveform : list Row)
    (time_col : option string) (rows : list Row) (filled : Filled)
    : option (option string * list Row * Filled) :=
  match waveform with
  | [] => Some (time_col, rows, filled)
  | row :: waveform' =>
      '(t, e, filled) ←
        build_row conn_map metadata_map signal_map clock_column row filled;
      build_rows conn_map metadata_map signal_map clock_column waveform'
                 (Some t) (rows ++ [e]) filled
  end.

(** [pd.DataFrame(rows).columns]: the keys of the rows, each at its
    first appearance. *)
Definition df_columns (rows : list Row) : list string :=
  foldl (fun cols e =>
      foldl (fun cols k => if bool_decide (k ∈ cols) then cols else cols ++ [k])
            cols (Dict.keys e))
    [] rows.

(** [df[ordered].values.tolist()]: [None] is the [KeyError] of a label
    that is no column; a cell [None] is the missing value of a row
    without that key. *)
Definition df_select (rows : list Row) (ordered : list string)
    : option (list (list (option string))) :=
  if forallb (fun c => bool_decide (c ∈ df_columns rows)) ordered
  then Some ((fun e => (fun c => Dict.get c e) <$> ordered) <$> rows)
  else None.

(** The three parts written to the output file. *)
Record Table := mkTable {
  class_row : list string;
  header_row : list string;
  data_rows : list (list (option string))
}.

(** [ordered], as built after the loop. *)
Definition column_order (time_col : string) (clock_column : option string)
    (metadata_map : Metadata) : list string :=
  let ordered := [time_col] in
  let ordered :=
    if clock_truthy clock_column then ordered ++ option_list clock_column
    else ordered in
  ordered ++ List.filter (fun s => negb (bool_decide (s ∈ ordered)))
                         (Dict.keys metadata_map).

(** One entry of [class_row]. *)
Definition class_of (time_col : string) (clock_column : option string)
    (metadata_map : Metadata) (col : string) : string :=
  if bool_decide (col = time_col) then ""
  else if bool_decide (Some col = clock_column) then "clock"
  else default "other" (Dict.get col metadata_map).

Section build_table.

Variable enum : list string -> list string.

(** [None] stands for an exception: an empty waveform, a row without
    a time column, a label of [ordered] that is no column. The result
    carries [filled_signals] next to the written table. *)
Definition build_table (metadata_map : Metadata) (clock_signals : list string)
    (waveform : list Row) (connectivity : option (list Connection))
    : option (Table * Filled) :=
  row0 ← head waveform;
  let signal_map := match_waveform_signals row0 metadata_map in
  let conn_map := build_connection_map enum connectivity in
  let clock_column := find_clock_column signal_map clock_signals in
  '(time_col, rows, filled) ←
    build_rows conn_map metadata_map signal_map clock_column waveform
               None [] [];
  time_col ← time_col;
  let ordered := column_order time_col clock_column metadata_map in
  values ← df_select rows ordered;
  Some (mkTable (class_of time_col clock_column metadata_map <$> ordered)
                ordered values,
        filled).

End build_table.

(** ** The connectivity flattener ([check_system.py]) *)

(** [re.findall(r"[A-Za-z_]\w*", expr)]: [cur] is the token being read,
    reversed, if any. A token ends at the first character that is not a
    word character, which cannot start a token either. *)
Fixpoint tokenize_go (cur : option string) (expr : string) : list string :=
  match expr with
  | EmptyString => option_list (String.rev <$> cur)
  | String c expr' =>
      match cur with
      | Some tok =>
          if is_word c then tokenize_go (Some (String c tok)) expr'
          else String.rev tok :: tokenize_go None expr'
      | None =>
          if is_ident_start c then tokenize_go (Some (String c EmptyString)) expr'
          else tokenize_go None expr'
      end
  end.

Definition tokenize_signal_expr (expr : string) : list string :=
  tokenize_go None expr.

Record Flattened := mkFlattened {
  from_module : string;
  from_signal_expr : string;
  to_module : string;
  to_signal : string;
  via_instance : string;
  via_module : string;
  inner_expr : string
}.

Global Instance Flattened_eq_dec : EqDecision Flattened.
Proof. solve_decision. Defined.






(** ** The structural validator: missing ports ([check_system.py]) *)

Record ModuleInfo := mkModuleInfo {
  ports : list string;
  signals : list string
}.

Record System := mkSystem {
  modules : Dict.t ModuleInfo;
  connections : list Connection
}.








(** ** Matching combinators

    A matcher takes the text at the current position and returns the
    text after the match. The scanning functions below drive a matcher
    over a whole string the way [re.sub], [re.findall] and [re.search]
    do: leftmost match first, then on from the end of that match. No
    expression of the source matches the empty string. *)

Module Re.

(** A literal. *)
Definition lit (pre : string) (s : string) : option string :=
  Str.strip_prefix pre s.

(** The first literal of [alts] found at the current position. *)
Fixpoint alt (alts : list string) (s : string) : option string :=
  match alts with
  | [] => None
  | a :: alts' =>
      match lit a s with
      | Some r => Some r
      | None => alt alts' s
      end
  end.

(** [p*], greedy. *)
Definition many (p : ascii -> bool) (s : string) : string :=
  Str.drop_while p s.

(** [p+], greedy. *)
Definition many1 (p : ascii -> bool) (s : string) : option string :=
  match s with
  | String c _ => if p c then Some (many p s) else None
  | EmptyString => None
  end.

(** [(p+)], greedy: the captured text and the text after it. *)
Definition capture1 (p : ascii -> bool) (s : string)
    : option (string * string) :=
  match s with
  | String c _ =>
      if p c then Some (Str.take_while p s, Str.drop_while p s) else None
  | EmptyString => None
  end.

(** The number of characters that the scan skips after the first
    character of a match that left [rest] of [s]. *)
Definition skip_of (s rest : string) : nat :=
  String.length s - String.length rest - 1.

Section scan.
Context {A : Type}.

(** A matcher that may look at the character before the match. *)
Variable m : option ascii -> string -> option (A * string).

(** [re.findall]: [prev] is the character before [s], [skip] the
    number of characters of [s] that belong to the last match. *)
Fixpoint findall_go (prev : option ascii) (skip : nat) (s : string)
    : list A :=
  match s with
  | EmptyString => []
  | String c s' =>
      match skip with
      | S k => findall_go (Some c) k s'
      | O =>
          match m prev s with
          | Some (a, rest) => a :: findall_go (Some c) (skip_of s rest) s'
          | None => findall_go (Some c) 0 s'
          end
      end
  end.

Definition findall (s : string) : list A := findall_go None 0 s.

(** [re.search]: the leftmost match and the text after it. *)
Fixpoint search_go (prev : option ascii) (s : string)
    : option (A * string) :=
  match s with
  | EmptyString => None
  | String c s' =>
      match m prev s with
      | Some r => Some r
      | None => search_go (Some c) s'
      end
  end.

Definition search (s : string) : option (A * string) := search_go None s.
End scan.

(** [re.sub(pattern, "", s)] *)
Fixpoint sub_go (m : string -> option string) (skip : nat) (s : string)
    : string :=
  match s with
  | EmptyString => EmptyString
  | String c s' =>
      match skip with
      | S k => sub_go m k s'
      | O =>
          match m s with
          | Some rest => sub_go m (skip_of s rest) s'
          | None => String c (sub_go m 0 s')
          end
      end
  end.

Definition sub (m : string -> option string) (s : string) : string :=
  sub_go m 0 s.

End Re.

(** The text after the first occurrence of [needle], if any. *)
Fixpoint after_first (needle s : string) : option string :=
  match Str.strip_prefix needle s with
  | Some r => Some r
  | None =>
      match s with
      | EmptyString => None
      | String _ s' => after_first needle s'
      end
  end.

(** ** Comments and lines ([check_system.py]) *)

(** [//.*] *)
Definition line_comment (s : string) : option string :=
  r ← Re.lit "//" s;
  Some (Re.many (fun c => negb (Ascii.eqb c newline)) r).

(** [/\*.*?\*/] with [re.S] *)
Definition block_comment (s : string) : option string :=
  r ← Re.lit "/*" s;
  after_first "*/" r.

Definition strip_comments (s : string) : string :=
  let s := Re.sub line_comment s in
  Re.sub block_comment s.

(** The line boundaries of [str.splitlines()]. *)
Definition is_line_break (c : ascii) : bool :=
  in_range 10 13 c || in_range 28 30 c.

(** [[line.rstrip() for line in content.splitlines() if line.strip()]]:
    a carriage return followed by a line feed only adds a blank line,
    which the filter drops. *)
Fixpoint lines_go (cur : string) (content : string) : list string :=
  match content with
  | EmptyString => [String.rev cur]
  | String c content' =>
      if is_line_break c then String.rev cur :: lines_go EmptyString content'
      else lines_go (String c cur) content'
  end.

Definition rtl_lines_of (content : string) : list string :=
  Str.rstrip <$>
    List.filter (fun line => truthy (Str.strip line))
                (lines_go EmptyString content).

(** ** Module names, ports and signals ([check_system.py]) *)

(** [\s*module\s+(\w+)] *)
Definition module_decl (line : string) : option (string * string) :=
  r ← Re.lit "module" (Re.many is_space line);
  r ← Re.many1 is_space r;
  Re.capture1 is_word r.

Fixpoint detect_module_name (rtl_lines : list string) : string :=
  match rtl_lines with
  | [] => "unknown_module"
  | raw :: rest =>
      let line := Str.strip (strip_comments raw) in
      match module_decl line with
      | Some (name, _) => name
      | None => detect_module_name rest
      end
  end.

(** [(?: \[ [^\]]+ \] \s* )? (\w+)], the common tail of the two
    declaration expressions (quoted here with blanks between the
    pieces). After an opening bracket only the range can match. *)
Definition range_then_name (s : string) : option (string * string) :=
  match s with
  | String "[" r =>
      r ← Re.many1 (fun c => negb (Ascii.eqb c "]")) r;
      r ← Re.lit "]" r;
      Re.capture1 is_word (Re.many is_space r)
  | _ => Re.capture1 is_word s
  end.

Definition net_types : list string := ["wire"; "reg"; "logic"; "bit"].

(** [(?:input|output|inout) \s+ (?:wire|reg|logic|bit)? \s*] followed by
    the tail above: the optional net type is tried first and given up
    when the rest does not match after it. *)
Definition port_decl (_ : option ascii) (s : string)
    : option (string * string) :=
  r ← Re.alt ["input"; "output"; "inout"] s;
  r ← Re.many1 is_space r;
  match Re.alt net_types r with
  | Some r' =>
      match range_then_name (Re.many is_space r') with
      | Some res => Some res
      | None => range_then_name r
      end
  | None => range_then_name r
  end.

(** [\b] before a word character. *)
Definition at_word_start (prev : option ascii) : bool :=
  match prev with
  | Some c => negb (is_word c)
  | None => true
  end.

(** [\b] after a word character. *)
Definition at_word_end (s : string) : bool :=
  match s with
  | String c _ => negb (is_word c)
  | EmptyString => true
  end.

(** [\b (?:wire|reg|logic|bit) \b \s*] followed by the tail above. *)
Definition signal_decl (prev : option ascii) (s : string)
    : option (string * string) :=
  if at_word_start prev then
    r ← Re.alt net_types s;
    if at_word_end r then range_then_name (Re.many is_space r) else None
  else None.

(** The first loop of [detect_ports_and_signals]: the lines from the
    module declaration up to the first one that contains [");"]. *)
Fixpoint header_lines_go (in_header : bool) (rtl_lines : list string)
    : list string :=
  match rtl_lines with
  | [] => []
  | raw :: rest =>
      let line := strip_comments raw in
      let in_header := in_header || bool_decide (is_Some (module_decl line)) in
      if in_header then
        if Str.contains ");" line then [line]
        else line :: header_lines_go in_header rest
      else header_lines_go in_header rest
  end.

(** [sorted(set(l))] *)
Definition sorted_set (l : list string) : list string :=
  merge_sort String.le (remove_dups l).

Definition detect_ports_and_signals (rtl_lines : list string)
    : list string * list string :=
  let header_text := Str.join " " (header_lines_go false rtl_lines) in
  let ports := Re.findall port_decl header_text in
  let signals :=
    raw ← rtl_lines; Re.findall signal_decl (strip_comments raw) in
  (sorted_set ports, sorted_set signals).

(** ** The instance extractor ([check_system.py]) *)

(** [block += " " + strip_comments(line)] *)
Definition add_line (block line : string) : string :=
  block +:+ " " +:+ strip_comments line.

(** The longest prefix of a list whose elements satisfy [p]. *)
Fixpoint prefix_while {A} (p : A -> bool) (l : list A) : list A :=
  match l with
  | [] => []
  | x :: l' => if p x then x :: prefix_while p l' else []
  end.

(** The lines from [start_index + 1] on, up to the first one that
    contains the closing token. *)
Definition open_lines (rtl_lines : list string) (start_index : nat)
    : list string :=
  prefix_while (fun line => negb (Str.contains ");" line))
               (drop (S start_index) rtl_lines).

Definition accumulate_until_close (rtl_lines : list string) (start_index : nat)
    : string * nat :=
  let block := strip_comments (default "" (rtl_lines !! start_index)) in
  let body := open_lines rtl_lines start_index in
  let block := foldl add_line block body in
  let i := S start_index + length body in
  match rtl_lines !! i with
  | Some line => (add_line block line, i)
  | None => (block, i)
  end.

(** [\.(\w+) \s* \( \s* ([^)]+?) \s* \)]: the text between the
    parentheses runs to the first closing one and must not be empty;
    the lazy group and the white space around it share that text, and
    the caller strips the group. *)
Definition port_pair (_ : option ascii) (s : string)
    : option ((string * string) * string) :=
  r ← Re.lit "." s;
  '(p, r) ← Re.capture1 is_word r;
  r ← Re.lit "(" (Re.many is_space r);
  '(t, r) ← Re.capture1 (fun c => negb (Ascii.eqb c ")")) r;
  r ← Re.lit ")" r;
  Some ((p, Str.strip t), r).

Definition extract_port_pairs (port_block : string) : list (string * string) :=
  Re.findall port_pair port_block.

Record Instance := mkInstance {
  submodule : string;
  inst_name : string;
  inst_connections : Dict.t string
}.

(** [[A-Za-z_]\w*] *)
Definition ident (s : string) : option (string * string) :=
  match s with
  | String c _ => if is_ident_start c then Re.capture1 is_word s else None
  | EmptyString => None
  end.

(** [\s+ ([A-Za-z_] \w* ) \s* \(] *)
Definition inst_head (s : string) : option (string * string) :=
  r ← Re.many1 is_space s;
  '(name, r) ← ident r;
  r ← Re.lit "(" (Re.many is_space r);
  Some (name, r).

(** [#\( [^)]* \)] *)
Definition params (s : string) : option string :=
  r ← Re.lit "#(" s;
  Re.lit ")" (Re.many (fun c => negb (Ascii.eqb c ")")) r).

(** [\s* (\w+) \s* (?: #\( [^)]* \) )? \s+ ([A-Za-z_] \w* ) \s* \(],
    matched at the start of the line. With a parameter list the white
    space before the name follows it; without one it follows the type. *)
Definition inline_inst (line : string) : option (string * string) :=
  '(submodule, r) ← Re.capture1 is_word (Re.many is_space line);
  match params (Re.many is_space r) with
  | Some r' =>
      match inst_head r' with
      | Some (name, _) => Some (submodule, name)
      | None => '(name, _) ← inst_head r; Some (submodule, name)
      end
  | None => '(name, _) ← inst_head r; Some (submodule, name)
  end.

(** [\s* (\w+) \s* # \s* \(], matched at the start of the line. *)
Definition params_start (line : string) : option string :=
  '(submodule, r) ← Re.capture1 is_word (Re.many is_space line);
  r ← Re.lit "#" (Re.many is_space r);
  _ ← Re.lit "(" (Re.many is_space r);
  Some submodule.

(** [\) \s+ ([A-Za-z_] \w* ) \s* \(], searched in the line. *)
Definition closing_inst (_ : option ascii) (s : string)
    : option (string * string) :=
  r ← Re.lit ")" s;
  inst_head r.

(** [re.escape(inst_name) + r"\s*\("], searched in the block. *)
Definition name_open (inst_name : string) (_ : option ascii) (s : string)
    : option (unit * string) :=
  r ← Re.lit inst_name s;
  r ← Re.lit "(" (Re.many is_space r);
  Some ((), r).

(** [full_block[m_pos.end():] if m_pos else full_block] *)
Definition port_block_of (inst_name full_block : string) : string :=
  match Re.search (name_open inst_name) full_block with
  | Some (_, r) => r
  | None => full_block
  end.

(** [{p: s for p, s in extract_port_pairs(port_block)}] *)
Definition connections_of (port_block : string) : Dict.t string :=
  foldl (fun d '(p, s) => Dict.set p s d) [] (extract_port_pairs port_block).

(** The record appended for an instance whose block starts at line
    [start], and the index returned by [accumulate_until_close]. *)
Definition read_instance (rtl_lines : list string) (submodule inst_name : string)
    (start : nat) : Instance * nat :=
  let '(full_block, i) := accumulate_until_close rtl_lines start in
  (mkInstance submodule inst_name
     (connections_of (port_block_of inst_name full_block)), i).

(** The inner [while j < n] loop: the first line from [j] on with a
    closing parenthesis followed by an instance name. *)
Fixpoint find_inst_line (lines_from_j : list string) (j : nat)
    : option (string * nat) :=
  match lines_from_j with
  | [] => None
  | raw :: rest =>
      match Re.search closing_inst (strip_comments raw) with
      | Some (name, _) => Some (name, j)
      | None => find_inst_line rest (S j)
      end
  end.

(** One iteration of the outer [while i < n] loop at index [i]: the
    instance found there, if any, and the next index. *)
Definition inst_step (rtl_lines : list string) (i : nat)
    : option Instance * nat :=
  let line := strip_comments (default "" (rtl_lines !! i)) in
  match inline_inst line with
  | Some (submodule, inst_name) =>
      let '(inst, i') := read_instance rtl_lines submodule inst_name i in
      (Some inst, S i')
  | None =>
      match params_start line with
      | Some submodule =>
          match find_inst_line (drop i rtl_lines) i with
          | Some (inst_name, inst_line_idx) =>
              let '(inst, i') :=
                read_instance rtl_lines submodule inst_name inst_line_idx in
              (Some inst, S i')
          | None => (None, S i)
          end
      | None => (None, S i)
      end
  end.

(** The outer loop; every iteration moves [i] forward, so [fuel]
    iterations are enough whenever [length rtl_lines <= i + fuel]. *)
Fixpoint instantiations_from (fuel : nat) (rtl_lines : list string) (i : nat)
    : list Instance :=
  match fuel with
  | O => []
  | S fuel' =>
      if bool_decide (i < length rtl_lines) then
        let '(found, i') := inst_step rtl_lines i in
        option_list found ++ instantiations_from fuel' rtl_lines i'
      else []
  end.

Definition detect_instantiations (rtl_lines : list string) : list Instance :=
  instantiations_from (length rtl_lines) rtl_lines 0.

(** ** The connectivity graph builder ([check_system.py]) *)

(** The connections appended for one instance of [module_name]. *)
Definition connections_of_instance (module_name : string) (inst : Instance)
    : list Connection :=
  (fun '(port, sig) =>
     {| parent_module := module_name;
        child_module := submodule inst;
        instance := inst_name inst;
        child_port := port;
        parent_signal := sig |}) <$> inst_connections inst.

(** The body of the loop over [files]; a file is given by its text. *)
Definition analyze_file (system : System) (text : string) : System :=
  let content := strip_comments text in
  let rtl_lines := rtl_lines_of content in
  let module_name := detect_module_name rtl_lines in
  let '(ports, signals) := detect_ports_and_signals rtl_lines in
  let insts := detect_instantiations rtl_lines in
  {| modules :=
       Dict.set module_name (mkModuleInfo ports signals) (modules system);
     connections :=
       connections system ++
       (inst ← insts; connections_of_instance module_name inst) |}.

Definition analyze_system (files : list string) : System :=
  foldl analyze_file (mkSystem [] []) files.

(** ** The structural validator: widths ([check_system.py]) *)

(** A declared or inferred width: a Python [int] or the name of a
    parameter. *)
Inductive Width :=
  | WNum (n : Z)
  | WSym (name : string).

Global Instance Width_eq_dec : EqDecision Width.
Proof. solve_decision. Defined.

(** [isinstance(w, int)] *)
Definition is_int (w : Width) : bool :=
  match w with WNum _ => true | WSym _ => false end.

(** [int(s)] for a string of decimal digits. *)
Definition int_of_digits (s : string) : Z :=
  foldl (fun acc c => 10 * acc + Z.of_N (code c - 48))%Z 0%Z
        (String.list_ascii_of_string s).

(** [\[ (\d+) \s* : \s* (\d+) \]], and then [abs(msb - lsb) + 1]. *)
Definition numeric_range (_ : option ascii) (s : string)
    : option (Z * string) :=
  r ← Re.lit "[" s;
  '(msb, r) ← Re.capture1 is_digit r;
  r ← Re.lit ":" (Re.many is_space r);
  '(lsb, r) ← Re.capture1 is_digit (Re.many is_space r);
  r ← Re.lit "]" r;
  Some ((Z.abs (int_of_digits msb - int_of_digits lsb) + 1)%Z, r).

(** [(?: \s* - \s* 1 )?]: once the group has matched, the colon cannot
    follow without it. *)
Definition minus_one (s : string) : string :=
  match
    r ← Re.lit "-" (Re.many is_space s);
    Re.lit "1" (Re.many is_space r)
  with
  | Some r => r
  | None => s
  end.

(** [\[ (\w+) (?: \s* - \s* 1 )? \s* : \s* 0 \]] *)
Definition symbolic_range (_ : option ascii) (s : string)
    : option (string * string) :=
  r ← Re.lit "[" s;
  '(name, r) ← Re.capture1 is_word r;
  r ← Re.lit ":" (Re.many is_space (minus_one r));
  r ← Re.lit "0]" (Re.many is_space r);
  Some (name, r).

Definition decl_keywords : list string :=
  ["input"; "output"; "inout"; "reg"; "wire"; "parameter"; "localparam"].

(** [^(input|output|inout|reg|wire|parameter|localparam)\b] *)
Definition decl_start (line : string) : bool :=
  match Re.alt decl_keywords line with
  | Some r => at_word_end r
  | None => false
  end.

(** [\b\w+\b] *)
Definition word (prev : option ascii) (s : string) : option (string * string) :=
  if at_word_start prev then Re.capture1 is_word s else None.

(** The width declared by a declaration line. *)
Definition declared_width (line : string) : Width :=
  match Re.search numeric_range line with
  | Some (w, _) => WNum w
  | None =>
      match Re.search symbolic_range line with
      | Some (name, _) => WSym name
      | None => WNum 1
      end
  end.

(** The body of the loop over [rtl_lines]. *)
Definition add_declarations (decls : gmap string Width) (line : string)
    : gmap string Width :=
  let line := Str.strip line in
  if decl_start line then
    let width := declared_width line in
    foldl (fun decls name =>
        if bool_decide (name ∈ decl_keywords) then decls
        else <[name := width]> decls)
      decls (Re.findall word line)
  else decls.

Definition extract_signal_declarations (rtl_lines : list string)
    : gmap string Width :=
  foldl add_declarations ∅ rtl_lines.

(** [$]: the end of the string, or a line feed just before it. *)
Definition at_end (s : string) : bool :=
  bool_decide (s = EmptyString) || bool_decide (s = String newline EmptyString).

(** [^\d+$] or [^\d+'[bhdo][0-9a-fA-F]+$] *)
Definition is_literal (token : string) : bool :=
  match Re.many1 is_digit token with
  | Some r =>
      at_end r ||
      match
        r ← Re.lit "'" r;
        r ← Re.alt ["b"; "h"; "d"; "o"] r;
        Re.many1 is_hex r
      with
      | Some r => at_end r
      | None => false
      end
  | None => false
  end.

Definition is_keyword (token : string) : bool :=
  bool_decide (token ∈ ["if"; "else"; "begin"; "end"; "case"; "endcase";
                        "default"; "posedge"; "negedge"]).

Definition is_fsm_state (sig : string) : bool :=
  bool_decide (sig ∈ ["IDLE"; "RESP"; "GO"; "ONE"; "BUSY"; "START"; "STOP"]).

(** [[\w\[\]:]] *)
Definition is_rhs_char (c : ascii) : bool :=
  is_word c || Ascii.eqb c "[" || Ascii.eqb c "]" || Ascii.eqb c ":".

(** [(\w+) \s* (?:<=|=) \s* ([\w\[\]:]+)] *)
Definition assignment (_ : option ascii) (s : string)
    : option ((string * string) * string) :=
  '(lhs, r) ← Re.capture1 is_word s;
  r ← Re.alt ["<="; "="] (Re.many is_space r);
  '(rhs, r) ← Re.capture1 is_rhs_char (Re.many is_space r);
  Some ((lhs, rhs), r).

Record Mismatch := mkMismatch {
  mm_lhs : string;
  lhs_width : Z;
  mm_rhs : string;
  rhs_width : Z
}.

(** [is_literal(rhs) or is_keyword(rhs) or is_fsm_state(rhs)] *)
Definition skipped (rhs : string) : bool :=
  is_literal rhs || is_keyword rhs || is_fsm_state rhs.

(** [decls.get(name, 1)] *)
Definition width_of (decls : gmap string Width) (name : string) : Width :=
  default (WNum 1) (decls !! name).

(** "Determine RHS width". *)
Definition rhs_width_of (decls : gmap string Width) (rhs : string) : Width :=
  match Re.search numeric_range rhs with
  | Some (w, _) => WNum w
  | None =>
      match Re.search symbolic_range rhs with
      | Some (name, _) => WSym name
      | None => width_of decls rhs
      end
  end.

(** The body of the loop over [assigns]: the record appended, if any. *)
Definition check_assignment (decls : gmap string Width)
    (a : string * string) : list Mismatch :=
  let '(lhs, rhs) := a in
  if skipped rhs then []
  else
    match width_of decls lhs, rhs_width_of decls rhs with
    | WNum lhs_w, WNum rhs_w =>
        if bool_decide (lhs_w ≠ rhs_w) then [mkMismatch lhs lhs_w rhs rhs_w]
        else []
    | _, _ => []
    end.

Definition assignments_of (rtl_lines : list string) : list (string * string) :=
  Re.findall assignment (Str.join " " rtl_lines).

Definition detect_width_mismatches (rtl_lines : list string) : list Mismatch :=
  let decls := extract_signal_declarations rtl_lines in
  a ← assignments_of rtl_lines;
  check_assignment decls a.

(** ** Merging mapped tables ([merge_map_signals.py]) *)

(** A table as [load_csv] returns it: the classification row, the
    header row and the data rows. *)
Abbreviation Csv := (list string * list string * list (list string))%type.

(** [rows[0], rows[1], rows[2:]]; [None] is the [IndexError] of a file
    with fewer than two rows. *)
Definition load_csv (rows : list (list string)) : option Csv :=
  match rows with
  | class_row :: header_row :: data_rows => Some (class_row, header_row, data_rows)
  | _ => None
  end.

Definition pad (row : list string) (len : nat) : list string :=
  if bool_decide (length row < len)
  then row ++ replicate (len - length row) ""
  else take len row.

(** [[j for j, n in enumerate(head2) if n not in head1]], counting
    from [j]. *)
Fixpoint keep_from (head1 head2 : list string) (j : nat) : list nat :=
  match head2 with
  | [] => []
  | n :: head2' =>
      if bool_decide (n ∈ head1) then keep_from head1 head2' (S j)
      else j :: keep_from head1 head2' (S j)
  end.

(** [[l[j] for j in keep_idx2]]; [None] is the [IndexError] of an index
    past the end of [l]. *)
Definition pick (l : list string) (keep_idx2 : list nat) : option (list string) :=
  mapM (fun j => l !! j) keep_idx2.

(** [pad(data[i], len) if i < len(data) else [""] * len] *)
Definition padded_row (data : list (list string)) (len i : nat) : list string :=
  match data !! i with
  | Some row => pad row len
  | None => replicate len ""
  end.

Definition merge_two_tables (class1 head1 : list string)
    (data1 : list (list string)) (class2 head2 : list string)
    (data2 : list (list string)) : option Csv :=
  let keep_idx2 := keep_from head1 head2 0 in
  picked_class ← pick class2 keep_idx2;
  picked_head ← pick head2 keep_idx2;
  let merged_class := class1 ++ picked_class in
  let merged_head := head1 ++ picked_head in
  let len1 := length head1 in
  let len2 := length head2 in
  let max_len := length data1 `max` length data2 in
  merged_data ← mapM (fun i =>
      let r1 := padded_row data1 len1 i in
      let r2 := padded_row data2 len2 i in
      picked ← pick r2 keep_idx2;
      Some (r1 ++ picked))
    (seq 0 max_len);
  Some (merged_class, merged_head, merged_data).

(** The loop of [merge_all] over [files[1:]]; a file is given by its
    rows. *)
Fixpoint merge_rest (table : Csv) (files : list (list (list string)))
    : option Csv :=
  match files with
  | [] => Some table
  | f :: files' =>
      '(c2, h2, d2) ← load_csv f;
      let '(class_row, header_row, data_rows) := table in
      table' ← merge_two_tables class_row header_row data_rows c2 h2 d2;
      merge_rest table' files'
  end.

(** The table that [merge_all] writes; [None] for an empty list of
    files or an exception on the way. *)
Definition merge_all (files : list (list (list string))) : option Csv :=
  match files with
  | [] => None
  | f :: files' => table ← load_csv f; merge_rest table files'
  end.

(** ** Notions used in the statements *)

(** [B] is listed as a candidate of [A]. *)
Definition candidate (m : gmap string (list string)) (A B : string) : Prop :=
  exists l, m !! A = Some l /\ B ∈ l.

(** The pairs added for one connection. *)
Definition linked (conn : Connection) (A B : string) : Prop :=
  (A ∈ parent_names conn /\ B ∈ child_names conn) \/
  (A ∈ child_names conn /\ B ∈ parent_names conn).







(** What [sorted(set(...))] produces. *)
Definition sorted_unique (l : list string) : Prop :=
  Sorted String.le l /\ NoDup l.

(** Some line of the file declares a module. *)
Definition has_module_decl (rtl_lines : list string) : bool :=
  existsb (fun raw =>
      bool_decide (is_Some (module_decl (Str.strip (strip_comments raw)))))
    rtl_lines.

(** [h], at index [i], is the first header that satisfies [P]. *)
Definition first_match (P : string -> Prop) (headers : list string)
    (h : string) (i : nat) : Prop :=
  headers !! i = Some h /\ P h /\
  forall j h', j < i -> headers !! j = Some h' -> ~ P h'.

(** The value written for a metadata signal that is not the clock
    column. *)
Definition resolved_value (conn_map : gmap string (list string))
    (signal_map : Dict.t string) (row : Row) (meta_sig : string) : string :=
  (resolve_value conn_map signal_map row [] meta_sig).1.

(** [e] is the output row built from [row]. *)
Definition row_built (conn_map : gmap string (list string))
    (metadata_map : Metadata) (signal_map : Dict.t string)
    (clock_column : option string) (row e : Row) : Prop :=
  exists time_col filled filled',
    build_row conn_map metadata_map signal_map clock_column row filled
    = Some (time_col, e, filled').

(** An identifier: a letter or an underscore, then word characters. *)
Definition is_identifier (s : string) : bool :=
  match s with
  | String c r => is_ident_start c && Str.all is_word r
  | EmptyString => false
  end.

(** A non-empty run of word characters. *)
Definition is_word_run (s : string) : bool :=
  truthy s && Str.all is_word s.

(** A binding of a port: a port name of word characters and a signal
    expression without a closing parenthesis and without white space
    around it. *)
Definition binding_ok (b : string * string) : Prop :=
  is_word_run b.1 = true /\ Str.strip b.2 = b.2 /\
  Str.all (fun c => negb (Ascii.eqb c ")")) b.2 = true.

(** An instance record as the extractor builds it. *)
Definition instance_ok (inst : Instance) : Prop :=
  is_word_run (submodule inst) = true /\
  is_identifier (inst_name inst) = true /\
  NoDup (Dict.keys (inst_connections inst)) /\
  Forall binding_ok (inst_connections inst).

(** The stripped line [line] declares [name]: it starts with a
    declaration keyword and holds the word [name], which is no such
    keyword itself. *)
Definition declares (name line : string) : bool :=
  decl_start line && bool_decide (name ∈ Re.findall word line)
  && negb (bool_decide (name ∈ decl_keywords)).

(** A width that is a positive number or the name of a parameter. *)
Definition width_ok (w : Width) : Prop :=
  match w with
  | WNum n => (1 <= n)%Z
  | WSym name => is_word_run name = true
  end.

(** In [row] the signal [target] is filled from the column [source]:
    its own waveform value is empty, the resolver chooses [source], a
    column with a name, and that column holds a value. *)
Definition filled_from (conn_map : gmap string (list string))
    (signal_map : Dict.t string) (row : Row) (target source : string) : Prop :=
  is_empty_value (direct_value signal_map row target) = true /\
  (exists i,
     find_connected_signal target (Dict.keys row) conn_map = Some (source, i)) /\
  source ≠ "" /\
  is_empty_value (row_get row (Some source)) = false.

(** [filled'] extends [filled] by one record for each target that [Q]
    fills and that was not recorded yet. *)
Definition fills (Q : string -> string -> Prop) (filled filled' : Filled)
    : Prop :=
  (exists new, filled' = filled ++ new) /\
  (NoDup filled.*1 -> NoDup filled'.*1) /\
  (forall t s, (t, s) ∈ filled' -> (t, s) ∈ filled \/ Q t s) /\
  (forall t s, Q t s -> t ∈ filled'.*1).

(** The names under which [match_waveform_signals] files a metadata
    signal in [meta_norm]. *)
Definition meta_names (meta_sig : string) : list string :=
  [normalize meta_sig; Str.lower (Str.after_last "." meta_sig)].

(** The names under which it looks a waveform column up, in order. *)
Definition lookup_names (wf_sig : string) : list string :=
  let cleaned := normalize wf_sig in
  [cleaned; Str.lower (sub_index (Str.after_last "." wf_sig))] ++
  (if Str.contains "." cleaned then
     let parts := Str.split "." cleaned in
     if bool_decide (2 <= length parts) then [last_two parts] else []
   else []).

(** The rows that [build_table] writes to its output file: the
    classification row, the header row, then the data rows; [nan] is the
    text written for a missing cell. *)
Definition written_rows (nan : string) (t : Table) : list (list string) :=
  class_row t :: header_row t ::
  ((fun cells : list (option string) => default nan <$> cells)
     <$> data_rows t).

(** The classification row, the header row and the number of data
    rows of a file, as [load_csv] reads them. *)
Definition class_names (f : list (list string)) : list string :=
  default [] ((fun t : Csv => t.1.1) <$> load_csv f).

Definition header_names (f : list (list string)) : list string :=
  default [] ((fun t : Csv => t.1.2) <$> load_csv f).

Definition data_count (f : list (list string)) : nat :=
  default 0 ((fun t : Csv => length t.2) <$> load_csv f).

(** The connection of the comments in [build_connection_map]. *)
Definition uart_connection : Connection :=
  {| parent_module := "soc_periph_top"; child_module := "uart";
     instance := "u_uart"; child_port := "tx_busy";
     parent_signal := "uart_busy" |}.

(** A metadata map, two sampled rows and the table built from them. *)
Definition example_metadata : Metadata :=
  [("uart_busy", "status"); ("clk", "clock"); ("rst", "reset")].

Definition example_waveform : list Row :=
  [ [("time_ps", "0"); ("soc_tb.dut.clk", "1");
     ("soc_tb.dut.u_uart.tx_busy", "x"); ("soc_tb.dut.rst", "1")];
    [("time_ps", "5"); ("soc_tb.dut.clk", "0");
     ("soc_tb.dut.u_uart.tx_busy", "-"); ("soc_tb.dut.rst", "z")] ].

Definition example_table : Table :=
  {| class_row := [""; "clock"; "status"; "reset"];
     header_row := ["time_ps"; "clk"; "uart_busy"; "rst"];
     data_rows := [ [Some "0"; Some "1"; Some "x"; Some "1"];
                    [Some "5"; Some "0"; Some ""; Some "z"] ] |}.

(** A second metadata map and the table built from it and the same
    rows, without connectivity. *)
Definition example_metadata2 : Metadata :=
  [("rst", "reset"); ("tx_busy", "flag")].

Definition example_table2 : Table :=
  {| class_row := [""; "reset"; "flag"];
     header_row := ["time_ps"; "rst"; "tx_busy"];
     data_rows := [ [Some "0"; Some "1"; Some "x"];
                    [Some "5"; Some "z"; Some "-"] ] |}.

(** * Properties *)

(** ** Characters and strings *)

Section char_facts.

Local Ltac by_cases c := destruct c as [[] [] [] [] [] [] [] []]; reflexivity.

Lemma lower_char_idem c : lower_char (lower_char c) = lower_char c.
Proof. by_cases c. Qed.

Lemma lower_char_close c : Ascii.eqb (lower_char c) "]" = Ascii.eqb c "]".
Proof. by_cases c. Qed.

Lemma lower_char_open c : Ascii.eqb (lower_char c) "[" = Ascii.eqb c "[".
Proof. by_cases c. Qed.

Lemma lower_char_newline c :
  Ascii.eqb (lower_char c) newline = Ascii.eqb c newline.
Proof. by_cases c. Qed.

End char_facts.

Lemma lower_idem s : Str.lower (Str.lower s) = Str.lower s.
Proof. induction s as [|c s IH]; simpl; [done|]. by rewrite lower_char_idem, IH. Qed.

Lemma lower_length s : String.length (Str.lower s) = String.length s.
Proof. induction s as [|c s IH]; simpl; congruence. Qed.

Lemma strip_prefix_length pre s r :
  Str.strip_prefix pre s = Some r ->
  String.length s = String.length pre + String.length r.
Proof.
  revert s; induction pre as [|a pre IH]; intros s H; simpl in *.
  { by injection H as ->. }
  destruct s as [|c s]; [done|].
  destruct (Ascii.eqb a c); [|done]. simpl. by rewrite (IH _ H).
Qed.

Lemma drop_while_length p s :
  String.length (Str.drop_while p s) <= String.length s.
Proof. induction s as [|c s IH]; simpl; [lia|]. destruct (p c); simpl; lia. Qed.

(** ** The identity normalizer *)

Lemma closes_lower s : closes (Str.lower s) = closes s.
Proof.
  induction s as [|c s IH]; simpl; [done|].
  by rewrite lower_char_close, lower_char_newline, IH.
Qed.

Lemma sub_index_go_lower b s :
  sub_index_go b (Str.lower s) = Str.lower (sub_index_go b s).
Proof.
  revert b; induction s as [|c s IH]; intros b; simpl; [done|].
  rewrite lower_char_close, lower_char_open, closes_lower, !IH.
  destruct b; [by destruct (Ascii.eqb c "]")|].
  by destruct (Ascii.eqb c "[" && closes s).
Qed.

Lemma sub_index_go_length b s :
  String.length (sub_index_go b s) <= String.length s.
Proof.
  revert b; induction s as [|c s IH]; intros b; simpl; [lia|].
  pose proof (IH true); pose proof (IH false).
  destruct b; [destruct (Ascii.eqb c "]"); lia|].
  destruct (Ascii.eqb c "[" && closes s); simpl; lia.
Qed.

(** An opening bracket that is left in place stays unmatched. *)
Lemma closes_sub_index s : closes s = false -> closes (sub_index_go false s) = false.
Proof.
  induction s as [|c s IH]; simpl; [done|].
  destruct (Ascii.eqb c "]") eqn:Hc; [done|].
  destruct (Ascii.eqb c newline) eqn:Hn.
  - intros _. destruct (Ascii.eqb c "[" && closes s) eqn:E; simpl.
    + apply andb_true_iff in E as [E _].
      apply Ascii.eqb_eq in E, Hn. subst c. discriminate.
    + by rewrite Hc, Hn.
  - intros Hs. rewrite Hs, andb_false_r. simpl. rewrite Hc, Hn. auto.
Qed.

Lemma sub_index_go_idem b s :
  sub_index_go false (sub_index_go b s) = sub_index_go b s.
Proof.
  revert b; induction s as [|c s IH]; intros b; simpl; [done|].
  destruct b; [by destruct (Ascii.eqb c "]")|].
  destruct (Ascii.eqb c "[" && closes s) eqn:E; [done|].
  simpl. rewrite IH.
  destruct (Ascii.eqb c "[") eqn:Hc; simpl in *; [|done].
  by rewrite (closes_sub_index _ E).
Qed.

Lemma match_hier_length seg name r :
  match_hier seg name = Some r -> String.length r < String.length name.
Proof.
  unfold match_hier. intros H%strip_prefix_length.
  pose proof (drop_while_length (fun c => negb (Ascii.eqb c ".")) name).
  simpl in H. lia.
Qed.

Lemma sub_hier_length seg name :
  String.length (sub_hier seg name) <= String.length name.
Proof.
  unfold sub_hier. destruct (match_hier seg name) eqn:E; simpl; [|lia].
  apply match_hier_length in E. lia.
Qed.

Lemma sub_top_length name : String.length (sub_top name) <= String.length name.
Proof.
  unfold sub_top. destruct (Str.strip_prefix "top." name) eqn:E; simpl; [|lia].
  apply strip_prefix_length in E. lia.
Qed.


Lemma sub_hier_none seg name :
  match_hier seg name = None -> sub_hier seg name = name.
Proof. unfold sub_hier. by intros ->. Qed.

Lemma sub_top_none name :
  Str.startswith name "top." = false -> sub_top name = name.
Proof.
  unfold sub_top, Str.startswith.
  by destruct (Str.strip_prefix "top." name).
Qed.

Lemma has_hier_prefix_false name :
  has_hier_prefix name = false ->
  match_hier "dut" name = None /\ match_hier "tb" name = None /\
  Str.startswith name "top." = false.
Proof.
  unfold has_hier_prefix. intros H.
  apply orb_false_iff in H as [H Htop].
  apply orb_false_iff in H as [Hdut Htb].
  apply bool_decide_eq_false in Hdut, Htb.
  rewrite <-eq_None_not_Some in Hdut, Htb. done.
Qed.

(** Without a removable prefix only the last two steps act. *)
Lemma normalize_no_prefix name :
  has_hier_prefix name = false -> normalize name = Str.lower (sub_index name).
Proof.
  intros (Hdut & Htb & Htop)%has_hier_prefix_false. unfold normalize.
  by rewrite (sub_hier_none _ _ Hdut), (sub_hier_none _ _ Htb),
             (sub_top_none _ Htop).
Qed.

(** With one, the result is strictly shorter. *)
Lemma normalize_prefix_shorter name :
  has_hier_prefix name = true ->
  String.length (normalize name) < String.length name.
Proof.
  intros H. unfold normalize, sub_index. rewrite lower_length.
  eapply Nat.le_lt_trans; [apply sub_index_go_length|].
  destruct (match_hier "dut" name) as [r1|] eqn:E1.
  { eapply Nat.le_lt_trans; [apply sub_top_length|].
    eapply Nat.le_lt_trans; [apply sub_hier_length|].
    unfold sub_hier. rewrite E1. by apply match_hier_length in E1. }
  rewrite (sub_hier_none _ _ E1).
  destruct (match_hier "tb" name) as [r2|] eqn:E2.
  { eapply Nat.le_lt_trans; [apply sub_top_length|].
    unfold sub_hier. rewrite E2. by apply match_hier_length in E2. }
  rewrite (sub_hier_none _ _ E2).
  unfold has_hier_prefix in H. rewrite E1, E2 in H.
  rewrite !bool_decide_eq_false_2 in H by (by intros [??]).
  unfold sub_top, Str.startswith in *.
  destruct (Str.strip_prefix "top." name) as [r3|] eqn:E3; [|done].
  apply strip_prefix_length in E3. change (String.length "top.") with 4 in E3.
  change (default name (Some r3)) with r3. lia.
Qed.

(** C4 (as stated, refuted): a name with two removable hierarchy
    segments loses one of them at each application, so [normalize] is
    not idempotent on it. *)
Lemma normalize_not_idempotent :
  normalize (normalize "a.dut.b.dut.c") <> normalize "a.dut.b.dut.c".
Proof. vm_compute. discriminate. Qed.

(** C4 (amended): [normalize (normalize n) = normalize n] holds exactly
    when [normalize n] no longer begins with a segment that [normalize]
    removes ([<seg>.dut.], [<seg>.tb.] or [top.]); and the two examples
    of the specification hold. *)
Theorem normalize_idempotent_iff :
  (forall n,
     normalize (normalize n) = normalize n <->
     has_hier_prefix (normalize n) = false) /\
  normalize "soc_tb.dut.uart_busy" = "uart_busy" /\
  normalize "reg0[31:0]" = "reg0".
Proof.
  split; [|by vm_compute].
  intros n. split.
  - intros Heq. destruct (has_hier_prefix (normalize n)) eqn:E; [|done].
    apply normalize_prefix_shorter in E. rewrite Heq in E. lia.
  - intros E. rewrite (normalize_no_prefix _ E).
    unfold normalize at 1 2, sub_index.
    by rewrite sub_index_go_lower, sub_index_go_idem, lower_idem.
Qed.

(** ** The connection map *)

Lemma candidate_setdefault_append k v m A B :
  candidate (setdefault_append k v m) A B <->
  candidate m A B \/ (A = k /\ B = v).
Proof.
  unfold candidate, setdefault_append. split.
  - intros (l & Hl & HB). destruct (decide (k = A)) as [->|Hne].
    + rewrite lookup_insert_eq in Hl. injection Hl as <-.
      apply elem_of_app in HB as [HB|HB%list_elem_of_singleton]; [|by right].
      left. destruct (m !! A) as [l'|]; [eauto|]. by apply elem_of_nil in HB.
    + rewrite lookup_insert_ne in Hl by done. left; eauto.
  - intros [(l & Hl & HB)|[-> ->]].
    + destruct (decide (k = A)) as [->|Hne].
      * rewrite lookup_insert_eq, Hl. eexists; split; [done|].
        apply elem_of_app; by left.
      * rewrite lookup_insert_ne by done. eauto.
    + rewrite lookup_insert_eq. eexists; split; [done|].
      apply elem_of_app; right. by apply list_elem_of_singleton.
Qed.

Lemma candidate_inner_loop p cs m A B :
  candidate
    (foldl (fun m c => setdefault_append c p (setdefault_append p c m)) m cs)
    A B <->
  candidate m A B \/ (A = p /\ B ∈ cs) \/ (A ∈ cs /\ B = p).
Proof.
  revert m; induction cs as [|c cs IH]; intros m; simpl.
  - split; [by left|]. intros [?|[[_ H]|[H _]]]; [done|..];
      by apply elem_of_nil in H.
  - rewrite IH, !candidate_setdefault_append, !elem_of_cons.
    intuition (subst; auto).
Qed.

Lemma candidate_add_connection_go conn ps m A B :
  candidate
    (foldl (fun m parent_name =>
       foldl (fun m child_name =>
         setdefault_append child_name parent_name
           (setdefault_append parent_name child_name m))
         m (child_names conn)) m ps)
    A B <->
  candidate m A B \/
  (A ∈ ps /\ B ∈ child_names conn) \/ (A ∈ child_names conn /\ B ∈ ps).
Proof.
  revert m; induction ps as [|p ps IH]; intros m; cbn [foldl].
  - split; [by left|]. intros [?|[[H _]|[_ H]]]; [done|..];
      by apply elem_of_nil in H.
  - rewrite IH, candidate_inner_loop, !elem_of_cons.
    intuition (subst; auto).
Qed.

Lemma candidate_add_connection conn m A B :
  candidate (add_connection m conn) A B <-> candidate m A B \/ linked conn A B.
Proof. apply candidate_add_connection_go. Qed.

Lemma candidate_fold conns m A B :
  candidate (foldl add_connection m conns) A B <->
  candidate m A B \/ exists conn, conn ∈ conns /\ linked conn A B.
Proof.
  revert m; induction conns as [|c conns IH]; intros m; simpl.
  - split; [by left|]. intros [?|(c & H & _)]; [done|].
    by apply elem_of_nil in H.
  - rewrite IH, candidate_add_connection. setoid_rewrite elem_of_cons.
    split.
    + intros [[?|?]|(c' & ? & ?)]; eauto 6.
    + intros [?|(c' & [->|?] & ?)]; eauto 6.
Qed.

Lemma linked_sym conn A B : linked conn A B -> linked conn B A.
Proof. unfold linked. tauto. Qed.

Section connection_map_facts.

Variable enum : list string -> list string.
Hypothesis enum_spec : set_enumeration enum.

Lemma candidate_enum m A B : candidate (enum <$> m) A B <-> candidate m A B.
Proof.
  unfold candidate. setoid_rewrite lookup_fmap. split.
  - intros (l & Hl & HB). destruct (m !! A) as [l'|]; [|done].
    injection Hl as <-. exists l'. split; [done|]. by apply enum_spec.
  - intros (l & Hl & HB). exists (enum l). rewrite Hl. split; [done|].
    by apply enum_spec.
Qed.

(** The candidates of the finished map are exactly the pairs linked by
    some connection. *)
Lemma candidate_build_connection_map connectivity A B :
  candidate (build_connection_map enum connectivity) A B <->
  exists conns conn,
    connectivity = Some conns /\ conn ∈ conns /\ linked conn A B.
Proof.
  destruct connectivity as [conns|]; simpl.
  - rewrite candidate_enum, candidate_fold. split.
    + intros [(l & Hl & _)|(c & ? & ?)]; [by rewrite lookup_empty in Hl|].
      eauto.
    + intros (? & c & [= <-] & ? & ?). right. eauto.
  - split; [|by intros (? & ? & ? & _)].
    intros (l & Hl & _). by rewrite lookup_empty in Hl.
Qed.

End connection_map_facts.

(** C3: the connection map is symmetric, and the candidate list of
    every key is duplicate-free, whatever order [list(set(...))]
    enumerates the candidates in. *)
Theorem connection_map_symmetric
    (enum : list string -> list string) (Henum : set_enumeration enum)
    (connectivity : option (list Connection)) :
  let conn_map := build_connection_map enum connectivity in
  (forall A B lA,
     conn_map !! A = Some lA -> B ∈ lA ->
     exists lB, conn_map !! B = Some lB /\ A ∈ lB) /\
  (forall A lA, conn_map !! A = Some lA -> NoDup lA).
Proof.
  intros conn_map. split.
  - intros A B lA HA HB.
    assert (candidate conn_map A B) as H by (exists lA; done).
    apply (candidate_build_connection_map _ Henum) in H
      as (conns & c & -> & Hc & Hl%linked_sym).
    apply (candidate_build_connection_map _ Henum). eauto.
  - intros A lA. subst conn_map. destruct connectivity as [conns|]; simpl.
    + rewrite lookup_fmap. destruct (_ !! A) as [l|]; [|done].
      intros [= <-]. apply Henum.
    + by rewrite lookup_empty.
Qed.

Lemma remove_dups_enumeration : set_enumeration remove_dups.
Proof.
  intros l. split; [apply NoDup_remove_dups|].
  intros x. apply elem_of_remove_dups.
Qed.

(** Symmetry at the connection of the source's comments: [uart_busy]
    lists [tx_busy], hence [tx_busy] lists [uart_busy]. *)
Lemma connection_map_symmetric_witness :
  exists lB,
    build_connection_map remove_dups (Some [uart_connection]) !! "tx_busy"
      = Some lB /\
    "uart_busy" ∈ lB.
Proof.
  apply (proj1 (connection_map_symmetric remove_dups remove_dups_enumeration
                  (Some [uart_connection]))
               "uart_busy" "tx_busy" ["u_uart.tx_busy"; "tx_busy"]).
  - vm_compute. reflexivity.
  - apply list_elem_of_further, list_elem_of_here.
Defined.

(** ** Insertion-ordered dictionaries *)

Section dict_facts.

Context {V : Type}.
Implicit Types (d : Dict.t V) (k : string) (v : V).

Lemma dict_get_set_eq k v d : Dict.get k (Dict.set k v d) = Some v.
Proof.
  induction d as [|[k' v'] d IH]; simpl.
  - by rewrite decide_True.
  - destruct (decide (k' = k)) as [->|Hne]; simpl.
    + by rewrite decide_True.
    + by rewrite decide_False.
Qed.

Lemma dict_get_set_ne k k' v d :
  k ≠ k' -> Dict.get k' (Dict.set k v d) = Dict.get k' d.
Proof.
  intros Hne. induction d as [|[k0 v0] d IH]; simpl.
  - by rewrite decide_False.
  - destruct (decide (k0 = k)) as [->|Hne0]; simpl.
    + by rewrite !decide_False.
    + by rewrite IH.
Qed.


Lemma dict_elem_of_set k v d kv :
  kv ∈ Dict.set k v d -> kv ∈ d \/ kv = (k, v).
Proof.
  induction d as [|[k' v'] d IH]; simpl.
  - intros ->%list_elem_of_singleton. by right.
  - destruct (decide (k' = k)) as [->|Hne]; rewrite !elem_of_cons.
    + intros [->|?]; auto.
    + intros [->|?]; [auto|]. destruct IH; auto.
Qed.

Lemma dict_keys_set k v d :
  Dict.keys (Dict.set k v d) =
  if bool_decide (k ∈ Dict.keys d) then Dict.keys d else Dict.keys d ++ [k].
Proof.
  unfold Dict.keys. induction d as [|[k' v'] d IH]; csimpl; [done|].
  destruct (decide (k' = k)) as [->|Hne]; csimpl.
  - rewrite bool_decide_eq_true_2; [done|]. apply list_elem_of_here.
  - rewrite IH. destruct (bool_decide (k ∈ d.*1)) eqn:E.
    + apply bool_decide_eq_true in E. rewrite bool_decide_eq_true_2; [done|].
      by apply list_elem_of_further.
    + apply bool_decide_eq_false in E. rewrite bool_decide_eq_false_2; [done|].
      rewrite elem_of_cons. intros [->|?]; done.
Qed.

Lemma dict_get_None k d : Dict.get k d = None <-> k ∉ Dict.keys d.
Proof.
  unfold Dict.keys. induction d as [|[k' v'] d IH]; csimpl.
  - split; [|done]. intros _ H. by apply elem_of_nil in H.
  - rewrite elem_of_cons. destruct (decide (k' = k)) as [->|Hne].
    + split; [done|]. intros []. by left.
    + rewrite IH. split; [intros ? [->|?]; done|]. intros H ?. apply H; auto.
Qed.

End dict_facts.

(** ** The connectivity flattener *)












(** ** The structural validator: missing ports *)















(** ** Ports and signals *)

Lemma sorted_set_sorted l : Sorted String.le (sorted_set l) /\ NoDup (sorted_set l).
Proof.
  unfold sorted_set. split; [apply (Sorted_merge_sort _)|].
  rewrite merge_sort_Permutation. apply NoDup_remove_dups.
Qed.

Lemma elem_of_sorted_set l x : x ∈ sorted_set l <-> x ∈ l.
Proof.
  unfold sorted_set. by rewrite merge_sort_Permutation, elem_of_remove_dups.
Qed.

(** The result depends on the set of names only. *)
Lemma sorted_set_ext l l' :
  (forall x, x ∈ l <-> x ∈ l') -> sorted_set l = sorted_set l'.
Proof.
  intros H. apply (Sorted_unique String.le); try apply sorted_set_sorted.
  apply NoDup_Permutation; try apply sorted_set_sorted.
  intros x. by rewrite !elem_of_sorted_set.
Qed.

Lemma detect_ports_and_signals_sorted rtl_lines :
  sorted_unique (detect_ports_and_signals rtl_lines).1 /\
  sorted_unique (detect_ports_and_signals rtl_lines).2.
Proof. split; apply sorted_set_sorted. Qed.

Lemma analyze_file_modules system text name info :
  (name, info) ∈ modules (analyze_file system text) ->
  (name, info) ∈ modules system \/
  exists rtl_lines,
    info = mkModuleInfo (detect_ports_and_signals rtl_lines).1
                        (detect_ports_and_signals rtl_lines).2.
Proof.
  unfold analyze_file. cbv zeta.
  destruct (detect_ports_and_signals _) as [ps ss] eqn:E. simpl.
  intros [H|[= -> ->]]%dict_elem_of_set; [by left|].
  right. exists (rtl_lines_of (strip_comments text)).
  unfold detect_ports_and_signals in E. by injection E as <- <-.
Qed.

Lemma analyze_system_snoc files text :
  analyze_system (files ++ [text]) = analyze_file (analyze_system files) text.
Proof. unfold analyze_system. by rewrite foldl_snoc. Qed.

(** C10: the port list and the signal list of [detect_ports_and_signals]
    are sorted and duplicate-free, and depend only on the set of names
    found, not on their order or multiplicity; so are the lists stored
    for every module by [analyze_system]; declaration order is not
    kept. *)
Theorem ports_and_signals_sorted :
  (forall rtl_lines,
     sorted_unique (detect_ports_and_signals rtl_lines).1 /\
     sorted_unique (detect_ports_and_signals rtl_lines).2) /\
  (forall found found',
     (forall x, x ∈ found <-> x ∈ found') ->
     sorted_set found = sorted_set found') /\
  (forall files name info,
     (name, info) ∈ modules (analyze_system files) ->
     sorted_unique (ports info) /\ sorted_unique (signals info)) /\
  detect_ports_and_signals
    ["module m (input wire b, input wire a, input wire b);"; "reg z; reg y;"]
  = (["a"; "b"], ["a"; "b"; "y"; "z"]).
Proof.
  split; [apply detect_ports_and_signals_sorted|].
  split; [apply sorted_set_ext|]. split; [|by vm_compute].
  intros files. induction files as [|text files IH] using rev_ind.
  { intros name info H. by apply elem_of_nil in H. }
  intros name info. rewrite analyze_system_snoc.
  intros [H|(rtl_lines & ->)]%analyze_file_modules; [eauto|].
  apply detect_ports_and_signals_sorted.
Qed.

(** ** The structural validator: widths *)

Lemma elem_of_check_assignment decls lhs rhs m :
  m ∈ check_assignment decls (lhs, rhs) <->
  skipped rhs = false /\
  width_of decls lhs = WNum (lhs_width m) /\
  rhs_width_of decls rhs = WNum (rhs_width m) /\
  lhs_width m ≠ rhs_width m /\
  mm_lhs m = lhs /\ mm_rhs m = rhs.
Proof.
  unfold check_assignment. split.
  - destruct (skipped rhs); [by intros ?%elem_of_nil|].
    destruct (width_of decls lhs) as [lw|]; [|by intros ?%elem_of_nil].
    destruct (rhs_width_of decls rhs) as [rw|]; [|by intros ?%elem_of_nil].
    destruct (bool_decide (lw ≠ rw)) eqn:E; [|by intros ?%elem_of_nil].
    apply bool_decide_eq_true in E.
    by intros ->%list_elem_of_singleton.
  - intros (-> & -> & -> & Hne & <- & <-).
    rewrite bool_decide_eq_true_2 by done.
    destruct m. by apply list_elem_of_singleton.
Qed.

Lemma startswith_char a c s :
  Str.startswith (String c s) (String a EmptyString) = Ascii.eqb a c.
Proof.
  unfold Str.startswith. cbn [Str.strip_prefix]. by destruct (Ascii.eqb a c).
Qed.






(** ** The instance extractor *)

Lemma accumulate_until_close_index rtl_lines start :
  start < (accumulate_until_close rtl_lines start).2.
Proof.
  unfold accumulate_until_close. cbv zeta.
  destruct (rtl_lines !! _); simpl; lia.
Qed.

Lemma read_instance_index rtl_lines sub name start :
  start < (read_instance rtl_lines sub name start).2.
Proof.
  unfold read_instance.
  pose proof (accumulate_until_close_index rtl_lines start).
  by destruct (accumulate_until_close rtl_lines start).
Qed.

Lemma find_inst_line_index ls j name idx :
  find_inst_line ls j = Some (name, idx) -> j <= idx.
Proof.
  revert j; induction ls as [|raw ls IH]; intros j; simpl; [done|].
  destruct (Re.search closing_inst (strip_comments raw)) as [[n r]|].
  - intros [= _ <-]. lia.
  - intros H%IH. lia.
Qed.

(** Every iteration of the outer loop moves the index forward. *)
Lemma inst_step_index rtl_lines i : i < (inst_step rtl_lines i).2.
Proof.
  unfold inst_step. cbv zeta.
  destruct (inline_inst _) as [[sub name]|].
  { pose proof (read_instance_index rtl_lines sub name i).
    destruct (read_instance rtl_lines sub name i). simpl in *. lia. }
  destruct (params_start _) as [sub|]; [|simpl; lia].
  destruct (find_inst_line _ i) as [[name idx]|] eqn:E; [|simpl; lia].
  apply find_inst_line_index in E.
  pose proof (read_instance_index rtl_lines sub name idx).
  destruct (read_instance rtl_lines sub name idx). simpl in *. lia.
Qed.

(** The loop ends before its fuel does: any fuel that covers the
    remaining lines gives the same result. *)
Lemma instantiations_from_fuel rtl_lines fuel fuel' i :
  length rtl_lines <= i + fuel -> length rtl_lines <= i + fuel' ->
  instantiations_from fuel rtl_lines i = instantiations_from fuel' rtl_lines i.
Proof.
  revert fuel' i. induction fuel as [|fuel IH]; intros fuel' i H H'.
  - destruct fuel' as [|fuel']; [done|]. simpl.
    rewrite bool_decide_eq_false_2; [done|lia].
  - destruct fuel' as [|fuel']; simpl.
    + rewrite bool_decide_eq_false_2; [done|lia].
    + destruct (bool_decide (i < length rtl_lines)); [|done].
      pose proof (inst_step_index rtl_lines i).
      destruct (inst_step rtl_lines i) as [found i']. simpl in *.
      f_equal. apply IH; lia.
Qed.

(** ** The connectivity graph builder *)

Lemma detect_module_name_unknown rtl_lines :
  has_module_decl rtl_lines = false ->
  detect_module_name rtl_lines = "unknown_module".
Proof.
  induction rtl_lines as [|raw rest IH]; simpl; [done|].
  intros [H1 H2]%orb_false_iff. apply bool_decide_eq_false in H1.
  destruct (module_decl _) as [[name r]|]; [|auto].
  destruct H1. eauto.
Qed.

(** C9 (as stated, refuted): a file without a module declaration is
    analysed like any other; its signals and connections are recorded
    under the name [unknown_module], and nothing reports an error. *)
Lemma missing_module_not_an_error :
  let text := "wire x;
foo u1 (.a(x));" in
  has_module_decl (rtl_lines_of (strip_comments text)) = false /\
  analyze_system [text] =
    {| modules := [("unknown_module", {| ports := []; signals := ["x"] |})];
       connections :=
         [ {| parent_module := "unknown_module"; child_module := "foo";
              instance := "u1"; child_port := "a"; parent_signal := "x" |} ] |}.
Proof. by vm_compute. Qed.

(** C9 (amended): for a file in which no module declaration is found,
    [detect_module_name] returns the placeholder [unknown_module]; the
    file's ports, signals and connections are recorded under that name
    without an error; and the files before and after it are processed
    as usual. *)
Theorem missing_module_placeholder :
  (forall rtl_lines,
     has_module_decl rtl_lines = false ->
     detect_module_name rtl_lines = "unknown_module") /\
  (forall system text,
     let rtl_lines := rtl_lines_of (strip_comments text) in
     has_module_decl rtl_lines = false ->
     Dict.get "unknown_module" (modules (analyze_file system text)) =
       Some (mkModuleInfo (detect_ports_and_signals rtl_lines).1
                          (detect_ports_and_signals rtl_lines).2) /\
     connections (analyze_file system text) =
       connections system ++
       (inst ← detect_instantiations rtl_lines;
        connections_of_instance "unknown_module" inst)) /\
  (forall before text after,
     analyze_system (before ++ text :: after) =
     foldl analyze_file (analyze_file (analyze_system before) text) after).
Proof.
  split; [apply detect_module_name_unknown|]. split.
  - intros system text rtl_lines H. unfold analyze_file. fold rtl_lines.
    rewrite (detect_module_name_unknown _ H).
    destruct (detect_ports_and_signals rtl_lines) as [ps ss]. simpl.
    by rewrite dict_get_set_eq.
  - intros before text after. unfold analyze_system.
    by rewrite foldl_app.
Qed.

(** ** The value resolver *)

(** [first_header] returns the first header, in column order, that
    satisfies the test, with its index. *)
Lemma first_header_Some p headers k h i :
  first_header p headers k = Some (h, i) <->
  exists j,
    i = k + j /\ headers !! j = Some h /\ p h = true /\
    forall j' h', j' < j -> headers !! j' = Some h' -> p h' = false.
Proof.
  revert k. induction headers as [|h0 hs IH]; intros k; simpl.
  - split; [done|]. by intros (j & _ & ? & _).
  - destruct (p h0) eqn:E.
    + split.
      * intros [= <- <-]. exists 0. repeat split; [lia|done|]. intros; lia.
      * intros (j & -> & Hj & Hp & Hmin). destruct j as [|j].
        -- injection Hj as <-. f_equal. f_equal. lia.
        -- specialize (Hmin 0 h0). simpl in Hmin. rewrite Hmin in E; [done|lia|done].
    + rewrite IH. split.
      * intros (j & -> & Hj & Hp & Hmin). exists (S j).
        repeat split; [lia|done..|]. intros [|j'] h' ? Hj'; simpl in Hj'.
        -- by injection Hj' as <-.
        -- apply (Hmin j'); [lia|done].
      * intros (j & -> & Hj & Hp & Hmin). destruct j as [|j].
        -- injection Hj as <-. congruence.
        -- exists j. repeat split; [lia|done..|]. intros j' h' ? Hj'.
           apply (Hmin (S j')); [lia|done].
Qed.

Lemma first_header_None p headers k :
  first_header p headers k = None <-> forall h, h ∈ headers -> p h = false.
Proof.
  revert k. induction headers as [|h0 hs IH]; intros k; simpl.
  - split; [|done]. by intros _ h ?%elem_of_nil.
  - destruct (p h0) eqn:E.
    + split; [done|]. intros H. rewrite H in E; [done|apply list_elem_of_here].
    + rewrite IH. split.
      * intros H h [->|?]%elem_of_cons; auto.
      * intros H h ?. apply H. by apply list_elem_of_further.
Qed.

(** The candidates are tried in order: the result is that of the first
    candidate for which some strategy finds a header. *)
Lemma try_candidates_Some headers candidates r :
  try_candidates headers candidates = Some r <->
  exists tried connected_sig rest,
    candidates = tried ++ connected_sig :: rest /\
    Forall (fun c => try_candidate headers c = None) tried /\
    try_candidate headers connected_sig = Some r.
Proof.
  induction candidates as [|c cs IH]; simpl.
  - split; [done|]. intros (tried & c & rest & H & _).
    by destruct tried.
  - destruct (try_candidate headers c) as [r'|] eqn:E.
    + split.
      * intros [= ->]. exists [], c, cs. by repeat split.
      * intros ([|c' tried] & c2 & rest & H & Hall & Hc).
        -- injection H as -> ->. congruence.
        -- injection H as -> ->. apply Forall_cons in Hall as [Hc' _].
           congruence.
    + rewrite IH. split.
      * intros (tried & c2 & rest & -> & Hall & Hc).
        exists (c :: tried), c2, rest. repeat split; [|done]. by constructor.
      * intros ([|c' tried] & c2 & rest & H & Hall & Hc).
        -- injection H as -> ->. congruence.
        -- injection H as -> ->. apply Forall_cons in Hall as [_ Hall].
           eauto 6.
Qed.

(** The four strategies are tried in order for one candidate. *)
Lemma try_candidate_Some headers c r :
  try_candidate headers c = Some r <->
  strategy_exact c headers = Some r \/
  (strategy_exact c headers = None /\
   (strategy_normalized c headers = Some r \/
    (strategy_normalized c headers = None /\
     (strategy_last_component c headers = Some r \/
      (strategy_last_component c headers = None /\
       strategy_suffix c headers = Some r))))).
Proof.
  unfold try_candidate.
  destruct (strategy_exact c headers);
    [split; [by left|by intros [?|[? _]]]|].
  destruct (strategy_normalized c headers);
    [split; [by right; split; [|left]|by intros [?|[_ [?|[? _]]]]]|].
  destruct (strategy_last_component c headers).
  - split; [by right; split; [|right; split; [|left]]|].
    by intros [?|[_ [?|[_ [?|[? _]]]]]].
  - split; [by right; split; [|right; split; [|right]]|].
    by intros [?|[_ [?|[_ [?|[_ ?]]]]]].
Qed.

(** [startswith] and [endswith] are what their names say. *)
Lemma strip_prefix_spec pre s r :
  Str.strip_prefix pre s = Some r <-> s = pre +:+ r.
Proof.
  revert s. induction pre as [|a pre IH]; intros s; cbn [Str.strip_prefix].
  { change ("" +:+ r) with r. split; congruence. }
  destruct s as [|c s].
  { split; [done|]. by intros [=]. }
  change (String a pre +:+ r) with (String a (pre +:+ r)).
  destruct (Ascii.eqb_spec a c) as [->|Hne].
  - rewrite IH. split; congruence.
  - split; [done|]. congruence.
Qed.

Lemma startswith_spec s pre :
  Str.startswith s pre = true <-> exists r, s = pre +:+ r.
Proof.
  unfold Str.startswith. destruct (Str.strip_prefix pre s) as [r|] eqn:E.
  - apply strip_prefix_spec in E. split; [eauto|done].
  - split; [done|]. intros [r Hr%strip_prefix_spec]. congruence.
Qed.

Lemma string_app_assoc (a b c : string) : (a +:+ b) +:+ c = a +:+ b +:+ c.
Proof.
  induction a as [|x a IH]; [done|].
  change (String x a +:+ b) with (String x (a +:+ b)).
  change (String x (a +:+ b) +:+ c) with (String x ((a +:+ b) +:+ c)).
  by rewrite IH.
Qed.

Lemma string_app_nil_r (a : string) : a +:+ "" = a.
Proof.
  induction a as [|x a IH]; [done|].
  change (String x a +:+ "") with (String x (a +:+ "")). by rewrite IH.
Qed.

Lemma rev_app_spec s acc : String.rev_app s acc = String.rev s +:+ acc.
Proof.
  unfold String.rev. revert acc. induction s as [|c s IH]; intros acc; [done|].
  cbn [String.rev_app]. rewrite IH, (IH (String c "")).
  by rewrite string_app_assoc.
Qed.

Lemma rev_cons c s : String.rev (String c s) = String.rev s +:+ String c "".
Proof. unfold String.rev at 1. cbn [String.rev_app]. apply rev_app_spec. Qed.

Lemma rev_app_distr (a b : string) :
  String.rev (a +:+ b) = String.rev b +:+ String.rev a.
Proof.
  induction a as [|x a IH].
  - change ("" +:+ b) with b. change (String.rev "") with "".
    by rewrite string_app_nil_r.
  - change (String x a +:+ b) with (String x (a +:+ b)).
    by rewrite !rev_cons, IH, string_app_assoc.
Qed.

Lemma rev_involutive (s : string) : String.rev (String.rev s) = s.
Proof.
  induction s as [|c s IH]; [done|].
  by rewrite rev_cons, rev_app_distr, IH.
Qed.

Lemma endswith_spec s suf :
  Str.endswith s suf = true <-> exists pre, s = pre +:+ suf.
Proof.
  unfold Str.endswith. rewrite startswith_spec. split.
  - intros [r Hr]. exists (String.rev r).
    by rewrite <-(rev_involutive s), Hr, rev_app_distr, rev_involutive.
  - intros [pre ->]. exists (String.rev pre). apply rev_app_distr.
Qed.

Lemma first_header_first_match (p : string -> bool) (P : string -> Prop)
    headers h i :
  (forall h, p h = true <-> P h) ->
  first_header p headers 0 = Some (h, i) <-> first_match P headers h i.
Proof.
  intros HP. rewrite first_header_Some. unfold first_match. split.
  - intros (j & -> & Hj & Hp & Hmin). repeat split; [done|by apply HP|].
    intros j' h' ? Hj' HP'%HP. by rewrite (Hmin j' h') in HP'.
  - intros (Hi & Hp & Hmin). exists i. repeat split; [done|by apply HP|].
    intros j' h' ? Hj'. destruct (p h') eqn:E; [|done].
    destruct (Hmin j' h'); [done..|by apply HP].
Qed.

(** The value written for an empty target depends on the chosen header
    only. *)
Lemma resolve_value_empty conn_map signal_map row filled meta_sig :
  is_empty_value (direct_value signal_map row meta_sig) = true ->
  (resolve_value conn_map signal_map row filled meta_sig).1 =
  match find_connected_signal meta_sig (Dict.keys row) conn_map with
  | Some (name, _) =>
      if truthy name && negb (is_empty_value (default "" (Dict.get name row)))
      then default "" (Dict.get name row)
      else direct_value signal_map row meta_sig
  | None => direct_value signal_map row meta_sig
  end.
Proof.
  intros Hempty. unfold resolve_value. cbv zeta. rewrite Hempty.
  destruct (bool_decide (conn_map ≠ ∅)) eqn:E; simpl.
  - destruct (find_connected_signal _ _ _) as [[name i]|]; [|done].
    destruct (truthy name); [|done]. simpl.
    by destruct (is_empty_value (default "" (Dict.get name row))).
  - apply bool_decide_eq_false in E. apply dec_stable in E. subst conn_map.
    unfold find_connected_signal. by rewrite lookup_empty.
Qed.

Lemma resolve_value_direct conn_map signal_map row filled meta_sig :
  is_empty_value (direct_value signal_map row meta_sig) = false ->
  resolve_value conn_map signal_map row filled meta_sig =
  (direct_value signal_map row meta_sig, filled).
Proof. intros H. unfold resolve_value. cbv zeta. by rewrite H. Qed.

(** C2 (as stated, refuted): the target [T] is connected to the ports
    [a] and [b]; the column of [a] holds the empty marker and that of
    [b] holds 1. The first candidate that matches a header is an alias
    of [a], so the search stops there and the target stays empty,
    although a later candidate carries a value. The candidates are
    listed in one of the orders that [list(set(...))] may give. *)
Lemma first_match_hides_later_candidate :
  let conns := [ mkConnection "m" "mod_a" "u" "a" "T";
                 mkConnection "m" "mod_b" "v" "b" "T" ] in
  let conn_map := build_connection_map remove_dups (Some conns) in
  let row := [("time_ps", "0"); ("a", "-"); ("b", "1")] in
  conn_map !! "T" = Some ["u.a"; "a"; "v.b"; "b"] /\
  specified_resolution row ["u.a"; "a"; "v.b"; "b"] = Some "1" /\
  find_connected_signal "T" (Dict.keys row) conn_map = Some ("a", 1) /\
  build_table remove_dups [("T", "data")] [] [row] (Some conns) =
    Some ({| class_row := [""; "data"];
             header_row := ["time_ps"; "T"];
             data_rows := [[Some "0"; Some ""]] |}, []).
Proof. by vm_compute. Qed.

(** C2 (amended): for an empty target cell the candidates of the
    connection map are tried in order, and for each candidate the four
    strategies in order: exact header, equal normal forms, equal last
    components (the header's without array index, both lowercased),
    header ending in [.candidate] or [_candidate]. The first candidate
    for which a strategy finds a header decides: the header is the
    first one, in column order, that the first successful strategy
    accepts. Its value is copied into the target when it is not empty;
    otherwise the target keeps its value and no other candidate is
    tried. *)
Theorem candidate_search_order :
  (forall sig_name headers conn_map r,
     find_connected_signal sig_name headers conn_map = Some r <->
     exists tried connected_sig rest,
       conn_map !! sig_name = Some (tried ++ connected_sig :: rest) /\
       Forall (fun c => try_candidate headers c = None) tried /\
       try_candidate headers connected_sig = Some r) /\
  (forall headers c r,
     try_candidate headers c = Some r <->
     strategy_exact c headers = Some r \/
     (strategy_exact c headers = None /\
      (strategy_normalized c headers = Some r \/
       (strategy_normalized c headers = None /\
        (strategy_last_component c headers = Some r \/
         (strategy_last_component c headers = None /\
          strategy_suffix c headers = Some r)))))) /\
  (forall c headers h i,
     (strategy_exact c headers = Some (h, i) <->
      first_match (fun h => h = c) headers h i) /\
     (strategy_normalized c headers = Some (h, i) <->
      first_match (fun h => normalize h = normalize c) headers h i) /\
     (strategy_last_component c headers = Some (h, i) <->
      first_match
        (fun h => Str.lower (sub_index (Str.after_last "." h)) =
                  Str.lower (Str.after_last "." c))
        headers h i) /\
     (strategy_suffix c headers = Some (h, i) <->
      first_match
        (fun h => exists pre, h = pre +:+ "." +:+ c \/ h = pre +:+ "_" +:+ c)
        headers h i)) /\
  (forall conn_map signal_map row filled meta_sig,
     is_empty_value (direct_value signal_map row meta_sig) = true ->
     (resolve_value conn_map signal_map row filled meta_sig).1 =
     match find_connected_signal meta_sig (Dict.keys row) conn_map with
     | Some (name, _) =>
         if truthy name && negb (is_empty_value (default "" (Dict.get name row)))
         then default "" (Dict.get name row)
         else direct_value signal_map row meta_sig
     | None => direct_value signal_map row meta_sig
     end).
Proof.
  split; [|split; [apply try_candidate_Some|split; [|apply resolve_value_empty]]].
  - intros sig_name headers conn_map r. unfold find_connected_signal.
    destruct (conn_map !! sig_name) as [candidates|].
    + rewrite try_candidates_Some. split.
      * intros (tried & c & rest & -> & ? & ?). eauto 6.
      * intros (tried & c & rest & [= ->] & ? & ?). eauto 6.
    + split; [done|]. by intros (? & ? & ? & ? & _).
  - intros c headers h i. split; [|split; [|split]].
    + apply first_header_first_match. intros h'. apply bool_decide_eq_true.
    + apply first_header_first_match. intros h'. apply bool_decide_eq_true.
    + apply first_header_first_match. intros h'. apply bool_decide_eq_true.
    + apply first_header_first_match. intros h'.
      rewrite orb_true_iff, !endswith_spec. split.
      * intros [[pre ->]|[pre ->]]; exists pre; auto.
      * intros [pre [-> | ->]]; eauto.
Qed.

(** ** The table assembler *)

Section table_facts.

Variables (conn_map : gmap string (list string)) (signal_map : Dict.t string).
Variables (clock_column : option string) (row : Row).

Lemma resolve_value_filled filled meta_sig :
  (resolve_value conn_map signal_map row filled meta_sig).1 =
  resolved_value conn_map signal_map row meta_sig.
Proof.
  unfold resolved_value, resolve_value. cbv zeta.
  destruct (_ && _); [|done].
  destruct (find_connected_signal _ _ _) as [[name i]|]; [|done].
  destruct (truthy name); [|done]. by destruct (negb _).
Qed.

Lemma fill_signal_get state meta_sig m :
  Dict.get m (fill_signal conn_map signal_map clock_column row state meta_sig).1 =
  if bool_decide (meta_sig = m) && negb (bool_decide (Some meta_sig = clock_column))
  then Some (resolved_value conn_map signal_map row m)
  else Dict.get m state.1.
Proof.
  destruct state as [e filled]. unfold fill_signal.
  destruct (bool_decide (Some meta_sig = clock_column)); simpl.
  { by rewrite andb_false_r. }
  rewrite andb_true_r.
  pose proof (resolve_value_filled filled meta_sig) as Hv.
  destruct (resolve_value _ _ _ filled meta_sig) as [v f]. simpl in *.
  destruct (decide (meta_sig = m)) as [->|Hne].
  - by rewrite bool_decide_eq_true_2, dict_get_set_eq, Hv.
  - by rewrite bool_decide_eq_false_2, dict_get_set_ne.
Qed.

Lemma fill_signals_get_go ks state m :
  Dict.get m (foldl (fill_signal conn_map signal_map clock_column row) state ks).1 =
  if bool_decide (m ∈ ks) && negb (bool_decide (Some m = clock_column))
  then Some (resolved_value conn_map signal_map row m)
  else Dict.get m state.1.
Proof.
  revert state. induction ks as [|k ks IH]; intros state; cbn [foldl].
  { rewrite bool_decide_eq_false_2; [done|]. by intros ?%elem_of_nil. }
  rewrite IH, fill_signal_get.
  destruct (decide (k = m)) as [->|Hne].
  - rewrite (bool_decide_eq_true_2 (m = m)) by done.
    rewrite (bool_decide_eq_true_2 (m ∈ m :: ks)) by apply list_elem_of_here.
    simpl. by destruct (bool_decide (m ∈ ks)), (negb _).
  - rewrite (bool_decide_eq_false_2 (k = m)) by done. simpl.
    destruct (bool_decide (m ∈ ks)) eqn:E.
    + apply bool_decide_eq_true in E.
      rewrite (bool_decide_eq_true_2 (m ∈ k :: ks)); [done|].
      by apply list_elem_of_further.
    + apply bool_decide_eq_false in E.
      rewrite (bool_decide_eq_false_2 (m ∈ k :: ks)); [done|].
      by intros [?|?]%elem_of_cons.
Qed.

Lemma fill_signal_keys state meta_sig k :
  k ∈ Dict.keys (fill_signal conn_map signal_map clock_column row state meta_sig).1 ->
  k ∈ Dict.keys state.1 \/ (k = meta_sig /\ Some meta_sig ≠ clock_column).
Proof.
  destruct state as [e filled]. unfold fill_signal.
  destruct (bool_decide (Some meta_sig = clock_column)) eqn:E; simpl; [auto|].
  apply bool_decide_eq_false in E.
  destruct (resolve_value _ _ _ filled meta_sig) as [v f]. simpl.
  rewrite dict_keys_set. destruct (bool_decide _); [auto|].
  rewrite elem_of_app, list_elem_of_singleton. intros [?| ->]; auto.
Qed.

Lemma fill_signals_keys_go ks state k :
  k ∈ Dict.keys (foldl (fill_signal conn_map signal_map clock_column row) state ks).1 ->
  k ∈ Dict.keys state.1 \/ (k ∈ ks /\ Some k ≠ clock_column).
Proof.
  revert state. induction ks as [|k' ks IH]; intros state; cbn [foldl]; [auto|].
  intros [[?|[-> ?]]%fill_signal_keys|[? ?]]%IH; [auto|right..].
  - split; [apply list_elem_of_here|done].
  - split; [by apply list_elem_of_further|done].
Qed.

End table_facts.

Lemma foldl_invariant {A B} (P : A -> Prop) (f : A -> B -> A) (l : list B) a :
  P a -> (forall a x, P a -> x ∈ l -> P (f a x)) -> P (foldl f a l).
Proof.
  revert a. induction l as [|x l IH]; intros a Ha Hf; simpl; [done|].
  apply IH.
  - apply Hf; [done|apply list_elem_of_here].
  - intros a' y ? ?. apply Hf; [done|]. by apply list_elem_of_further.
Qed.

(** Every value of [meta_norm] is a key of the metadata map. *)
Lemma build_meta_norm_values metadata_map n m :
  build_meta_norm metadata_map !! n = Some m -> m ∈ Dict.keys metadata_map.
Proof.
  unfold build_meta_norm. revert n m.
  apply (foldl_invariant
           (fun mn : gmap string string => forall n m,
              mn !! n = Some m -> m ∈ Dict.keys metadata_map)).
  - intros n m. by rewrite lookup_empty.
  - intros mn k IH Hk n m. rewrite !lookup_insert.
    repeat case_decide; [by intros [= <-]..|]. apply IH.
Qed.

Lemma match_one_value metadata_map wf_sig m :
  match_one (build_meta_norm metadata_map) wf_sig = Some m ->
  m ∈ Dict.keys metadata_map.
Proof.
  unfold match_one. cbv zeta.
  destruct (_ !! normalize wf_sig) as [m1|] eqn:E1.
  { intros [= <-]. by eapply build_meta_norm_values. }
  destruct (_ !! Str.lower _) as [m2|] eqn:E2.
  { intros [= <-]. by eapply build_meta_norm_values. }
  destruct (Str.contains _ _); [|done].
  destruct (bool_decide _); [|done].
  apply build_meta_norm_values.
Qed.

(** Every matched signal is a key of the metadata map. *)
Lemma match_waveform_signals_values waveform_row metadata_map k m :
  (k, m) ∈ match_waveform_signals waveform_row metadata_map ->
  m ∈ Dict.keys metadata_map.
Proof.
  unfold match_waveform_signals. cbv zeta. revert k m.
  apply (foldl_invariant
           (fun mapping : Dict.t string => forall k m,
              (k, m) ∈ mapping -> m ∈ Dict.keys metadata_map)).
  - intros k m H. by apply elem_of_nil in H.
  - intros mapping wf IH _ k m.
    destruct (match_one _ wf) as [m'|] eqn:E; [|apply IH].
    intros [H|[= -> ->]]%dict_elem_of_set; [by eapply IH|].
    by eapply match_one_value.
Qed.

Lemma find_clock_column_key waveform_row metadata_map clock_signals c :
  find_clock_column (match_waveform_signals waveform_row metadata_map)
                    clock_signals = Some c ->
  c ∈ Dict.keys metadata_map.
Proof.
  unfold find_clock_column.
  destruct (List.find _ _) as [[k m]|] eqn:E; [|done].
  intros [= <-]. apply find_some in E as [Hin _].
  apply list_elem_of_In in Hin. by eapply match_waveform_signals_values.
Qed.

Lemma find_time_col_prefix row t :
  find_time_col row = Some t ->
  t ∈ Dict.keys row /\ Str.startswith t "time_" = true.
Proof.
  unfold find_time_col. intros [Hin ?]%find_some.
  by apply list_elem_of_In in Hin.
Qed.

Lemma time_col_truthy t : Str.startswith t "time_" = true -> t ≠ "".
Proof. by intros H ->. Qed.

Section row_facts.

Variables (conn_map : gmap string (list string)) (metadata_map : Metadata).
Variables (signal_map : Dict.t string) (clock_column : option string).

Lemma build_row_Some row filled time_col e filled' :
  build_row conn_map metadata_map signal_map clock_column row filled
  = Some (time_col, e, filled') ->
  find_time_col row = Some time_col /\
  e = (fill_signals conn_map metadata_map signal_map clock_column row
         (initial_row signal_map clock_column row time_col) filled).1.
Proof.
  unfold build_row. destruct (find_time_col row) as [t|]; [|done]. simpl.
  destruct (fill_signals _ _ _ _ _ _ _) as [e' f'] eqn:E.
  intros [= -> -> ->]. by rewrite E.
Qed.

(** A metadata signal other than the clock column holds its resolved
    value. *)
Lemma row_built_signal row e m :
  row_built conn_map metadata_map signal_map clock_column row e ->
  m ∈ Dict.keys metadata_map -> Some m ≠ clock_column ->
  Dict.get m e = Some (resolved_value conn_map signal_map row m).
Proof.
  intros (t & f & f' & [_ ->]%build_row_Some) Hm Hc.
  unfold fill_signals. rewrite fill_signals_get_go.
  rewrite (bool_decide_eq_true_2 (m ∈ _)) by done.
  by rewrite (bool_decide_eq_false_2 (Some m = _)) by done.
Qed.

(** The clock column holds the value of its waveform column as it is. *)
Lemma row_built_clock row e c :
  row_built conn_map metadata_map signal_map clock_column row e ->
  clock_column = Some c -> truthy c = true ->
  Dict.get c e = Some (row_get row (wf_sig_of signal_map c)).
Proof.
  intros (t & f & f' & [_ ->]%build_row_Some) -> Hc.
  unfold fill_signals. rewrite fill_signals_get_go.
  rewrite (bool_decide_eq_true_2 (Some c = Some c)), andb_false_r by done.
  unfold initial_row. rewrite Hc. cbn [fst]. apply dict_get_set_eq.
Qed.

Lemma row_built_keys row e k :
  row_built conn_map metadata_map signal_map clock_column row e ->
  k ∈ Dict.keys e ->
  Str.startswith k "time_" = true \/
  (clock_column = Some k /\ truthy k = true) \/
  (k ∈ Dict.keys metadata_map /\ Some k ≠ clock_column).
Proof.
  intros (t & f & f' & [[_ Ht]%find_time_col_prefix ->]%build_row_Some).
  unfold fill_signals. intros [Hk|Hk]%fill_signals_keys_go; [|auto].
  cbn [fst] in Hk. unfold initial_row in Hk.
  assert (k ∈ [t] -> Str.startswith k "time_" = true) as Ht'
    by (by intros ->%list_elem_of_singleton).
  destruct clock_column as [c|]; [|auto].
  destruct (truthy c) eqn:Hc; [|auto].
  rewrite dict_keys_set in Hk. destruct (bool_decide _); [auto|].
  apply elem_of_app in Hk as [?| ->%list_elem_of_singleton]; auto.
Qed.

Lemma build_rows_Some waveform time_col rows filled time_col' rows' filled' :
  build_rows conn_map metadata_map signal_map clock_column waveform
             time_col rows filled = Some (time_col', rows', filled') ->
  exists new,
    rows' = rows ++ new /\
    Forall2 (row_built conn_map metadata_map signal_map clock_column)
            waveform new /\
    time_col' = match last waveform with
                | Some row => find_time_col row
                | None => time_col
                end.
Proof.
  revert time_col rows filled.
  induction waveform as [|row waveform IH]; intros tc rows filled; simpl.
  { intros [= <- <- <-]. exists []. by rewrite app_nil_r. }
  destruct (build_row _ _ _ _ row filled) as [[[t e] f]|] eqn:E; [|done].
  simpl. intros (new & -> & Hall & ->)%IH.
  exists (e :: new). rewrite <-(assoc (++)). split; [done|]. split.
  - constructor; [|done]. by exists t, filled, f.
  - rewrite last_cons. destruct (last waveform); [done|].
    by apply build_row_Some in E as [-> _].
Qed.

End row_facts.

Lemma add_columns_elem_of (ks cols : list string) x :
  x ∈ foldl (fun cols k => if bool_decide (k ∈ cols) then cols else cols ++ [k])
            cols ks ->
  x ∈ cols \/ x ∈ ks.
Proof.
  revert cols. induction ks as [|k ks IH]; intros cols; cbn [foldl]; [auto|].
  intros [H|H]%IH; [|right; by apply list_elem_of_further].
  destruct (bool_decide (k ∈ cols)); [auto|].
  apply elem_of_app in H as [?| ->%list_elem_of_singleton]; [auto|].
  right. apply list_elem_of_here.
Qed.

Lemma df_columns_elem_of rows x :
  x ∈ df_columns rows -> exists e, e ∈ rows /\ x ∈ Dict.keys e.
Proof.
  unfold df_columns.
  assert (forall cols,
    x ∈ foldl (fun cols e =>
         foldl (fun cols k => if bool_decide (k ∈ cols) then cols else cols ++ [k])
               cols (Dict.keys e)) cols rows ->
    x ∈ cols \/ exists e, e ∈ rows /\ x ∈ Dict.keys e) as H.
  { induction rows as [|e rows IH]; intros cols; cbn [foldl]; [auto|].
    intros [[?|?]%add_columns_elem_of|(e' & ? & ?)]%IH; [auto|right..].
    - exists e. split; [apply list_elem_of_here|done].
    - exists e'. split; [by apply list_elem_of_further|done]. }
  intros [?%elem_of_nil|?]%H; done.
Qed.

Lemma df_select_Some rows ordered values :
  df_select rows ordered = Some values ->
  values = (fun e => (fun c => Dict.get c e) <$> ordered) <$> rows /\
  forall c, c ∈ ordered -> c ∈ df_columns rows.
Proof.
  unfold df_select. destruct (forallb _ ordered) eqn:E; [|done].
  intros [= <-]. split; [done|]. intros c Hc.
  rewrite forallb_forall in E. apply list_elem_of_In in Hc.
  by apply E, bool_decide_eq_true in Hc.
Qed.

Section table_shape.

Variable enum : list string -> list string.
Variables (metadata_map : Metadata) (clock_signals : list string).
Variables (waveform : list Row) (connectivity : option (list Connection)).

(** What a successful run of [build_table] went through. *)
Lemma build_table_Some t filled :
  build_table enum metadata_map clock_signals waveform connectivity
  = Some (t, filled) ->
  exists row0 last_row time_col rows,
    head waveform = Some row0 /\ last waveform = Some last_row /\
    find_time_col last_row = Some time_col /\
    let signal_map := match_waveform_signals row0 metadata_map in
    let conn_map := build_connection_map enum connectivity in
    let clock_column := find_clock_column signal_map clock_signals in
    let ordered := column_order time_col clock_column metadata_map in
    Forall2 (row_built conn_map metadata_map signal_map clock_column)
            waveform rows /\
    (forall c, c ∈ ordered -> c ∈ df_columns rows) /\
    t = mkTable (class_of time_col clock_column metadata_map <$> ordered)
                ordered
                ((fun e => (fun c => Dict.get c e) <$> ordered) <$> rows).
Proof.
  unfold build_table.
  destruct (head waveform) as [row0|] eqn:Hhead; [|done]. cbn [mbind option_bind].
  destruct (build_rows _ _ _ _ _ _ _ _) as [[[tc rows] f]|] eqn:Hrows; [|done].
  cbn [mbind option_bind].
  destruct tc as [time_col|]; [|done]. cbn [mbind option_bind].
  destruct (df_select _ _) as [values|] eqn:Hsel; [|done].
  cbn [mbind option_bind]. intros [= <- <-].
  apply build_rows_Some in Hrows as (new & -> & Hall & Htc).
  apply df_select_Some in Hsel as [-> Hcols].
  destruct (last waveform) as [last_row|] eqn:Hlast; [|done].
  exists row0, last_row, time_col, new. by repeat split.
Qed.

(** A table is only written when the clock column, if there is one,
    has a non-empty name: otherwise the unnamed signal is skipped in
    every row and then missing among the columns. *)
Lemma build_table_clock_truthy t filled row0 c :
  build_table enum metadata_map clock_signals waveform connectivity
  = Some (t, filled) ->
  head waveform = Some row0 ->
  find_clock_column (match_waveform_signals row0 metadata_map) clock_signals
  = Some c ->
  truthy c = true.
Proof.
  intros (row0' & last_row & time_col & rows & Hhead & Hlast & Htime
          & Hrows & Hcols & _)%build_table_Some Hhead' Hclock.
  rewrite Hhead in Hhead'. injection Hhead' as ->.
  cbv zeta in Hrows, Hcols. rewrite Hclock in Hrows, Hcols.
  destruct (truthy c) eqn:Hc; [done|]. exfalso.
  assert (c = "") as ->.
  { unfold truthy in Hc. apply negb_false_iff in Hc.
    by apply String.eqb_eq in Hc. }
  apply find_time_col_prefix in Htime as [_ Htime].
  assert ("" ∈ df_columns rows) as (e & He & Hk)%df_columns_elem_of.
  { apply Hcols. unfold column_order, clock_truthy. rewrite Hc.
    apply elem_of_app. right. apply list_elem_of_In, filter_In. split.
    - apply list_elem_of_In. by eapply find_clock_column_key.
    - apply negb_true_iff, bool_decide_eq_false.
      intros <-%list_elem_of_singleton. done. }
  apply list_elem_of_lookup in He as [i He].
  destruct (Forall2_lookup_r _ _ _ _ _ Hrows He) as (row & _ & Hbuilt).
  destruct (row_built_keys _ _ _ _ _ _ _ Hbuilt Hk)
    as [?|[[_ ?]|[_ ?]]]; done.
Qed.

End table_shape.

(** C7: in an emitted table the header row is the detected time
    column, then the clock column when there is one, then the remaining
    signals of the metadata map in its order; the classification row
    holds the empty string under the time column, [clock] under the
    clock column and the metadata label (or [other]) under every other
    column; and the classification row, the header row and every data
    row have the same length, with one data row per sampled row. *)
Theorem table_shape_and_order
    (enum : list string -> list string)
    (metadata_map : Metadata) (clock_signals : list string)
    (waveform : list Row) (connectivity : option (list Connection))
    (t : Table) (filled : Filled) :
  build_table enum metadata_map clock_signals waveform connectivity
  = Some (t, filled) ->
  exists row0 last_row time_col,
    head waveform = Some row0 /\ last waveform = Some last_row /\
    find_time_col last_row = Some time_col /\
    let clock_column :=
      find_clock_column (match_waveform_signals row0 metadata_map)
                        clock_signals in
    let first := time_col :: option_list clock_column in
    header_row t =
      first ++ List.filter (fun s => negb (bool_decide (s ∈ first)))
                           (Dict.keys metadata_map) /\
    (forall i col,
       header_row t !! i = Some col ->
       class_row t !! i =
       Some (if decide (col = time_col) then ""
             else if decide (Some col = clock_column) then "clock"
             else default "other" (Dict.get col metadata_map))) /\
    length (class_row t) = length (header_row t) /\
    length (data_rows t) = length waveform /\
    Forall (fun r => length r = length (header_row t)) (data_rows t).
Proof.
  intros Hbuild.
  destruct (build_table_Some _ _ _ _ _ _ _ Hbuild)
    as (row0 & last_row & time_col & rows & Hhead & Hlast & Htime
        & Hrows & _ & ->).
  exists row0, last_row, time_col. do 3 (split; [done|]).
  cbv zeta. cbn [header_row class_row data_rows].
  split; [|split; [|split; [|split]]].
  - unfold column_order, clock_truthy.
    destruct (find_clock_column _ _) as [c|] eqn:Hclock; [|done].
    by rewrite (build_table_clock_truthy _ _ _ _ _ _ _ _ _ Hbuild Hhead Hclock).
  - intros i col Hi. rewrite list_lookup_fmap, Hi. simpl. f_equal.
    unfold class_of. by repeat case_bool_decide; repeat case_decide.
  - by rewrite length_fmap.
  - rewrite length_fmap. symmetry. by eapply Forall2_length.
  - apply Forall_fmap, Forall_forall. intros e _. simpl.
    by rewrite length_fmap.
Qed.

(** The example table is the one that [build_table] emits. *)
Lemma example_table_built :
  build_table remove_dups example_metadata ["clk"] example_waveform
              (Some [uart_connection])
  = Some (example_table, [("uart_busy", "soc_tb.dut.u_uart.tx_busy")]).
Proof. by vm_compute. Qed.

(** The shape and order statement at the example table. *)
Lemma table_shape_and_order_witness :
  exists row0 last_row time_col,
    head example_waveform = Some row0 /\
    last example_waveform = Some last_row /\
    find_time_col last_row = Some time_col /\
    let clock_column :=
      find_clock_column (match_waveform_signals row0 example_metadata)
                        ["clk"] in
    let first := time_col :: option_list clock_column in
    header_row example_table =
      first ++ List.filter (fun s => negb (bool_decide (s ∈ first)))
                           (Dict.keys example_metadata) /\
    (forall i col,
       header_row example_table !! i = Some col ->
       class_row example_table !! i =
       Some (if decide (col = time_col) then ""
             else if decide (Some col = clock_column) then "clock"
             else default "other" (Dict.get col example_metadata))) /\
    length (class_row example_table) = length (header_row example_table) /\
    length (data_rows example_table) = length example_waveform /\
    Forall (fun r => length r = length (header_row example_table))
           (data_rows example_table).
Proof.
  apply (table_shape_and_order remove_dups example_metadata ["clk"]
           example_waveform (Some [uart_connection]) example_table
           [("uart_busy", "soc_tb.dut.u_uart.tx_busy")]).
  vm_compute. reflexivity.
Defined.

(** ** Value resolution in the table *)

Lemma is_empty_value_spec val :
  is_empty_value val = true <->
  Str.strip val = "" \/ Str.strip val = "-" \/ Str.strip val = "?".
Proof.
  unfold is_empty_value, truthy. cbv zeta.
  rewrite orb_true_iff, negb_true_iff, negb_false_iff, String.eqb_eq,
    bool_decide_eq_true, !elem_of_cons, elem_of_nil.
  tauto.
Qed.

(** The cells of an emitted table, column by column. *)
Lemma build_table_cells enum metadata_map clock_signals waveform connectivity
    t filled :
  build_table enum metadata_map clock_signals waveform connectivity
  = Some (t, filled) ->
  exists row0,
    head waveform = Some row0 /\
    let signal_map := match_waveform_signals row0 metadata_map in
    let conn_map := build_connection_map enum connectivity in
    let clock_column := find_clock_column signal_map clock_signals in
    forall i row j col,
      waveform !! i = Some row -> header_row t !! j = Some col ->
      exists cells,
        data_rows t !! i = Some cells /\
        (col ∈ Dict.keys metadata_map -> Some col ≠ clock_column ->
         cells !! j = Some (Some (resolve_value conn_map signal_map row [] col).1)) /\
        (Some col = clock_column ->
         cells !! j = Some (Some (row_get row (wf_sig_of signal_map col)))).
Proof.
  intros Hbuild.
  destruct (build_table_Some _ _ _ _ _ _ _ Hbuild)
    as (row0 & last_row & time_col & rows & Hhead & Hlast & Htime
        & Hrows & _ & ->).
  exists row0. split; [done|]. cbv zeta in *.
  cbn [header_row data_rows]. intros i row j col Hi Hj.
  destruct (Forall2_lookup_l _ _ _ _ _ Hrows Hi) as (e & He & Hbuilt).
  eexists. rewrite list_lookup_fmap, He. split; [done|].
  rewrite list_lookup_fmap, Hj. simpl. split.
  - intros Hcol Hclock. do 2 f_equal.
    by apply (row_built_signal _ _ _ _ _ _ _ Hbuilt).
  - intros Hclock. do 2 f_equal. symmetry in Hclock.
    apply (row_built_clock _ _ _ _ _ _ _ Hbuilt Hclock).
    by apply (build_table_clock_truthy _ _ _ _ _ _ _ _ _ Hbuild Hhead).
Qed.

(** C1 (as stated, refuted): the clock column is a metadata signal too.
    Its waveform value is the empty marker in this row while the
    connected port [u_core.clk_i] carries 1, yet the table keeps the
    marker: the clock column is never resolved through the connection
    map. Both enumerations of the two candidates choose the same
    header. *)
Lemma clock_column_never_resolved :
  let conns := [mkConnection "top" "core" "u_core" "clk_i" "clk"] in
  let row := [("time_ps", "0"); ("clk", "-"); ("u_core.clk_i", "1")] in
  is_empty_value "-" = true /\
  try_candidates (Dict.keys row) ["clk_i"; "u_core.clk_i"]
    = Some ("u_core.clk_i", 2) /\
  try_candidates (Dict.keys row) ["u_core.clk_i"; "clk_i"]
    = Some ("u_core.clk_i", 2) /\
  build_connection_map remove_dups (Some conns) !! "clk"
    = Some ["u_core.clk_i"; "clk_i"] /\
  build_table remove_dups [("clk", "clock")] ["clk"] [row] (Some conns) =
    Some ({| class_row := [""; "clock"];
             header_row := ["time_ps"; "clk"];
             data_rows := [[Some "0"; Some "-"]] |}, []).
Proof. by vm_compute. Qed.

(** C1 (amended): for every sampled row and every metadata signal other
    than the clock column, the connection map decides the value exactly
    when the directly matched value is empty (empty after trimming, [-]
    or [?]); [x] and [z] are not empty. A value that is not empty is
    written as it is. For an empty target whose chosen alternate has a
    non-empty header name and carries a non-empty value, [x] included,
    that value is written. Otherwise the target keeps its value, which is
    empty. The clock column holds the value of its own waveform column,
    without fallback. *)
Theorem value_resolution_trigger :
  (forall val,
     is_empty_value val = true <->
     Str.strip val = "" \/ Str.strip val = "-" \/ Str.strip val = "?") /\
  is_empty_value "x" = false /\ is_empty_value "z" = false /\
  (forall conn_map signal_map row filled meta_sig,
     let direct := direct_value signal_map row meta_sig in
     let chosen := find_connected_signal meta_sig (Dict.keys row) conn_map in
     let result := resolve_value conn_map signal_map row filled meta_sig in
     (is_empty_value direct = false -> result = (direct, filled)) /\
     (forall name i v,
        is_empty_value direct = true ->
        chosen = Some (name, i) -> name ≠ "" ->
        Dict.get name row = Some v -> is_empty_value v = false ->
        result.1 = v) /\
     (forall name i,
        is_empty_value direct = true ->
        chosen = Some (name, i) -> name ≠ "" ->
        Dict.get name row = Some "x" ->
        result.1 = "x") /\
     (is_empty_value direct = true ->
      (chosen = None \/
       exists name i,
         chosen = Some (name, i) /\
         is_empty_value (default "" (Dict.get name row)) = true) ->
      result = (direct, filled)) /\
     (is_empty_value result.1 = true -> is_empty_value direct = true)) /\
  (forall enum metadata_map clock_signals waveform connectivity t filled,
     build_table enum metadata_map clock_signals waveform connectivity
     = Some (t, filled) ->
     exists row0,
       head waveform = Some row0 /\
       let signal_map := match_waveform_signals row0 metadata_map in
       let conn_map := build_connection_map enum connectivity in
       let clock_column := find_clock_column signal_map clock_signals in
       forall i row j col,
         waveform !! i = Some row -> header_row t !! j = Some col ->
         exists cells,
           data_rows t !! i = Some cells /\
           (col ∈ Dict.keys metadata_map -> Some col ≠ clock_column ->
            cells !! j =
              Some (Some (resolve_value conn_map signal_map row [] col).1)) /\
           (Some col = clock_column ->
            cells !! j = Some (Some (row_get row (wf_sig_of signal_map col))))).
Proof.
  split; [apply is_empty_value_spec|].
  split; [done|]. split; [done|]. split; [|apply build_table_cells].
  intros conn_map signal_map row filled meta_sig direct chosen result.
  assert (forall name i v,
    is_empty_value direct = true -> chosen = Some (name, i) -> name ≠ "" ->
    Dict.get name row = Some v -> is_empty_value v = false -> result.1 = v)
    as Hcopy.
  { intros name i v Hd Hch Hname Hv Hne. subst result.
    rewrite resolve_value_empty by done. fold chosen. rewrite Hch, Hv. simpl.
    rewrite Hne. unfold truthy.
    by rewrite (proj2 (String.eqb_neq name "") Hname). }
  split; [apply resolve_value_direct|]. split; [done|].
  split; [intros name i Hd Hch Hname Hv; by eapply Hcopy|]. split.
  - intros Hd Hch. subst result. unfold resolve_value. fold direct.
    cbv zeta. rewrite Hd. destruct (bool_decide (conn_map ≠ ∅)); [|done].
    simpl. fold chosen. destruct Hch as [->|(name & i & -> & He)]; [done|].
    destruct (truthy name); [|done]. unfold row_get. by rewrite He.
  - destruct (is_empty_value direct) eqn:Hd; [done|].
    subst result. rewrite resolve_value_direct by done. cbn [fst].
    fold direct. by rewrite Hd.
Qed.

(** ** When a table is emitted *)

Lemma dict_get_Some_key {V} k (v : V) (d : Dict.t V) :
  Dict.get k d = Some v -> k ∈ Dict.keys d.
Proof.
  intros H. destruct (decide (k ∈ Dict.keys d)) as [|Hk]; [done|].
  apply dict_get_None in Hk. congruence.
Qed.

Lemma add_columns_mono (ks cols : list string) x :
  x ∈ cols ->
  x ∈ foldl (fun cols k => if bool_decide (k ∈ cols) then cols else cols ++ [k])
            cols ks.
Proof.
  revert cols. induction ks as [|k ks IH]; intros cols Hx; cbn [foldl]; [done|].
  apply IH. destruct (bool_decide (k ∈ cols)); [done|].
  apply elem_of_app. by left.
Qed.

Lemma add_columns_complete (ks cols : list string) x :
  x ∈ ks ->
  x ∈ foldl (fun cols k => if bool_decide (k ∈ cols) then cols else cols ++ [k])
            cols ks.
Proof.
  revert cols. induction ks as [|k ks IH]; intros cols; cbn [foldl].
  { by intros ?%elem_of_nil. }
  intros [->|?]%elem_of_cons; [|by apply IH].
  apply add_columns_mono. destruct (bool_decide (k ∈ cols)) eqn:E.
  - by apply bool_decide_eq_true in E.
  - apply elem_of_app. right. apply list_elem_of_here.
Qed.

Lemma add_rows_mono (rows : list Row) (cols : list string) x :
  x ∈ cols ->
  x ∈ foldl (fun cols e =>
       foldl (fun cols k => if bool_decide (k ∈ cols) then cols else cols ++ [k])
             cols (Dict.keys e)) cols rows.
Proof.
  revert cols. induction rows as [|e rows IH]; intros cols ?; cbn [foldl];
    [done|].
  by apply IH, add_columns_mono.
Qed.

Lemma df_columns_complete rows e x :
  e ∈ rows -> x ∈ Dict.keys e -> x ∈ df_columns rows.
Proof.
  unfold df_columns. intros He Hx.
  assert (forall cols,
    x ∈ foldl (fun cols e =>
         foldl (fun cols k => if bool_decide (k ∈ cols) then cols else cols ++ [k])
               cols (Dict.keys e)) cols rows) as H; [|apply H].
  induction rows as [|e' rows IH]; intros cols; cbn [foldl].
  { by apply elem_of_nil in He. }
  apply elem_of_cons in He as [->|He]; [|by apply IH].
  by apply add_rows_mono, add_columns_complete.
Qed.

Section emission.

Variables (conn_map : gmap string (list string)) (metadata_map : Metadata).
Variables (signal_map : Dict.t string) (clock_column : option string).

Lemma build_rows_total waveform time_col rows filled :
  Forall (fun row => is_Some (find_time_col row)) waveform ->
  is_Some (build_rows conn_map metadata_map signal_map clock_column waveform
                      time_col rows filled).
Proof.
  revert time_col rows filled.
  induction waveform as [|row waveform IH]; intros tc rows filled Hall;
    simpl; [by eexists|].
  apply Forall_cons in Hall as [[t Ht] Hall].
  unfold build_row. rewrite Ht. simpl.
  destruct (fill_signals _ _ _ _ _ _ _) as [e f]. simpl. by apply IH.
Qed.

(** The keys that every output row has. *)
Lemma row_built_has_key row e k :
  row_built conn_map metadata_map signal_map clock_column row e ->
  find_time_col row = Some k \/
  (clock_column = Some k /\ truthy k = true) \/
  (k ∈ Dict.keys metadata_map /\ Some k ≠ clock_column) ->
  k ∈ Dict.keys e.
Proof.
  intros Hbuilt [Hk|[[Hk Ht]|[Hk Hc]]].
  - destruct Hbuilt as (t & f & f' & [Htime ->]%build_row_Some).
    assert (t = k) as -> by congruence.
    unfold fill_signals.
    assert (is_Some (Dict.get k
      (foldl (fill_signal conn_map signal_map clock_column row)
             (initial_row signal_map clock_column row k, f)
             (Dict.keys metadata_map)).1)) as [v Hv];
      [|by eapply dict_get_Some_key].
    rewrite fill_signals_get_go. destruct (_ && _); [by eexists|].
    cbn [fst]. unfold initial_row.
    assert (is_Some (Dict.get k [(k, row_get row (Some k))])) as Hk'.
    { cbn [Dict.get]. rewrite decide_True by done. by eexists. }
    destruct clock_column as [c|]; [|done].
    destruct (truthy c); [|done].
    destruct (decide (c = k)) as [->|Hne].
    + rewrite dict_get_set_eq. by eexists.
    + by rewrite dict_get_set_ne.
  - eapply dict_get_Some_key. by eapply row_built_clock.
  - eapply dict_get_Some_key. by eapply row_built_signal.
Qed.

End emission.

(** A table is emitted for every non-empty waveform whose rows all
    have a time column, provided that no metadata signal has the empty
    name. *)
Lemma build_table_total enum metadata_map clock_signals waveform connectivity :
  waveform ≠ [] ->
  Forall (fun row => is_Some (find_time_col row)) waveform ->
  "" ∉ Dict.keys metadata_map ->
  is_Some (build_table enum metadata_map clock_signals waveform connectivity).
Proof.
  intros Hne Htime Hnames. unfold build_table.
  destruct waveform as [|row0 waveform']; [done|].
  cbn [head mbind option_bind]. cbv zeta.
  set (waveform := row0 :: waveform') in *.
  set (signal_map := match_waveform_signals row0 metadata_map).
  set (conn_map := build_connection_map enum connectivity).
  set (clock_column := find_clock_column signal_map clock_signals).
  destruct (build_rows_total conn_map metadata_map signal_map clock_column
              waveform None [] [] Htime) as [[[tc rows] f] Hrows].
  rewrite Hrows. cbn [mbind option_bind].
  apply build_rows_Some in Hrows as (new & -> & Hall & ->).
  destruct (last waveform) as [last_row|] eqn:Hlast;
    [|by apply last_None in Hlast].
  pose proof (last_Some_elem_of _ _ Hlast) as Hin.
  rewrite Forall_forall in Htime.
  destruct (Htime _ Hin) as [time_col Htc]. rewrite Htc.
  cbn [mbind option_bind app].
  unfold df_select.
  destruct (forallb _ _) eqn:E; [by eexists|]. exfalso.
  apply not_true_iff_false in E. apply E. clear E.
  apply forallb_forall. intros c Hc%list_elem_of_In.
  apply bool_decide_eq_true.
  apply list_elem_of_lookup in Hin as [i Hi].
  destruct (Forall2_lookup_l _ _ _ _ _ Hall Hi) as (e & He & Hbuilt).
  apply (df_columns_complete _ e); [by eapply list_elem_of_lookup_2|].
  apply (row_built_has_key _ _ _ _ _ _ _ Hbuilt).
  unfold column_order, clock_truthy in Hc.
  assert (clock_column = Some "" -> False) as Hclock.
  { intros Hcl. apply Hnames. by eapply find_clock_column_key. }
  destruct clock_column as [cl|] eqn:Hcl.
  - destruct (truthy cl) eqn:Htruthy.
    + rewrite !elem_of_app, !list_elem_of_singleton in Hc. simpl in Hc.
      destruct Hc as [[->|Hc]|Hc]; [auto| |].
      * apply list_elem_of_singleton in Hc as ->. auto.
      * apply list_elem_of_In, filter_In in Hc as [Hc Hnot%negb_true_iff].
        apply bool_decide_eq_false in Hnot. right. right.
        split; [by apply list_elem_of_In|]. intros [= ->]. apply Hnot.
        apply list_elem_of_further, list_elem_of_here.
    + assert (cl = "") as ->.
      { unfold truthy in Htruthy. apply negb_false_iff in Htruthy.
        by apply String.eqb_eq in Htruthy. }
      by destruct Hclock.
  - rewrite elem_of_app, list_elem_of_singleton in Hc.
    destruct Hc as [->|Hc]; [auto|].
    apply list_elem_of_In, filter_In in Hc as [Hc _].
    right. right. split; [by apply list_elem_of_In|done].
Qed.

(** * Further properties *)

(** ** Merging mapped tables *)

Lemma pad_length row len : length (pad row len) = len.
Proof.
  unfold pad. case_bool_decide.
  - rewrite length_app, length_replicate. lia.
  - rewrite length_take. lia.
Qed.

Lemma pad_lookup row len i :
  pad row len !! i =
  if decide (i < len) then Some (default "" (row !! i)) else None.
Proof.
  unfold pad. case_bool_decide as Hlen; case_decide as Hi.
  - destruct (decide (i < length row)) as [Hr|Hr].
    + rewrite lookup_app_l by done.
      destruct (lookup_lt_is_Some_2 row i Hr) as [x ->]. done.
    + rewrite lookup_app_r by lia.
      rewrite lookup_replicate_2 by lia.
      by rewrite (lookup_ge_None_2 row i) by lia.
  - apply lookup_ge_None_2. rewrite length_app, length_replicate. lia.
  - rewrite lookup_take_lt by done.
    destruct (lookup_lt_is_Some_2 row i) as [x ->]; [lia|done].
  - apply lookup_ge_None_2. rewrite length_take. lia.
Qed.

(** X1: [pad] returns exactly [len] cells: the cells of the row that
    fit, in place, and empty strings after them; padding twice is
    padding once. *)
Theorem pad_exact (row : list string) (len : nat) :
  length (pad row len) = len /\
  (forall i, i < len -> pad row len !! i = Some (default "" (row !! i))) /\
  pad (pad row len) len = pad row len.
Proof.
  split; [apply pad_length|]. split.
  - intros i Hi. rewrite pad_lookup. by rewrite decide_True.
  - unfold pad at 1. rewrite pad_length.
    rewrite bool_decide_eq_false_2 by lia.
    apply take_ge. by rewrite pad_length.
Qed.

Lemma elem_of_keep_from head1 head2 start j :
  j ∈ keep_from head1 head2 start <->
  exists k n, j = start + k /\ head2 !! k = Some n /\ n ∉ head1.
Proof.
  revert start. induction head2 as [|n head2 IH]; intros start; simpl.
  { split; [by intros ?%elem_of_nil|]. by intros (k & n & _ & ? & _). }
  case_bool_decide as Hn.
  - rewrite IH. split.
    + intros (k & n' & -> & Hk & Hn'). exists (S k), n'.
      split; [lia|done].
    + intros ([|k] & n' & -> & Hk & Hn'); simpl in Hk.
      * by injection Hk as ->.
      * exists k, n'. split; [lia|done].
  - rewrite elem_of_cons, IH. split.
    + intros [->|(k & n' & -> & Hk & Hn')].
      * exists 0, n. split; [lia|done].
      * exists (S k), n'. split; [lia|done].
    + intros ([|k] & n' & -> & Hk & Hn'); simpl in Hk.
      * left. lia.
      * right. exists k, n'. split; [lia|done].
Qed.

Lemma mapM_cons_Some {A B} (f : A -> option B) x l y k :
  f x = Some y -> mapM f l = Some k -> mapM f (x :: l) = Some (y :: k).
Proof. intros Hx Hl. simpl. rewrite Hx. simpl. by rewrite Hl. Qed.

Lemma pick_keep_from head1 pre head2 :
  pick (pre ++ head2) (keep_from head1 head2 (length pre)) =
  Some (filter (fun n => n ∉ head1) head2).
Proof.
  unfold pick. revert pre. induction head2 as [|n head2 IH]; intros pre;
    simpl; [done|].
  specialize (IH (pre ++ [n])).
  replace ((pre ++ [n]) ++ head2) with (pre ++ n :: head2) in IH
    by (by rewrite <-(assoc (++))).
  replace (length (pre ++ [n])) with (S (length pre)) in IH
    by (rewrite length_app; simpl; lia).
  case_bool_decide as Hn.
  - rewrite IH. rewrite filter_cons_False; [done|]. by intros [].
  - rewrite filter_cons_True by done.
    apply mapM_cons_Some; [|done]. by apply list_lookup_middle.
Qed.

Lemma pick_kept_names head1 head2 :
  pick head2 (keep_from head1 head2 0) =
  Some (filter (fun n => n ∉ head1) head2).
Proof. exact (pick_keep_from head1 [] head2). Qed.

Lemma pick_is_Some l idx :
  is_Some (pick l idx) <-> forall j, j ∈ idx -> j < length l.
Proof.
  unfold pick. rewrite mapM_is_Some, Forall_forall.
  split; intros H j Hj; specialize (H j Hj); simpl in *.
  - by apply lookup_lt_is_Some.
  - by apply lookup_lt_is_Some.
Qed.

Lemma pick_Some l idx picked :
  pick l idx = Some picked ->
  length picked = length idx /\
  forall k j, idx !! k = Some j -> picked !! k = l !! j.
Proof.
  unfold pick. intros H%mapM_Some_1. split.
  - symmetry. by eapply Forall2_length.
  - intros k j Hk.
    destruct (Forall2_lookup_l _ _ _ _ _ H Hk) as (x & -> & ->). done.
Qed.

(** The rows of the merged table are always built: a padded row has a
    cell for every kept index. *)
Lemma merged_rows_Some head1 head2 data1 data2 n :
  exists merged_data,
    mapM (fun i =>
        picked ← pick (padded_row data2 (length head2) i)
                      (keep_from head1 head2 0);
        Some (padded_row data1 (length head1) i ++ picked))
      (seq 0 n) = Some merged_data.
Proof.
  apply mapM_is_Some, Forall_forall. intros i _. simpl.
  assert (is_Some (pick (padded_row data2 (length head2) i)
                        (keep_from head1 head2 0))) as [picked ->];
    [|by eexists].
  apply pick_is_Some. intros j (k & n' & -> & Hk%lookup_lt_Some & _)%elem_of_keep_from.
  unfold padded_row. destruct (data2 !! i).
  - by rewrite pad_length.
  - by rewrite length_replicate.
Qed.

Lemma padded_row_length data len i : length (padded_row data len i) = len.
Proof.
  unfold padded_row. destruct (data !! i);
    [apply pad_length|apply length_replicate].
Qed.

Lemma padded_row_lookup data len i k :
  k < len ->
  padded_row data len i !! k = Some (default "" (data !! i ≫= (.!! k))).
Proof.
  intros Hk. unfold padded_row. destruct (data !! i) as [row|]; simpl.
  - rewrite pad_lookup. by rewrite decide_True.
  - by apply lookup_replicate_2.
Qed.

(** What a successful merge consists of. *)
Lemma merge_two_tables_Some class1 head1 data1 class2 head2 data2 c h d :
  merge_two_tables class1 head1 data1 class2 head2 data2 = Some (c, h, d) ->
  let keep := keep_from head1 head2 0 in
  exists picked_class,
    pick class2 keep = Some picked_class /\
    c = class1 ++ picked_class /\
    h = head1 ++ filter (fun n => n ∉ head1) head2 /\
    Forall2 (fun i row =>
        exists picked,
          pick (padded_row data2 (length head2) i) keep = Some picked /\
          row = padded_row data1 (length head1) i ++ picked)
      (seq 0 (length data1 `max` length data2)) d.
Proof.
  unfold merge_two_tables. cbv zeta.
  destruct (pick class2 _) as [pc|] eqn:Hpc; [|done]. cbn [mbind option_bind].
  rewrite pick_kept_names. cbn [mbind option_bind].
  destruct (mapM _ _) as [rows|] eqn:Hrows; [|done]. cbn [mbind option_bind].
  intros [= <- <- <-]. exists pc. do 3 (split; [done|]).
  apply mapM_Some_1 in Hrows.
  eapply Forall2_impl; [done|]. intros i row Hrow. cbv beta zeta in Hrow.
  destruct (pick (padded_row data2 (length head2) i) _) as [picked|] eqn:Hp;
    [|done].
  cbn [mbind option_bind] in Hrow. injection Hrow as <-. eauto.
Qed.

(** X2: a merged table has the header of the first table followed by
    the column names of the second that the first does not have, as
    many data rows as the longer table, every data row as long as the
    merged header, and a classification row that grows by the same
    number of cells as the header. *)
Theorem merge_two_tables_shape
    (class1 head1 : list string) (data1 : list (list string))
    (class2 head2 : list string) (data2 : list (list string))
    (c h : list string) (d : list (list string)) :
  merge_two_tables class1 head1 data1 class2 head2 data2 = Some (c, h, d) ->
  h = head1 ++ filter (fun n => n ∉ head1) head2 /\
  length d = length data1 `max` length data2 /\
  Forall (fun row => length row = length h) d /\
  length c + length head1 = length class1 + length h.
Proof.
  intros (pc & Hpc & -> & -> & Hrows)%merge_two_tables_Some.
  pose proof (pick_kept_names head1 head2) as Hhead.
  apply pick_Some in Hpc as [Hpc _]. apply pick_Some in Hhead as [Hhead _].
  split; [done|]. split; [|split].
  - apply Forall2_length in Hrows. by rewrite length_seq in Hrows.
  - apply Forall_forall. intros row Hrow.
    apply list_elem_of_lookup in Hrow as [i Hi].
    destruct (Forall2_lookup_r _ _ _ _ _ Hrows Hi)
      as (i' & _ & picked & [Hp _]%pick_Some & ->).
    rewrite !length_app, padded_row_length. congruence.
  - rewrite !length_app. lia.
Qed.

Lemma merge_two_tables_shape_witness :
  let merged :=
    (["" ; "clock"; "data"], ["time_ps"; "clk"; "q"],
     [["0"; "1"; "a"]; [""; ""; "b"]]) in
  merged.1.2 = ["time_ps"; "clk"] ++
               filter (fun n => n ∉ ["time_ps"; "clk"]) ["time_ps"; "q"] /\
  length merged.2 = length [["0"; "1"]] `max` length [["0"; "a"]; ["5"; "b"]] /\
  Forall (fun row => length row = length merged.1.2) merged.2 /\
  length merged.1.1 + length ["time_ps"; "clk"]
  = length [""; "clock"] + length merged.1.2.
Proof.
  apply (merge_two_tables_shape
           [""; "clock"] ["time_ps"; "clk"] [["0"; "1"]]
           [""; "data"] ["time_ps"; "q"] [["0"; "a"]; ["5"; "b"]]).
  vm_compute. reflexivity.
Defined.

Lemma merge_two_tables_is_Some class1 head1 data1 class2 head2 data2 :
  is_Some (merge_two_tables class1 head1 data1 class2 head2 data2) <->
  forall j n, head2 !! j = Some n -> n ∉ head1 -> j < length class2.
Proof.
  split.
  - intros [[[c h] d] (pc & Hpc & _)%merge_two_tables_Some] j n Hj Hn.
    apply (proj1 (pick_is_Some class2 (keep_from head1 head2 0)));
      [by eexists|].
    apply elem_of_keep_from. by exists j, n.
  - intros Hpick.
    assert (is_Some (pick class2 (keep_from head1 head2 0))) as [pc Hpc].
    { apply pick_is_Some. intros j (k & n & -> & Hk & Hn)%elem_of_keep_from.
      by eapply Hpick. }
    unfold merge_two_tables. cbv zeta. rewrite Hpc. cbn [mbind option_bind].
    rewrite pick_kept_names. cbn [mbind option_bind].
    destruct (merged_rows_Some head1 head2 data1 data2
                (length data1 `max` length data2)) as [rows ->].
    by eexists.
Qed.

(** X3: merging fails exactly when the second classification row has
    no cell for some column that is kept from the second table; in
    particular it succeeds whenever that row is at least as long as the
    second header. *)
Theorem merge_two_tables_defined
    (class1 head1 : list string) (data1 : list (list string))
    (class2 head2 : list string) (data2 : list (list string)) :
  (is_Some (merge_two_tables class1 head1 data1 class2 head2 data2) <->
   forall j n, head2 !! j = Some n -> n ∉ head1 -> j < length class2) /\
  (length head2 <= length class2 ->
   is_Some (merge_two_tables class1 head1 data1 class2 head2 data2)).
Proof.
  split; [apply merge_two_tables_is_Some|].
  intros Hlen. apply merge_two_tables_is_Some.
  intros j n Hj%lookup_lt_Some _. lia.
Qed.

(** X4: a merge never changes a value. The columns of the first table
    keep their places and their values, padded with empty strings where
    a row is short or absent; and every column of the second table whose
    name the first does not have is found again after them, under its
    name, with its values. *)
Theorem merge_two_tables_cells
    (class1 head1 : list string) (data1 : list (list string))
    (class2 head2 : list string) (data2 : list (list string))
    (c h : list string) (d : list (list string)) :
  merge_two_tables class1 head1 data1 class2 head2 data2 = Some (c, h, d) ->
  (forall i row k,
     d !! i = Some row -> k < length head1 ->
     row !! k = Some (default "" (data1 !! i ≫= (.!! k)))) /\
  (forall j n,
     head2 !! j = Some n -> n ∉ head1 ->
     exists k,
       length head1 <= k /\ h !! k = Some n /\
       forall i row,
         d !! i = Some row ->
         row !! k = Some (default "" (data2 !! i ≫= (.!! j)))).
Proof.
  intros (pc & Hpc & -> & -> & Hrows)%merge_two_tables_Some. split.
  - intros i row k Hi Hk.
    destruct (Forall2_lookup_r _ _ _ _ _ Hrows Hi)
      as (i' & Hi' & picked & _ & ->).
    apply lookup_seq in Hi' as [-> _]. simpl.
    rewrite lookup_app_l by (by rewrite padded_row_length).
    by apply padded_row_lookup.
  - intros j n Hj Hn.
    assert (j ∈ keep_from head1 head2 0) as [k Hk]%list_elem_of_lookup.
    { apply elem_of_keep_from. by exists j, n. }
    exists (length head1 + k). split; [lia|]. split.
    + rewrite lookup_app_r by lia.
      replace (length head1 + k - length head1) with k by lia.
      destruct (pick_Some _ _ _ (pick_kept_names head1 head2)) as [_ H].
      by rewrite (H k j).
    + intros i row Hi.
      destruct (Forall2_lookup_r _ _ _ _ _ Hrows Hi)
        as (i' & Hi' & picked & Hp & ->).
      apply lookup_seq in Hi' as [-> _]. simpl.
      rewrite lookup_app_r by (rewrite padded_row_length; lia).
      rewrite padded_row_length.
      replace (length head1 + k - length head1) with k by lia.
      destruct (pick_Some _ _ _ Hp) as [_ H]. rewrite (H k j Hk).
      apply padded_row_lookup. by eapply lookup_lt_Some.
Qed.

Lemma merge_two_tables_cells_witness :
  let h := ["time_ps"; "clk"; "q"] in
  let d := [["0"; "1"; "a"]; [""; ""; "b"]] in
  (forall i row k,
     d !! i = Some row -> k < length ["time_ps"; "clk"] ->
     row !! k = Some (default "" ([["0"; "1"]] !! i ≫= (.!! k)))) /\
  (forall j n,
     ["time_ps"; "q"] !! j = Some n -> n ∉ ["time_ps"; "clk"] ->
     exists k,
       length ["time_ps"; "clk"] <= k /\ h !! k = Some n /\
       forall i row,
         d !! i = Some row ->
         row !! k = Some (default "" ([["0"; "a"]; ["5"; "b"]] !! i ≫= (.!! j)))).
Proof.
  apply (merge_two_tables_cells
           [""; "clock"] ["time_ps"; "clk"] [["0"; "1"]]
           [""; "data"] ["time_ps"; "q"] [["0"; "a"]; ["5"; "b"]]
           [""; "clock"; "data"]).
  vm_compute. reflexivity.
Defined.

(** ** Merging a list of files *)

Lemma load_csv_is_Some f : is_Some (load_csv f) <-> 2 <= length f.
Proof.
  destruct f as [|c [|h d]]; simpl.
  - split; [by intros [? [=]]|lia].
  - split; [by intros [? [=]]|lia].
  - split; [lia|by eexists].
Qed.

Lemma load_csv_Some f c h d :
  load_csv f = Some (c, h, d) ->
  class_names f = c /\ header_names f = h /\ data_count f = length d.
Proof.
  unfold class_names, header_names, data_count. by intros ->.
Qed.

Lemma merge_two_tables_facts class1 head1 data1 class2 head2 data2 c h d :
  merge_two_tables class1 head1 data1 class2 head2 data2 = Some (c, h, d) ->
  h = head1 ++ filter (fun n => n ∉ head1) head2 /\
  length d = length data1 `max` length data2 /\
  Forall (fun row => length row = length h) d.
Proof.
  intros (pc & Hpc & -> & -> & Hrows)%merge_two_tables_Some.
  pose proof (pick_kept_names head1 head2) as [Hhead _]%pick_Some.
  split; [done|]. split.
  - apply Forall2_length in Hrows. by rewrite length_seq in Hrows.
  - apply Forall_forall. intros row Hrow.
    apply list_elem_of_lookup in Hrow as [i Hi].
    destruct (Forall2_lookup_r _ _ _ _ _ Hrows Hi)
      as (i' & _ & picked & [Hp _]%pick_Some & ->).
    rewrite !length_app, padded_row_length. congruence.
Qed.

Lemma merged_header_elem_of (head1 head2 : list string) n :
  n ∈ head1 ++ filter (fun n => n ∉ head1) head2 <-> n ∈ head1 \/ n ∈ head2.
Proof.
  rewrite elem_of_app, list_elem_of_filter.
  destruct (decide (n ∈ head1)); tauto.
Qed.

Lemma merged_header_NoDup (head1 head2 : list string) :
  NoDup head1 -> NoDup head2 ->
  NoDup (head1 ++ filter (fun n => n ∉ head1) head2).
Proof.
  intros H1 H2. apply NoDup_app. split; [done|]. split.
  - intros n Hn [Hn' _]%list_elem_of_filter. done.
  - by apply NoDup_filter.
Qed.

(** What the loop of [merge_all] has done when it ends. *)
Lemma merge_rest_Some files c0 h0 d0 c h d :
  merge_rest (c0, h0, d0) files = Some (c, h, d) ->
  Forall (fun f => 2 <= length f) files /\
  h0 `prefix_of` h /\
  (forall n, n ∈ h <-> n ∈ h0 \/ exists f, f ∈ files /\ n ∈ header_names f) /\
  length d = length d0 `max` max_list (data_count <$> files) /\
  (NoDup h0 -> Forall (fun f => NoDup (header_names f)) files -> NoDup h) /\
  (Forall (fun row => length row = length h0) d0 \/ files ≠ [] ->
   Forall (fun row => length row = length h) d).
Proof.
  revert c0 h0 d0. induction files as [|f files IH]; intros c0 h0 d0.
  { intros [= -> -> ->]. split; [constructor|]. split; [done|]. split.
    - intros n. split; [auto|]. intros [?|(f & ?%elem_of_nil & _)]; done.
    - split; [simpl; lia|]. split; [done|]. by intros [?|?]. }
  cbn [merge_rest].
  destruct (load_csv f) as [[[c2 h2] d2]|] eqn:Hf; [|done].
  cbn [mbind option_bind].
  destruct (merge_two_tables c0 h0 d0 c2 h2 d2) as [[[c1 h1] d1]|] eqn:Hm;
    [|done].
  cbn [mbind option_bind].
  intros (Hload & Hpre & Hnames & Hlen & Hdup & Hrect)%IH.
  apply merge_two_tables_facts in Hm as (-> & Hlen1 & Hrect1).
  pose proof (load_csv_Some _ _ _ _ Hf) as (_ & Hh2 & Hd2).
  split; [|split; [|split; [|split; [|split]]]].
  - constructor; [|done]. apply load_csv_is_Some. by rewrite Hf.
  - etrans; [|done]. by apply prefix_app_r.
  - intros n. rewrite Hnames, merged_header_elem_of. split.
    + intros [[?|?]|(f' & ? & ?)]; [auto|right..].
      * exists f. rewrite Hh2. split; [apply list_elem_of_here|done].
      * exists f'. split; [by apply list_elem_of_further|done].
    + intros [?|(f' & [->|?]%elem_of_cons & Hn)]; [auto| |eauto].
      rewrite Hh2 in Hn. auto.
  - rewrite Hlen, Hlen1. rewrite fmap_cons. cbn [max_list]. rewrite Hd2.
    unfold id. lia.
  - intros H0 [H2 Hall]%Forall_cons. apply Hdup; [|done].
    rewrite Hh2 in H2. by apply merged_header_NoDup.
  - intros _. apply Hrect. by left.
Qed.

Lemma merge_all_facts files c h d :
  merge_all files = Some (c, h, d) ->
  Forall (fun f => 2 <= length f) files /\
  (exists f0, head files = Some f0 /\ header_names f0 `prefix_of` h) /\
  (forall n, n ∈ h <-> exists f, f ∈ files /\ n ∈ header_names f) /\
  length d = max_list (data_count <$> files) /\
  (Forall (fun f => NoDup (header_names f)) files -> NoDup h) /\
  (2 <= length files -> Forall (fun row => length row = length h) d).
Proof.
  destruct files as [|f0 files]; [done|]. cbn [merge_all].
  destruct (load_csv f0) as [[[c0 h0] d0]|] eqn:Hf; [|done].
  cbn [mbind option_bind].
  intros (Hload & Hpre & Hnames & Hlen & Hdup & Hrect)%merge_rest_Some.
  pose proof (load_csv_Some _ _ _ _ Hf) as (_ & Hh0 & Hd0).
  split; [|split; [|split; [|split; [|split]]]].
  - constructor; [|done]. apply load_csv_is_Some. by rewrite Hf.
  - exists f0. by rewrite Hh0.
  - intros n. rewrite Hnames. split.
    + intros [?|(f & ? & ?)].
      * exists f0. rewrite Hh0. split; [apply list_elem_of_here|done].
      * exists f. split; [by apply list_elem_of_further|done].
    + intros (f & [->|?]%elem_of_cons & Hn); [|eauto].
      rewrite Hh0 in Hn. auto.
  - rewrite Hlen. cbn [fmap list_fmap max_list]. by rewrite Hd0.
  - intros [H0 Hall]%Forall_cons. rewrite Hh0 in H0. auto.
  - intros Hlen2. apply Hrect. right. intros ->. simpl in Hlen2. lia.
Qed.

(** X5: when [merge_all] writes a table, every file had its two
    heading rows; the header of the first file opens the merged header,
    which holds exactly the column names of the files, without
    duplicates when no file repeats a name; there are as many data rows
    as in the longest file; and with two files or more every data row is
    as long as the header. *)
Theorem merge_all_result (files : list (list (list string)))
    (c h : list string) (d : list (list string)) :
  merge_all files = Some (c, h, d) ->
  Forall (fun f => 2 <= length f) files /\
  (exists f0, head files = Some f0 /\ header_names f0 `prefix_of` h) /\
  (forall n, n ∈ h <-> exists f, f ∈ files /\ n ∈ header_names f) /\
  length d = max_list (data_count <$> files) /\
  (Forall (fun f => NoDup (header_names f)) files -> NoDup h) /\
  (2 <= length files -> Forall (fun row => length row = length h) d).
Proof. apply merge_all_facts. Qed.

Lemma merge_all_result_witness :
  let files :=
    [ [[""; "clock"]; ["time_ps"; "clk"]; ["0"; "1"]];
      [[""; "data"]; ["time_ps"; "q"]; ["0"; "a"]; ["5"; "b"]] ] in
  let h := ["time_ps"; "clk"; "q"] in
  let d := [["0"; "1"; "a"]; [""; ""; "b"]] in
  Forall (fun f => 2 <= length f) files /\
  (exists f0, head files = Some f0 /\ header_names f0 `prefix_of` h) /\
  (forall n, n ∈ h <-> exists f, f ∈ files /\ n ∈ header_names f) /\
  length d = max_list (data_count <$> files) /\
  (Forall (fun f => NoDup (header_names f)) files -> NoDup h) /\
  (2 <= length files -> Forall (fun row => length row = length h) d).
Proof.
  apply (merge_all_result _ [""; "clock"; "data"]).
  vm_compute. reflexivity.
Defined.

Lemma merge_rest_is_Some files c0 h0 d0 :
  is_Some (merge_rest (c0, h0, d0) files) <->
  Forall (fun f => 2 <= length f) files /\
  forall i f j n,
    files !! i = Some f -> header_names f !! j = Some n -> n ∉ h0 ->
    (forall f', f' ∈ take i files -> n ∉ header_names f') ->
    j < length (class_names f).
Proof.
  revert c0 h0 d0. induction files as [|f files IH]; intros c0 h0 d0.
  { simpl. split; [|by eexists]. intros _. split; [constructor|].
    intros i f j n Hi. by rewrite lookup_nil in Hi. }
  cbn [merge_rest]. rewrite Forall_cons, <-load_csv_is_Some.
  destruct (load_csv f) as [[[c2 h2] d2]|] eqn:Hf; cbn [mbind option_bind].
  2: { split; [by intros [? [=]]|]. by intros [[[? [=]] _] _]. }
  pose proof (load_csv_Some _ _ _ _ Hf) as (Hc2 & Hh2 & _).
  split.
  - destruct (merge_two_tables c0 h0 d0 c2 h2 d2) as [[[c1 h1] d1]|] eqn:Hm;
      cbn [mbind option_bind]; [|by intros [? [=]]].
    intros [Hload Hrest]%IH.
    split; [split; [by eexists|done]|].
    intros [|i] f' j n Hi Hj Hn Hbefore; simpl in Hi.
    + injection Hi as <-. rewrite Hh2 in Hj. rewrite Hc2.
      apply (proj1 (merge_two_tables_is_Some c0 h0 d0 c2 h2 d2)) with n;
        [by eexists|done..].
    + apply merge_two_tables_facts in Hm as (-> & _).
      apply (Hrest i f' j n); [done..| |].
      * rewrite merged_header_elem_of. intros [?|Hn2]; [done|].
        apply (Hbefore f); [apply list_elem_of_here|]. by rewrite Hh2.
      * intros f'' Hf''. apply Hbefore. by apply list_elem_of_further.
  - intros [[_ Hload] Hall].
    assert (is_Some (merge_two_tables c0 h0 d0 c2 h2 d2))
      as [[[c1 h1] d1] Hm].
    { apply merge_two_tables_is_Some. intros j n Hj Hn.
      rewrite <-Hc2. apply (Hall 0 f j n); [done|by rewrite Hh2|done|].
      by intros f' ?%elem_of_nil. }
    rewrite Hm. cbn [mbind option_bind]. apply IH. split; [done|].
    apply merge_two_tables_facts in Hm as (-> & _).
    intros i f' j n Hi Hj Hn Hbefore.
    rewrite merged_header_elem_of in Hn.
    apply (Hall (S i) f' j n); [done..|tauto|].
    intros f'' [->|?]%elem_of_cons; [rewrite Hh2; tauto|auto].
Qed.

Lemma merge_all_is_Some files :
  is_Some (merge_all files) <->
  files ≠ [] /\
  Forall (fun f => 2 <= length f) files /\
  forall i f j n,
    0 < i -> files !! i = Some f -> header_names f !! j = Some n ->
    (forall f', f' ∈ take i files -> n ∉ header_names f') ->
    j < length (class_names f).
Proof.
  destruct files as [|f0 files].
  { simpl. split; [by intros [? [=]]|]. by intros [? _]. }
  cbn [merge_all]. rewrite Forall_cons, <-load_csv_is_Some.
  destruct (load_csv f0) as [[[c0 h0] d0]|] eqn:Hf; cbn [mbind option_bind].
  2: { split; [by intros [? [=]]|]. by intros (_ & [[? [=]] _] & _). }
  pose proof (load_csv_Some _ _ _ _ Hf) as (_ & Hh0 & _).
  rewrite merge_rest_is_Some. split.
  - intros [Hload Hall]. split; [done|]. split; [split; [by eexists|done]|].
    intros [|i] f j n Hpos Hi Hj Hbefore; [lia|]. simpl in Hi.
    apply (Hall i f j n); [done..| |].
    + rewrite <-Hh0. apply Hbefore. apply list_elem_of_here.
    + intros f' ?. apply Hbefore. by apply list_elem_of_further.
  - intros (_ & [_ Hload] & Hall). split; [done|].
    intros i f j n Hi Hj Hn Hbefore.
    apply (Hall (S i) f j n); [lia|done..|].
    intros f' [->|?]%elem_of_cons; [by rewrite Hh0|auto].
Qed.

Lemma merge_rest_total files :
  files ≠ [] ->
  Forall (fun f => 2 <= length f /\
                   length (header_names f) <= length (class_names f)) files ->
  is_Some (merge_all files).
Proof.
  intros Hne Hall. apply merge_all_is_Some. split; [done|]. split.
  - eapply Forall_impl; [done|]. by intros f [? _].
  - intros i f j n _ Hi Hj%lookup_lt_Some _.
    rewrite Forall_forall in Hall.
    destruct (Hall f) as [_ ?]; [by eapply list_elem_of_lookup_2|lia].
Qed.

(** X6: [merge_all] writes a table exactly when there is a file, every
    file has its two heading rows, and every file after the first has a
    classification cell above each column whose name no earlier file
    has; so it does whenever no classification row is shorter than its
    header. *)
Theorem merge_all_defined (files : list (list (list string))) :
  (is_Some (merge_all files) <->
   files ≠ [] /\
   Forall (fun f => 2 <= length f) files /\
   forall i f j n,
     0 < i -> files !! i = Some f -> header_names f !! j = Some n ->
     (forall f', f' ∈ take i files -> n ∉ header_names f') ->
     j < length (class_names f)) /\
  (files ≠ [] ->
   Forall (fun f => 2 <= length f /\
                    length (header_names f) <= length (class_names f)) files ->
   is_Some (merge_all files)).
Proof.
  split; [apply merge_all_is_Some|apply merge_rest_total].
Qed.

(** ** The shape of normalized names *)



Lemma drop_while_all p s : Str.all p s = true -> Str.drop_while p s = "".
Proof.
  induction s as [|c s IH]; simpl; [done|].
  intros [-> ?]%andb_true_iff. auto.
Qed.



(** ** Matching waveform columns *)

Lemma build_meta_norm_Some metadata_map n m :
  build_meta_norm metadata_map !! n = Some m ->
  m ∈ Dict.keys metadata_map /\ n ∈ meta_names m.
Proof.
  unfold build_meta_norm. revert n m.
  apply (foldl_invariant
           (fun mn : gmap string string => forall n m,
              mn !! n = Some m ->
              m ∈ Dict.keys metadata_map /\ n ∈ meta_names m)).
  - intros n m. by rewrite lookup_empty.
  - intros mn k IH Hk n m. cbv zeta. rewrite !lookup_insert.
    unfold meta_names. repeat case_decide; subst.
    + intros [= <-]. split; [done|]. apply list_elem_of_further, list_elem_of_here.
    + intros [= <-]. split; [done|]. apply list_elem_of_here.
    + apply IH.
Qed.

Lemma build_meta_norm_is_Some metadata_map n m :
  m ∈ Dict.keys metadata_map -> n ∈ meta_names m ->
  is_Some (build_meta_norm metadata_map !! n).
Proof.
  unfold build_meta_norm. intros Hm Hn.
  assert (forall ks (mn : gmap string string),
    is_Some (mn !! n) \/ m ∈ ks ->
    is_Some (foldl (fun meta_norm meta_sig =>
        let norm1 := normalize meta_sig in
        let norm2 := Str.lower (Str.after_last "." meta_sig) in
        <[norm2 := meta_sig]> (<[norm1 := meta_sig]> meta_norm)) mn ks !! n))
    as H; [|apply H; by right].
  induction ks as [|k ks IH]; intros mn; cbn [foldl].
  { intros [?|?%elem_of_nil]; done. }
  intros [Hmn|[->|Hin]%elem_of_cons]; apply IH; [left|left|by right].
  - cbv zeta. rewrite !lookup_insert. by repeat case_decide.
  - cbv zeta. rewrite !lookup_insert. unfold meta_names in Hn.
    repeat case_decide; [done..|].
    apply elem_of_cons in Hn as [->|Hn]; [done|].
    by apply list_elem_of_singleton in Hn as ->.
Qed.

Lemma match_one_Some mn wf_sig m :
  match_one mn wf_sig = Some m ->
  exists n, n ∈ lookup_names wf_sig /\ mn !! n = Some m.
Proof.
  unfold match_one, lookup_names. cbv zeta.
  destruct (mn !! normalize wf_sig) as [m1|] eqn:E1.
  { intros [= <-]. eexists. split; [apply list_elem_of_here|done]. }
  destruct (mn !! Str.lower _) as [m2|] eqn:E2.
  { intros [= <-]. eexists.
    split; [apply list_elem_of_further, list_elem_of_here|done]. }
  destruct (Str.contains _ _); [|done].
  destruct (bool_decide _); [|done].
  intros H. eexists. split; [|done].
  do 2 apply list_elem_of_further. apply list_elem_of_here.
Qed.

Lemma match_one_is_Some mn wf_sig n :
  n ∈ lookup_names wf_sig -> is_Some (mn !! n) -> is_Some (match_one mn wf_sig).
Proof.
  unfold match_one, lookup_names. cbv zeta.
  destruct (mn !! normalize wf_sig) as [m1|] eqn:E1; [by eexists|].
  destruct (mn !! Str.lower _) as [m2|] eqn:E2; [by eexists|].
  intros [->|[->|Hn]%elem_of_cons]%elem_of_cons.
  - rewrite E1. by intros [? [=]].
  - rewrite E2. by intros [? [=]].
  - destruct (Str.contains _ _); [|by apply elem_of_nil in Hn].
    destruct (bool_decide _); [|by apply elem_of_nil in Hn].
    by apply list_elem_of_singleton in Hn as ->.
Qed.

(** The entry of one waveform column in the signal map. *)
Lemma match_waveform_signals_get waveform_row metadata_map wf_sig :
  Dict.get wf_sig (match_waveform_signals waveform_row metadata_map) =
  if bool_decide (wf_sig ∈ Dict.keys waveform_row)
  then match_one (build_meta_norm metadata_map) wf_sig
  else None.
Proof.
  unfold match_waveform_signals. cbv zeta.
  induction (Dict.keys waveform_row) as [|k ks IH] using rev_ind; [done|].
  rewrite foldl_snoc.
  destruct (decide (k = wf_sig)) as [->|Hne].
  - rewrite (bool_decide_eq_true_2 (wf_sig ∈ ks ++ [wf_sig]))
      by (apply elem_of_app; right; apply list_elem_of_here).
    destruct (match_one _ wf_sig) as [m|] eqn:E.
    + apply dict_get_set_eq.
    + rewrite IH. by destruct (bool_decide _).
  - assert (bool_decide (wf_sig ∈ ks ++ [k]) = bool_decide (wf_sig ∈ ks))
      as ->.
    { apply bool_decide_ext. rewrite elem_of_app, list_elem_of_singleton.
      split; [intros [?|?]; done|auto]. }
    destruct (match_one _ k); [|done]. by rewrite dict_get_set_ne.
Qed.

(** X8: a waveform column is matched only to a metadata signal that is
    filed under one of the column's lookup names, and it is matched
    whenever some metadata signal is; a column whose normalized name is
    that of one metadata signal only is matched to that signal. Columns
    that are not in the row are not matched. *)
Theorem match_waveform_signals_sound (waveform_row : Row)
    (metadata_map : Metadata) (wf_sig : string) :
  let signal_map := match_waveform_signals waveform_row metadata_map in
  (forall m,
     Dict.get wf_sig signal_map = Some m ->
     wf_sig ∈ Dict.keys waveform_row /\ m ∈ Dict.keys metadata_map /\
     exists n, n ∈ lookup_names wf_sig /\ n ∈ meta_names m) /\
  (forall m n,
     wf_sig ∈ Dict.keys waveform_row -> m ∈ Dict.keys metadata_map ->
     n ∈ lookup_names wf_sig -> n ∈ meta_names m ->
     is_Some (Dict.get wf_sig signal_map)) /\
  (forall m,
     wf_sig ∈ Dict.keys waveform_row -> m ∈ Dict.keys metadata_map ->
     normalize wf_sig ∈ meta_names m ->
     (forall m', m' ∈ Dict.keys metadata_map ->
                 normalize wf_sig ∈ meta_names m' -> m' = m) ->
     Dict.get wf_sig signal_map = Some m).
Proof.
  intros signal_map. subst signal_map. rewrite match_waveform_signals_get.
  split; [|split].
  - intros m. case_bool_decide; [|done].
    intros (n & Hn & [Hm Hmn]%build_meta_norm_Some)%match_one_Some. eauto.
  - intros m n Hwf Hm Hn Hmn. rewrite bool_decide_eq_true_2 by done.
    eapply match_one_is_Some; [done|]. by eapply build_meta_norm_is_Some.
  - intros m Hwf Hm Hn Huniq. rewrite bool_decide_eq_true_2 by done.
    destruct (build_meta_norm_is_Some metadata_map _ m Hm Hn) as [m' Hm'].
    unfold match_one. cbv zeta. rewrite Hm'.
    apply build_meta_norm_Some in Hm' as [Hin Hnames].
    by rewrite (Huniq m' Hin Hnames).
Qed.

(** ** The contents of the connection map *)

Lemma setdefault_append_nonempty k v (m : gmap string (list string)) :
  (forall k' l, m !! k' = Some l -> l ≠ []) ->
  forall k' l, setdefault_append k v m !! k' = Some l -> l ≠ [].
Proof.
  intros Hm k' l. unfold setdefault_append.
  destruct (decide (k = k')) as [->|Hne].
  - rewrite lookup_insert_eq. intros [= <-]. by intros [_ [=]]%app_eq_nil.
  - rewrite lookup_insert_ne by done. apply Hm.
Qed.

Lemma add_connection_nonempty conns k l :
  foldl add_connection ∅ conns !! k = Some l -> l ≠ [].
Proof.
  revert k l.
  apply (foldl_invariant
           (fun m : gmap string (list string) =>
              forall k l, m !! k = Some l -> l ≠ [])).
  { intros k l. by rewrite lookup_empty. }
  intros m conn Hm _. unfold add_connection.
  apply foldl_invariant; [done|]. intros m1 p Hm1 _.
  apply foldl_invariant; [done|]. intros m2 c Hm2 _.
  by do 2 apply setdefault_append_nonempty.
Qed.

(** X9: the connection map lists [B] under [A] exactly when some direct
    connection links the two names: one is a name of its parent signal
    (the signal, the signal qualified by the parent module, the signal
    without its index) and the other a name of its child port (the
    port, the port qualified by the instance, the port without its
    index). No key has an empty list, and without connections the map
    is empty. *)
Theorem connection_map_exact
    (enum : list string -> list string) (Henum : set_enumeration enum)
    (connectivity : option (list Connection)) :
  let conn_map := build_connection_map enum connectivity in
  (forall A B,
     candidate conn_map A B <->
     exists conns conn,
       connectivity = Some conns /\ conn ∈ conns /\
       ((A ∈ parent_names conn /\ B ∈ child_names conn) \/
        (A ∈ child_names conn /\ B ∈ parent_names conn))) /\
  (forall A lA, conn_map !! A = Some lA -> lA ≠ []) /\
  (connectivity = None \/ connectivity = Some [] -> conn_map = ∅).
Proof.
  intros conn_map. split; [|split].
  - intros A B. apply (candidate_build_connection_map _ Henum).
  - intros A lA. subst conn_map. destruct connectivity as [conns|]; simpl.
    + rewrite lookup_fmap.
      destruct (_ !! A) as [l|] eqn:E; [|done]. intros [= <-] Hnil.
      apply add_connection_nonempty in E.
      destruct l as [|x l]; [done|].
      assert (x ∈ enum (x :: l)) as Hx
        by (apply Henum, list_elem_of_here).
      rewrite Hnil in Hx. by apply elem_of_nil in Hx.
    + by rewrite lookup_empty.
  - intros [-> | ->]; [done|]. subst conn_map. simpl. apply fmap_empty.
Qed.

Lemma connection_map_exact_witness :
  let conn_map := build_connection_map remove_dups (Some [uart_connection]) in
  (forall A B,
     candidate conn_map A B <->
     exists conns conn,
       Some [uart_connection] = Some conns /\ conn ∈ conns /\
       ((A ∈ parent_names conn /\ B ∈ child_names conn) \/
        (A ∈ child_names conn /\ B ∈ parent_names conn))) /\
  (forall A lA, conn_map !! A = Some lA -> lA ≠ []) /\
  (Some [uart_connection] = None \/ Some [uart_connection] = Some [] ->
   conn_map = ∅).
Proof.
  apply (connection_map_exact remove_dups).
  intros l. split; [apply NoDup_remove_dups|].
  intros x. apply elem_of_remove_dups.
Defined.

(** ** The record of filled signals *)

Lemma fills_refl (Q : string -> string -> Prop) filled :
  (forall t s, ~ Q t s) -> fills Q filled filled.
Proof.
  intros HQ. split; [exists []; by rewrite app_nil_r|].
  split; [done|]. split; [auto|]. intros t s H. by destruct (HQ t s).
Qed.

Lemma fills_trans (Q1 Q2 Q : string -> string -> Prop) f0 f1 f2 :
  (forall t s, Q t s <-> Q1 t s \/ Q2 t s) ->
  fills Q1 f0 f1 -> fills Q2 f1 f2 -> fills Q f0 f2.
Proof.
  intros HQ ([n1 ->] & Hd1 & Hs1 & Hc1) ([n2 ->] & Hd2 & Hs2 & Hc2).
  split; [exists (n1 ++ n2); by rewrite (assoc (++))|].
  split; [auto|]. split.
  - intros t s [H|H]%Hs2; [|right; apply HQ; auto].
    apply Hs1 in H as [?|?]; [auto|right; apply HQ; auto].
  - intros t s [H|H]%HQ; [|by eapply Hc2].
    apply Hc1 in H. rewrite fmap_app. apply elem_of_app. by left.
Qed.

Lemma existsb_target (filled : Filled) (k : string) :
  existsb (fun f => bool_decide (f.1 = k)) filled = true <-> k ∈ filled.*1.
Proof.
  rewrite existsb_exists, list_elem_of_fmap. split.
  - intros (f & Hin%list_elem_of_In & Hf%bool_decide_eq_true). eauto.
  - intros (f & -> & Hin%list_elem_of_In). exists f.
    split; [done|]. by apply bool_decide_eq_true.
Qed.

Section filled_facts.

Variables (conn_map : gmap string (list string)) (metadata_map : Metadata).
Variables (signal_map : Dict.t string) (clock_column : option string).

Lemma resolve_value_fills row filled k :
  fills (fun t s => t = k /\ filled_from conn_map signal_map row k s)
        filled (resolve_value conn_map signal_map row filled k).2.
Proof.
  assert (forall P : Prop,
    (forall s, filled_from conn_map signal_map row k s -> P -> False) -> P ->
    fills (fun t s => t = k /\ filled_from conn_map signal_map row k s)
          filled filled) as Hsame.
  { intros P HP p. apply fills_refl. intros t s [_ H]. by apply (HP s). }
  unfold resolve_value. cbv zeta.
  destruct (is_empty_value (direct_value signal_map row k)) eqn:Hd; cbn [andb].
  2: { apply (Hsame True); [|done]. intros s (H & _) _. congruence. }
  case_bool_decide as Hmap; cbn [andb].
  2: { apply (Hsame True); [|done].
       intros s (_ & [i Hi] & _) _. unfold find_connected_signal in Hi.
       by rewrite Hmap, lookup_empty in Hi. }
  destruct (find_connected_signal k (Dict.keys row) conn_map)
    as [[name col]|] eqn:Hfind.
  2: { apply (Hsame True); [|done]. intros s (_ & [i Hi] & _) _.
       congruence. }
  destruct (truthy name) eqn:Hname.
  2: { apply (Hsame True); [|done].
       intros s (_ & [i Hi] & Hs & _) _. rewrite Hfind in Hi.
       injection Hi as <- <-. unfold truthy in Hname. apply negb_false_iff, String.eqb_eq in Hname.
       done. }
  destruct (is_empty_value (row_get row (Some name))) eqn:Hval; cbn [negb].
  { apply (Hsame True); [|done].
    intros s (_ & [i Hi] & _ & Hs) _. rewrite Hfind in Hi.
    injection Hi as <- <-. congruence. }
  assert (filled_from conn_map signal_map row k name) as Hfrom.
  { split; [done|]. split; [eauto|]. split; [|done].
    intros ->. done. }
  destruct (existsb _ filled) eqn:Hex; cbn [snd].
  - apply existsb_target in Hex.
    split; [exists []; by rewrite app_nil_r|]. split; [done|].
    split; [auto|]. by intros t s [-> _].
  - apply not_true_iff_false in Hex. rewrite existsb_target in Hex.
    split; [by eexists|]. split; [|split].
    + intros Hnd. rewrite fmap_app. apply NoDup_app. split; [done|].
      split; [|apply NoDup_singleton].
      intros t Ht ->%list_elem_of_singleton. done.
    + intros t s [?|[= -> ->]%list_elem_of_singleton]%elem_of_app; auto.
    + intros t s [-> _]. rewrite fmap_app. apply elem_of_app. right.
      apply list_elem_of_here.
Qed.

Lemma fill_signal_fills row e filled k :
  fills (fun t s => t = k /\ Some t ≠ clock_column /\
                    filled_from conn_map signal_map row t s)
        filled
        (fill_signal conn_map signal_map clock_column row (e, filled) k).2.
Proof.
  unfold fill_signal. case_bool_decide as Hclock.
  { apply fills_refl. by intros t s (-> & ? & _). }
  pose proof (resolve_value_fills row filled k) as H.
  destruct (resolve_value conn_map signal_map row filled k) as [v f].
  cbn [snd] in *. destruct H as (Hnew & Hd & Hs & Hc).
  split; [done|]. split; [done|]. split.
  - intros t s [?|[-> ?]]%Hs; auto.
  - intros t s (-> & _ & ?). by eapply Hc.
Qed.

Lemma fill_signals_fills row ks e filled :
  fills (fun t s => t ∈ ks /\ Some t ≠ clock_column /\
                    filled_from conn_map signal_map row t s)
        filled
        (foldl (fill_signal conn_map signal_map clock_column row)
               (e, filled) ks).2.
Proof.
  revert e filled. induction ks as [|k ks IH]; intros e filled; cbn [foldl].
  { apply fills_refl. by intros t s [?%elem_of_nil _]. }
  pose proof (fill_signal_fills row e filled k) as Hk.
  destruct (fill_signal _ _ _ row (e, filled) k) as [e1 f1]. cbn [snd] in Hk.
  eapply fills_trans; [|exact Hk|apply IH].
  intros t s. rewrite elem_of_cons. split.
  - intros ([->|?] & ? & ?); auto.
  - intros [(-> & ? & ?)|(? & ? & ?)]; auto.
Qed.

Lemma build_rows_fills waveform time_col rows filled time_col' rows' filled' :
  build_rows conn_map metadata_map signal_map clock_column waveform
             time_col rows filled = Some (time_col', rows', filled') ->
  fills (fun t s => t ∈ Dict.keys metadata_map /\ Some t ≠ clock_column /\
                    exists row, row ∈ waveform /\
                                filled_from conn_map signal_map row t s)
        filled filled'.
Proof.
  revert time_col rows filled.
  induction waveform as [|row waveform IH]; intros tc rows filled; simpl.
  { intros [= <- <- <-]. apply fills_refl.
    by intros t s (_ & _ & row & ?%elem_of_nil & _). }
  unfold build_row. destruct (find_time_col row) as [t0|]; [|done].
  cbn [mbind option_bind].
  pose proof (fill_signals_fills row (Dict.keys metadata_map)
                (initial_row signal_map clock_column row t0) filled) as Hrow.
  unfold fill_signals.
  destruct (foldl _ _ _) as [e f1]. cbn [snd mbind option_bind] in *.
  intros Hrest%IH. eapply fills_trans; [|exact Hrow|exact Hrest].
  intros t s. split.
  - intros (? & ? & row' & [->|?]%elem_of_cons & ?); [auto|].
    right. eauto 6.
  - intros [(? & ? & ?)|(? & ? & row' & ? & ?)].
    + split; [done|]. split; [done|]. exists row.
      split; [apply list_elem_of_here|done].
    + split; [done|]. split; [done|]. exists row'.
      split; [by apply list_elem_of_further|done].
Qed.

End filled_facts.

(** X10: the record of filled signals that [build_table] keeps lists
    no signal twice and never the clock column; it lists exactly the
    metadata signals that some sampled row fills from a connected
    column, each with the column that the resolver chooses in such a
    row. *)
Theorem filled_signals_recorded
    (enum : list string -> list string)
    (metadata_map : Metadata) (clock_signals : list string)
    (waveform : list Row) (connectivity : option (list Connection))
    (t : Table) (filled : Filled) :
  build_table enum metadata_map clock_signals waveform connectivity
  = Some (t, filled) ->
  exists row0,
    head waveform = Some row0 /\
    let signal_map := match_waveform_signals row0 metadata_map in
    let conn_map := build_connection_map enum connectivity in
    let clock_column := find_clock_column signal_map clock_signals in
    NoDup filled.*1 /\
    (forall target source,
       (target, source) ∈ filled ->
       target ∈ Dict.keys metadata_map /\ Some target ≠ clock_column /\
       exists row, row ∈ waveform /\
                   filled_from conn_map signal_map row target source) /\
    (forall row target source,
       row ∈ waveform -> target ∈ Dict.keys metadata_map ->
       Some target ≠ clock_column ->
       filled_from conn_map signal_map row target source ->
       target ∈ filled.*1).
Proof.
  unfold build_table.
  destruct (head waveform) as [row0|] eqn:Hhead; [|done].
  cbn [mbind option_bind].
  destruct (build_rows _ _ _ _ _ _ _ _) as [[[tc rows] f]|] eqn:Hrows; [|done].
  cbn [mbind option_bind].
  destruct tc as [time_col|]; [|done]. cbn [mbind option_bind].
  destruct (df_select _ _) as [values|]; [|done].
  cbn [mbind option_bind]. intros [= _ <-].
  apply build_rows_fills in Hrows as (_ & Hd & Hs & Hc).
  exists row0. split; [done|]. cbv zeta. split; [|split].
  - apply Hd. constructor.
  - intros target source [?%elem_of_nil|?]%Hs; done.
  - intros row target source ? ? ? ?. apply (Hc target source). eauto 6.
Qed.

Lemma filled_signals_recorded_witness :
  exists row0,
    head example_waveform = Some row0 /\
    let filled := [("uart_busy", "soc_tb.dut.u_uart.tx_busy")] in
    let signal_map := match_waveform_signals row0 example_metadata in
    let conn_map := build_connection_map remove_dups (Some [uart_connection]) in
    let clock_column := find_clock_column signal_map ["clk"] in
    NoDup filled.*1 /\
    (forall target source,
       (target, source) ∈ filled ->
       target ∈ Dict.keys example_metadata /\ Some target ≠ clock_column /\
       exists row, row ∈ example_waveform /\
                   filled_from conn_map signal_map row target source) /\
    (forall row target source,
       row ∈ example_waveform -> target ∈ Dict.keys example_metadata ->
       Some target ≠ clock_column ->
       filled_from conn_map signal_map row target source ->
       target ∈ filled.*1).
Proof.
  apply (filled_signals_recorded remove_dups example_metadata ["clk"]
           example_waveform (Some [uart_connection]) example_table).
  vm_compute. reflexivity.
Defined.

(** ** When a table is written, and what it holds *)

Lemma row_built_time_col conn_map metadata_map signal_map clock_column row e :
  row_built conn_map metadata_map signal_map clock_column row e ->
  is_Some (find_time_col row).
Proof. intros (t & f & f' & [-> _]%build_row_Some). by eexists. Qed.

(** The keys of an output row. *)
Lemma row_built_keys_exact conn_map metadata_map signal_map clock_column
    row e k :
  row_built conn_map metadata_map signal_map clock_column row e ->
  k ∈ Dict.keys e <->
  find_time_col row = Some k \/
  (clock_column = Some k /\ truthy k = true) \/
  (k ∈ Dict.keys metadata_map /\ Some k ≠ clock_column).
Proof.
  intros Hbuilt. split; [|apply (row_built_has_key _ _ _ _ _ _ _ Hbuilt)].
  destruct Hbuilt as (t & f & f' & [Ht ->]%build_row_Some).
  unfold fill_signals. intros [Hk|Hk]%fill_signals_keys_go; [|auto].
  cbn [fst] in Hk. unfold initial_row in Hk.
  assert (k ∈ [t] -> find_time_col row = Some k) as Ht'
    by (by intros ->%list_elem_of_singleton).
  destruct clock_column as [c|]; [|auto].
  destruct (truthy c) eqn:Hc; [|auto].
  rewrite dict_keys_set in Hk. destruct (bool_decide _); [auto|].
  apply elem_of_app in Hk as [?| ->%list_elem_of_singleton]; auto.
Qed.

(** X11: [build_table] writes a table exactly when the waveform is not
    empty, every sampled row has a column whose name starts with
    [time_], and the clock column, if one is found, has a name. *)
Theorem build_table_emitted
    (enum : list string -> list string)
    (metadata_map : Metadata) (clock_signals : list string)
    (waveform : list Row) (connectivity : option (list Connection)) :
  is_Some (build_table enum metadata_map clock_signals waveform connectivity)
  <->
  exists row0,
    head waveform = Some row0 /\
    Forall (fun row => is_Some (find_time_col row)) waveform /\
    find_clock_column (match_waveform_signals row0 metadata_map) clock_signals
    ≠ Some "".
Proof.
  split.
  - intros [[t filled] Hbuild].
    destruct (build_table_Some _ _ _ _ _ _ _ Hbuild)
      as (row0 & last_row & time_col & rows & Hhead & _ & _ & Hrows & _).
    exists row0. split; [done|]. split.
    + apply Forall_forall. intros row [i Hi]%list_elem_of_lookup.
      destruct (Forall2_lookup_l _ _ _ _ _ Hrows Hi) as (e & _ & Hbuilt).
      by eapply row_built_time_col.
    + intros Hclock.
      by pose proof (build_table_clock_truthy _ _ _ _ _ _ _ _ _
                       Hbuild Hhead Hclock).
  - intros (row0 & Hhead & Htime & Hclock). unfold build_table.
    rewrite Hhead. cbn [mbind option_bind]. cbv zeta.
    set (signal_map := match_waveform_signals row0 metadata_map) in *.
    set (conn_map := build_connection_map enum connectivity).
    set (clock_column := find_clock_column signal_map clock_signals) in *.
    destruct (build_rows_total conn_map metadata_map signal_map clock_column
                waveform None [] [] Htime) as [[[tc rows] f] Hrows].
    rewrite Hrows. cbn [mbind option_bind].
    apply build_rows_Some in Hrows as (new & -> & Hall & ->).
    destruct (last waveform) as [last_row|] eqn:Hlast.
    2: { apply last_None in Hlast. by rewrite Hlast in Hhead. }
    pose proof (last_Some_elem_of _ _ Hlast) as Hin.
    rewrite Forall_forall in Htime.
    destruct (Htime _ Hin) as [time_col Htc]. rewrite Htc.
    cbn [mbind option_bind app].
    unfold df_select.
    destruct (forallb _ _) eqn:E; [by eexists|]. exfalso.
    apply not_true_iff_false in E. apply E. clear E.
    apply forallb_forall. intros c Hc%list_elem_of_In.
    apply bool_decide_eq_true.
    apply list_elem_of_lookup in Hin as [i Hi].
    destruct (Forall2_lookup_l _ _ _ _ _ Hall Hi) as (e & He & Hbuilt).
    apply (df_columns_complete _ e); [by eapply list_elem_of_lookup_2|].
    apply (row_built_has_key _ _ _ _ _ _ _ Hbuilt).
    unfold column_order, clock_truthy in Hc.
    destruct clock_column as [cl|] eqn:Hcl.
    + destruct (truthy cl) eqn:Htruthy.
      * rewrite !elem_of_app, !list_elem_of_singleton in Hc. simpl in Hc.
        destruct Hc as [[->|Hc]|Hc]; [auto| |].
        -- apply list_elem_of_singleton in Hc as ->. auto.
        -- apply list_elem_of_In, filter_In in Hc as [Hc Hnot%negb_true_iff].
           apply bool_decide_eq_false in Hnot. right. right.
           split; [by apply list_elem_of_In|]. intros [= ->]. apply Hnot.
           apply list_elem_of_further, list_elem_of_here.
      * unfold truthy in Htruthy. apply negb_false_iff in Htruthy.
        apply String.eqb_eq in Htruthy. by subst cl.
    + rewrite elem_of_app, list_elem_of_singleton in Hc.
      destruct Hc as [->|Hc]; [auto|].
      apply list_elem_of_In, filter_In in Hc as [Hc _].
      right. right. split; [by apply list_elem_of_In|done].
Qed.

(** X12: in a written table only a cell of the first column can be
    missing: the cell of a sampled row whose time column is not the one
    of the last row, unless the metadata map has a signal of that name.
    Every other cell holds a value. *)
Theorem build_table_missing_cells
    (enum : list string -> list string)
    (metadata_map : Metadata) (clock_signals : list string)
    (waveform : list Row) (connectivity : option (list Connection))
    (t : Table) (filled : Filled) :
  build_table enum metadata_map clock_signals waveform connectivity
  = Some (t, filled) ->
  exists last_row time_col,
    last waveform = Some last_row /\ find_time_col last_row = Some time_col /\
    forall i row cells,
      waveform !! i = Some row -> data_rows t !! i = Some cells ->
      (forall j, 0 < j -> cells !! j ≠ Some None) /\
      (cells !! 0 = Some None <->
       find_time_col row ≠ Some time_col /\
       time_col ∉ Dict.keys metadata_map).
Proof.
  intros Hbuild.
  destruct (build_table_Some _ _ _ _ _ _ _ Hbuild)
    as (row0 & last_row & time_col & rows & Hhead & Hlast & Htime
        & Hrows & _ & ->).
  exists last_row, time_col. do 2 (split; [done|]).
  cbv zeta in Hrows. cbn [data_rows].
  set (signal_map := match_waveform_signals row0 metadata_map) in *.
  set (conn_map := build_connection_map enum connectivity) in *.
  assert (forall c, find_clock_column signal_map clock_signals = Some c ->
                    truthy c = true) as Hclock.
  { intros c. by apply (build_table_clock_truthy _ _ _ _ _ _ _ _ _ Hbuild). }
  assert (forall c, find_clock_column signal_map clock_signals = Some c ->
                    c ∈ Dict.keys metadata_map) as Hclock_key.
  { intros c. apply find_clock_column_key. }
  destruct (find_clock_column signal_map clock_signals) as [cl|] eqn:Hcl.
  all: intros i row cells Hi Hcells.
  all: destruct (Forall2_lookup_l _ _ _ _ _ Hrows Hi) as (e & He & Hbuilt).
  all: rewrite list_lookup_fmap, He in Hcells; injection Hcells as <-.
  all: pose proof (row_built_keys_exact _ _ _ _ _ _ time_col Hbuilt) as Hkeys.
  all: pose proof (fun k => row_built_has_key _ _ _ _ _ _ k Hbuilt) as Hhas.
  all: unfold column_order, clock_truthy.
  all: apply find_time_col_prefix in Htime as [_ Htime%time_col_truthy].
  - rewrite (Hclock cl) by done. cbn [option_list app]. split.
    + intros j Hj. rewrite list_lookup_fmap.
      destruct j as [|[|j]]; [lia|..]; simpl.
      * intros [= Hnone]. apply dict_get_None in Hnone. apply Hnone, Hhas.
        right. left. auto.
      * destruct (_ !! j) as [col|] eqn:Hcol; [|done]. simpl.
        intros [= Hnone]. apply dict_get_None in Hnone.
        apply list_elem_of_lookup_2, list_elem_of_In, filter_In in Hcol
          as [Hcol Hnot%negb_true_iff].
        apply bool_decide_eq_false in Hnot. apply Hnone, Hhas.
        right. right. split; [by apply list_elem_of_In|]. intros [= ->].
        apply Hnot. apply list_elem_of_further, list_elem_of_here.
    + rewrite list_lookup_fmap. simpl.
      split.
      * intros [= Hnone]. apply dict_get_None in Hnone.
        rewrite Hkeys in Hnone. split; [tauto|]. intros Hmd.
        destruct (decide (cl = time_col)) as [->|Hne].
        -- apply Hnone. right. left. auto.
        -- apply Hnone. right. right. split; [done|]. congruence.
      * intros [Hne Hmd]. f_equal. apply dict_get_None. rewrite Hkeys.
        intros [?|[[[= ->] _]|[? _]]]; [done| |done].
        by apply Hmd, Hclock_key.
  - split.
    + intros j Hj. destruct j as [|j]; [lia|]. simpl.
      change (list_fmap string (option string) ?f ?l) with (f <$> l).
      rewrite list_lookup_fmap.
      destruct (_ !! j) as [col|] eqn:Hcol; [|done]. simpl.
      intros [= Hnone]. apply dict_get_None in Hnone.
      apply list_elem_of_lookup_2, list_elem_of_In, filter_In in Hcol
        as [Hcol _].
      apply Hnone, Hhas. right. right. split; [by apply list_elem_of_In|done].
    + simpl. split.
      * intros [= Hnone]. apply dict_get_None in Hnone.
        rewrite Hkeys in Hnone. split; [tauto|]. intros Hmd.
        apply Hnone. right. right. done.
      * intros [Hne Hmd]. f_equal. apply dict_get_None. rewrite Hkeys.
        intros [?|[[[=] _]|[? _]]]; done.
Qed.

Lemma build_table_missing_cells_witness :
  exists last_row time_col,
    last example_waveform = Some last_row /\
    find_time_col last_row = Some time_col /\
    forall i row cells,
      example_waveform !! i = Some row ->
      data_rows example_table !! i = Some cells ->
      (forall j, 0 < j -> cells !! j ≠ Some None) /\
      (cells !! 0 = Some None <->
       find_time_col row ≠ Some time_col /\
       time_col ∉ Dict.keys example_metadata).
Proof.
  apply (build_table_missing_cells remove_dups example_metadata ["clk"]
           example_waveform (Some [uart_connection]) example_table
           [("uart_busy", "soc_tb.dut.u_uart.tx_busy")]).
  vm_compute. reflexivity.
Defined.

(** ** Tokens of a signal expression *)

Lemma all_app p (a b : string) :
  Str.all p (a +:+ b) = Str.all p a && Str.all p b.
Proof.
  induction a as [|c a IH]; [done|].
  change (String c a +:+ b) with (String c (a +:+ b)). simpl.
  by rewrite IH, andb_assoc.
Qed.

Lemma all_rev p (s : string) : Str.all p (String.rev s) = Str.all p s.
Proof.
  induction s as [|c s IH]; [done|].
  rewrite rev_cons, all_app, IH. simpl. rewrite andb_true_r. apply andb_comm.
Qed.

Lemma is_identifier_snoc s c :
  is_identifier s = true -> is_word c = true ->
  is_identifier (s +:+ String c "") = true.
Proof.
  destruct s as [|a s]; [done|].
  change (String a s +:+ String c "") with (String a (s +:+ String c "")).
  simpl. intros [-> Hs]%andb_true_iff Hc. rewrite all_app, Hs. simpl.
  by rewrite Hc.
Qed.

Lemma tokenize_go_identifiers cur expr :
  (forall tok, cur = Some tok -> is_identifier (String.rev tok) = true) ->
  Forall (fun t => is_identifier t = true) (tokenize_go cur expr).
Proof.
  revert cur. induction expr as [|c expr IH]; intros cur Hcur; simpl.
  { destruct cur as [tok|]; simpl; [|constructor].
    constructor; [by apply Hcur|constructor]. }
  destruct cur as [tok|].
  - destruct (is_word c) eqn:Hc.
    + apply IH. intros tok' [= <-]. rewrite rev_cons.
      apply is_identifier_snoc; [by apply Hcur|done].
    + constructor; [by apply Hcur|]. apply IH. by intros tok' [=].
  - destruct (is_ident_start c) eqn:Hc.
    + apply IH. intros tok' [= <-]. simpl. by rewrite Hc.
    + apply IH. by intros tok' [=].
Qed.

Lemma tokenize_go_word_run tok expr :
  Str.all is_word expr = true ->
  tokenize_go (Some tok) expr = [String.rev tok +:+ expr].
Proof.
  revert tok. induction expr as [|c expr IH]; intros tok; simpl.
  { intros _. by rewrite string_app_nil_r. }
  intros [-> Hexpr]%andb_true_iff. rewrite IH by done.
  by rewrite rev_cons, string_app_assoc.
Qed.

Lemma tokenize_go_Some_nonempty tok expr : tokenize_go (Some tok) expr ≠ [].
Proof.
  revert tok. induction expr as [|c expr IH]; intros tok; simpl; [done|].
  destruct (is_word c); [apply IH|done].
Qed.

Lemma tokenize_go_None_nil expr :
  tokenize_go None expr = [] <->
  Str.all (fun c => negb (is_ident_start c)) expr = true.
Proof.
  induction expr as [|c expr IH]; simpl; [done|].
  destruct (is_ident_start c); simpl; [|done].
  split; [|done]. intros H. by apply tokenize_go_Some_nonempty in H.
Qed.

(** X13: every token of a signal expression is an identifier; an
    expression is its own single token exactly when it is an identifier;
    and there is no token exactly when no letter and no underscore
    occurs in the expression. *)
Theorem tokenize_signal_expr_identifiers (expr : string) :
  Forall (fun t => is_identifier t = true) (tokenize_signal_expr expr) /\
  (tokenize_signal_expr expr = [expr] <-> is_identifier expr = true) /\
  (tokenize_signal_expr expr = [] <->
   Str.all (fun c => negb (is_ident_start c)) expr = true).
Proof.
  assert (Forall (fun t => is_identifier t = true) (tokenize_signal_expr expr))
    as Hall by (apply tokenize_go_identifiers; by intros tok [=]).
  split; [done|]. split; [|apply tokenize_go_None_nil]. split.
  - intros H. rewrite H in Hall. by inversion_clear Hall.
  - destruct expr as [|c expr]; [done|]. simpl.
    intros [Hc Hexpr]%andb_true_iff. unfold tokenize_signal_expr. simpl.
    rewrite Hc. by rewrite tokenize_go_word_run.
Qed.

(** ** Stripped text *)

Lemma all_drop_while q p s :
  Str.all q s = true -> Str.all q (Str.drop_while p s) = true.
Proof.
  induction s as [|c s IH]; simpl; [done|].
  intros [Hc Hs]%andb_true_iff. destruct (p c); [auto|].
  simpl. by rewrite Hc, Hs.
Qed.

Lemma drop_while_idem p s :
  Str.drop_while p (Str.drop_while p s) = Str.drop_while p s.
Proof.
  induction s as [|c s IH]; simpl; [done|].
  destruct (p c) eqn:E; [done|]. simpl. by rewrite E.
Qed.

Lemma drop_while_app p (a b : string) :
  Str.drop_while p (a +:+ b) =
  if Str.all p a then Str.drop_while p b else Str.drop_while p a +:+ b.
Proof.
  induction a as [|c a IH]; [done|].
  change (String c a +:+ b) with (String c (a +:+ b)). simpl.
  destruct (p c); [by rewrite IH|done].
Qed.

Lemma rstrip_cons c s :
  Str.rstrip (String c s) =
  if Str.all is_space (String c s) then "" else String c (Str.rstrip s).
Proof.
  unfold Str.rstrip. rewrite rev_cons, drop_while_app, all_rev.
  cbn [Str.all]. destruct (Str.all is_space s) eqn:Hs.
  - rewrite andb_true_r. rewrite <-all_rev in Hs.
    rewrite (drop_while_all _ _ Hs). cbn [Str.drop_while].
    by destruct (is_space c).
  - rewrite andb_false_r, rev_app_distr. done.
Qed.

Lemma all_rstrip q s : Str.all q s = true -> Str.all q (Str.rstrip s) = true.
Proof.
  intros H. unfold Str.rstrip. rewrite all_rev. apply all_drop_while.
  by rewrite all_rev.
Qed.

Lemma all_strip q s : Str.all q s = true -> Str.all q (Str.strip s) = true.
Proof. intros H. by apply all_rstrip, all_drop_while. Qed.

Lemma rstrip_not_blank s :
  Str.all is_space s = false -> Str.all is_space (Str.rstrip s) = false.
Proof.
  induction s as [|c s IH]; [done|]. intros H. rewrite rstrip_cons, H.
  cbn [Str.all] in *. destruct (is_space c); [|done]. simpl in *. auto.
Qed.

Lemma rstrip_idem s : Str.rstrip (Str.rstrip s) = Str.rstrip s.
Proof.
  induction s as [|c s IH]; [done|]. rewrite rstrip_cons.
  destruct (Str.all is_space (String c s)) eqn:H; [done|].
  rewrite rstrip_cons, IH.
  assert (Str.all is_space (String c (Str.rstrip s)) = false) as ->; [|done].
  cbn [Str.all] in *. destruct (is_space c); [|done]. simpl in *.
  by apply rstrip_not_blank.
Qed.

Lemma lstrip_rstrip_fixed u :
  Str.lstrip u = u -> Str.lstrip (Str.rstrip u) = Str.rstrip u.
Proof.
  destruct u as [|c s]; [done|]. unfold Str.lstrip. cbn [Str.drop_while].
  destruct (is_space c) eqn:Hc.
  { intros H. pose proof (drop_while_length is_space s) as Hlen.
    rewrite H in Hlen. simpl in Hlen. lia. }
  intros _. rewrite rstrip_cons. cbn [Str.all]. rewrite Hc. cbn [andb].
  cbn [Str.drop_while]. by rewrite Hc.
Qed.

Lemma strip_idem s : Str.strip (Str.strip s) = Str.strip s.
Proof.
  unfold Str.strip. rewrite lstrip_rstrip_fixed.
  - apply rstrip_idem.
  - apply drop_while_idem.
Qed.

Lemma strip_blank s : Str.all is_space s = true -> Str.strip s = "".
Proof.
  intros H. unfold Str.strip, Str.lstrip. by rewrite (drop_while_all _ _ H).
Qed.

(** ** The lines of a file *)

Lemma lines_go_no_break cur content :
  Str.all (fun c => negb (is_line_break c)) cur = true ->
  Forall (fun line => Str.all (fun c => negb (is_line_break c)) line = true)
         (lines_go cur content).
Proof.
  revert cur. induction content as [|c content IH]; intros cur Hcur; simpl.
  { constructor; [by rewrite all_rev|constructor]. }
  destruct (is_line_break c) eqn:Hc.
  - constructor; [by rewrite all_rev|]. by apply IH.
  - apply IH. simpl. by rewrite Hc.
Qed.

(** X14: every line that the analysis works on is free of line
    breaks, holds a character that is not white space and ends with
    one: blank lines are dropped and trailing white space is removed. *)
Theorem rtl_lines_clean (content : string) :
  Forall (fun line =>
            Str.all (fun c => negb (is_line_break c)) line = true /\
            Str.all is_space line = false /\
            Str.rstrip line = line)
         (rtl_lines_of content).
Proof.
  unfold rtl_lines_of. apply Forall_fmap, Forall_forall.
  intros line [Hin Hline]%list_elem_of_In%filter_In. simpl.
  apply list_elem_of_In in Hin.
  pose proof (lines_go_no_break "" content eq_refl) as Hall.
  rewrite Forall_forall in Hall.
  assert (Str.all is_space line = false) as Hblank.
  { destruct (Str.all is_space line) eqn:E; [|done].
    by rewrite (strip_blank _ E) in Hline. }
  split; [by apply all_rstrip, Hall|].
  split; [by apply rstrip_not_blank|apply rstrip_idem].
Qed.

(** ** Port bindings and instances *)

(** Every result of a scan is a match of the matcher somewhere. *)
Lemma elem_of_findall_go {A} (m : option ascii -> string -> option (A * string))
    prev skip s a :
  a ∈ Re.findall_go m prev skip s ->
  exists prev' s' rest, m prev' s' = Some (a, rest).
Proof.
  revert prev skip. induction s as [|c s IH]; intros prev skip; simpl.
  { by intros ?%elem_of_nil. }
  destruct skip as [|k]; [|apply IH].
  destruct (m prev (String c s)) as [[a' rest]|] eqn:E; [|apply IH].
  intros [->|?]%elem_of_cons; [eauto|by eapply IH].
Qed.

Lemma take_while_all p s : Str.all p (Str.take_while p s) = true.
Proof.
  induction s as [|c s IH]; simpl; [done|].
  destruct (p c) eqn:E; [|done]. simpl. by rewrite E, IH.
Qed.

Lemma capture1_Some p s x r :
  Re.capture1 p s = Some (x, r) ->
  x ≠ "" /\ Str.all p x = true /\ r = Str.drop_while p s.
Proof.
  unfold Re.capture1. destruct s as [|c s]; [done|].
  destruct (p c) eqn:E; [|done]. intros [= <- <-].
  split; [|split; [exact (take_while_all p (String c s))|done]].
  by rewrite E.
Qed.

Lemma capture1_word_run s x r :
  Re.capture1 is_word s = Some (x, r) -> is_word_run x = true.
Proof.
  intros (Hne & Hall & _)%capture1_Some. unfold is_word_run, truthy.
  rewrite Hall, andb_true_r. apply negb_true_iff.
  by apply String.eqb_neq.
Qed.

Lemma port_pair_Some prev s p sig rest :
  port_pair prev s = Some ((p, sig), rest) ->
  is_word_run p = true /\ Str.strip sig = sig /\
  Str.all (fun c => negb (Ascii.eqb c ")")) sig = true.
Proof.
  unfold port_pair.
  destruct (Re.lit "." s) as [r0|]; [|done]. cbn [mbind option_bind].
  destruct (Re.capture1 is_word r0) as [[p' r1]|] eqn:Hp; [|done].
  cbn [mbind option_bind].
  destruct (Re.lit "(" _) as [r2|]; [|done]. cbn [mbind option_bind].
  destruct (Re.capture1 _ r2) as [[t r3]|] eqn:Ht; [|done].
  cbn [mbind option_bind].
  destruct (Re.lit ")" r3) as [r4|]; [|done]. cbn [mbind option_bind].
  intros [= <- <- <-].
  apply capture1_Some in Ht as (_ & Ht & _).
  split; [by eapply capture1_word_run|].
  split; [apply strip_idem|by apply all_strip].
Qed.

(** X15: every binding that [extract_port_pairs] returns has a port
    name of word characters, not empty, and a signal expression without
    a closing parenthesis and without white space around it. *)
Theorem extract_port_pairs_shape (port_block : string) :
  Forall (fun '(p, sig) =>
            is_word_run p = true /\ Str.strip sig = sig /\
            Str.all (fun c => negb (Ascii.eqb c ")")) sig = true)
         (extract_port_pairs port_block).
Proof.
  apply Forall_forall. intros [p sig] Hin.
  apply elem_of_findall_go in Hin as (prev & s & rest & H).
  by eapply port_pair_Some.
Qed.

Lemma search_go_Some {A} (m : option ascii -> string -> option (A * string))
    prev s r :
  Re.search_go m prev s = Some r -> exists prev' s', m prev' s' = Some r.
Proof.
  revert prev. induction s as [|c s IH]; intros prev; simpl; [done|].
  destruct (m prev (String c s)) as [r'|] eqn:E; [|apply IH].
  intros [= <-]. eauto.
Qed.

Lemma ident_Some s name r : ident s = Some (name, r) -> is_identifier name = true.
Proof.
  unfold ident. destruct s as [|c s]; [done|].
  destruct (is_ident_start c) eqn:Hc; [|done].
  unfold Re.capture1. destruct (is_word c) eqn:Hw; [|done].
  intros [= <- _]. cbn [Str.take_while]. rewrite Hw. simpl.
  by rewrite Hc, take_while_all.
Qed.

Lemma inst_head_Some s name r :
  inst_head s = Some (name, r) -> is_identifier name = true.
Proof.
  unfold inst_head.
  destruct (Re.many1 is_space s) as [r0|]; [|done]. cbn [mbind option_bind].
  destruct (ident r0) as [[name' r1]|] eqn:E; [|done].
  cbn [mbind option_bind].
  destruct (Re.lit "(" _) as [r2|]; [|done]. cbn [mbind option_bind].
  intros [= <- _]. by eapply ident_Some.
Qed.

Lemma inline_inst_Some line sub name :
  inline_inst line = Some (sub, name) ->
  is_word_run sub = true /\ is_identifier name = true.
Proof.
  unfold inline_inst.
  destruct (Re.capture1 is_word _) as [[sub' r]|] eqn:Hsub; [|done].
  cbn [mbind option_bind]. apply capture1_word_run in Hsub.
  assert (forall s,
    ('(name, _) ← inst_head s; Some (sub', name)) = Some (sub, name) ->
    is_word_run sub = true /\ is_identifier name = true) as Hhead.
  { intros s. destruct (inst_head s) as [[n r']|] eqn:E; [|done].
    cbn [mbind option_bind]. intros [= <- <-].
    split; [done|by eapply inst_head_Some]. }
  destruct (params _) as [r'|]; [|apply Hhead].
  destruct (inst_head r') as [[n r'']|] eqn:E; [|apply Hhead].
  intros [= <- <-]. split; [done|by eapply inst_head_Some].
Qed.

Lemma params_start_Some line sub :
  params_start line = Some sub -> is_word_run sub = true.
Proof.
  unfold params_start.
  destruct (Re.capture1 is_word _) as [[sub' r]|] eqn:Hsub; [|done].
  cbn [mbind option_bind].
  destruct (Re.lit "#" _) as [r0|]; [|done]. cbn [mbind option_bind].
  destruct (Re.lit "(" _) as [r1|]; [|done]. cbn [mbind option_bind].
  intros [= <-]. by eapply capture1_word_run.
Qed.

Lemma find_inst_line_Some ls j name idx :
  find_inst_line ls j = Some (name, idx) -> is_identifier name = true.
Proof.
  revert j; induction ls as [|raw ls IH]; intros j; simpl; [done|].
  destruct (Re.search closing_inst (strip_comments raw)) as [[n r]|] eqn:E;
    [|apply IH].
  intros [= <- _]. apply search_go_Some in E as (prev & s & E).
  unfold closing_inst in E. destruct (Re.lit ")" s) as [r0|]; [|done].
  by eapply inst_head_Some.
Qed.

Lemma connections_of_ok port_block :
  NoDup (Dict.keys (connections_of port_block)) /\
  Forall binding_ok (connections_of port_block).
Proof.
  unfold connections_of, extract_port_pairs.
  pose proof (fun b (H : b ∈ Re.findall port_pair port_block) =>
                elem_of_findall_go port_pair None 0 port_block b H) as Hshape.
  revert Hshape.
  induction (Re.findall port_pair port_block) as [|[p sig] pairs IH]
    using rev_ind; intros Hshape.
  { split; [constructor|constructor]. }
  rewrite foldl_snoc. cbv beta iota.
  destruct IH as [Hnd Hall].
  { intros b Hb. apply Hshape, elem_of_app. by left. }
  split.
  - rewrite dict_keys_set. case_bool_decide as Hp; [done|].
    apply NoDup_app. split; [done|]. split; [|apply NoDup_singleton].
    by intros k Hk ->%list_elem_of_singleton.
  - apply Forall_forall. intros b [Hb| ->]%dict_elem_of_set.
    + rewrite Forall_forall in Hall. auto.
    + destruct (Hshape (p, sig)) as (prev & s & rest & H).
      { apply elem_of_app. right. apply list_elem_of_here. }
      by eapply port_pair_Some.
Qed.

Lemma read_instance_ok rtl_lines sub name start :
  is_word_run sub = true -> is_identifier name = true ->
  instance_ok (read_instance rtl_lines sub name start).1.
Proof.
  intros Hsub Hname. unfold read_instance.
  destruct (accumulate_until_close rtl_lines start) as [block i]. cbn [fst].
  destruct (connections_of_ok (port_block_of name block)) as [Hnd Hall].
  by repeat split.
Qed.

(** The result of an iteration that finds an instance. *)
Lemma inst_step_found rtl_lines i inst i' :
  inst_step rtl_lines i = (Some inst, i') -> i + 2 <= i' /\ instance_ok inst.
Proof.
  unfold inst_step. cbv zeta.
  destruct (inline_inst _) as [[sub name]|] eqn:Hinline.
  { apply inline_inst_Some in Hinline as [Hsub Hname].
    pose proof (read_instance_index rtl_lines sub name i) as Hidx.
    pose proof (read_instance_ok rtl_lines sub name i Hsub Hname) as Hok.
    destruct (read_instance rtl_lines sub name i) as [inst0 i0].
    cbn [fst snd] in *. intros [= <- <-]. split; [lia|done]. }
  destruct (params_start _) as [sub|] eqn:Hparams; [|done].
  destruct (find_inst_line _ i) as [[name idx]|] eqn:E; [|done].
  apply params_start_Some in Hparams.
  pose proof (find_inst_line_Some _ _ _ _ E) as Hname.
  apply find_inst_line_index in E.
  pose proof (read_instance_index rtl_lines sub name idx) as Hidx.
  pose proof (read_instance_ok rtl_lines sub name idx Hparams Hname) as Hok.
  destruct (read_instance rtl_lines sub name idx) as [inst0 i0].
  cbn [fst snd] in *. intros [= <- <-]. split; [lia|done].
Qed.

Lemma instantiations_from_ok fuel rtl_lines i :
  2 * length (instantiations_from fuel rtl_lines i)
  <= length rtl_lines - i + 1 /\
  Forall instance_ok (instantiations_from fuel rtl_lines i).
Proof.
  revert i. induction fuel as [|fuel IH]; intros i; simpl.
  { split; [lia|constructor]. }
  case_bool_decide as Hi; [|split; [simpl; lia|constructor]].
  pose proof (inst_step_index rtl_lines i) as Hnext.
  pose proof (inst_step_found rtl_lines i) as Hfound.
  destruct (inst_step rtl_lines i) as [[inst|] i']; cbn [snd] in Hnext.
  - destruct (Hfound inst i' eq_refl) as [Hskip Hok].
    destruct (IH i') as [Hlen Hall]. split.
    + simpl. lia.
    + by constructor.
  - destruct (IH i') as [Hlen Hall]. split; [simpl; lia|done].
Qed.

Lemma detect_instantiations_ok_all rtl_lines :
  Forall instance_ok (detect_instantiations rtl_lines).
Proof. apply instantiations_from_ok. Qed.

(** X16: [detect_instantiations] ends, whatever the lines are: the
    loop needs at most as many iterations as there are lines. After an
    instance found at one line the scan goes on two lines further at
    least, so that the line after the first line of an instance never
    starts another one, and there is at most one instance for every two
    lines. Every instance has a module type of word characters, an
    identifier as its name, and bindings with distinct port names, each
    of the shape that [extract_port_pairs] gives. *)
Theorem detect_instantiations_shape (rtl_lines : list string) :
  (forall fuel,
     length rtl_lines <= fuel ->
     instantiations_from fuel rtl_lines 0 = detect_instantiations rtl_lines) /\
  (forall i inst i', inst_step rtl_lines i = (Some inst, i') -> i + 2 <= i') /\
  2 * length (detect_instantiations rtl_lines) <= length rtl_lines + 1 /\
  Forall instance_ok (detect_instantiations rtl_lines).
Proof.
  split; [|split; [|split]].
  - intros fuel Hfuel. unfold detect_instantiations.
    apply instantiations_from_fuel; lia.
  - intros i inst i' H. by apply inst_step_found in H as [? _].
  - unfold detect_instantiations.
    destruct (instantiations_from_ok (length rtl_lines) rtl_lines 0). lia.
  - apply instantiations_from_ok.
Qed.

(** ** The analysed system *)

Lemma detect_module_name_word_run rtl_lines :
  is_word_run (detect_module_name rtl_lines) = true.
Proof.
  induction rtl_lines as [|raw rest IH]; simpl; [by vm_compute|].
  destruct (module_decl _) as [[name r]|] eqn:E; [|done].
  unfold module_decl in E.
  destruct (Re.lit "module" _) as [r0|]; [|done]. cbn [mbind option_bind] in E.
  destruct (Re.many1 is_space r0) as [r1|]; [|done].
  cbn [mbind option_bind] in E. by eapply capture1_word_run.
Qed.

Lemma analyze_file_fields system text :
  let rtl_lines := rtl_lines_of (strip_comments text) in
  let name := detect_module_name rtl_lines in
  Dict.keys (modules (analyze_file system text)) =
    (if bool_decide (name ∈ Dict.keys (modules system))
     then Dict.keys (modules system)
     else Dict.keys (modules system) ++ [name]) /\
  connections (analyze_file system text) =
    connections system ++
    (inst ← detect_instantiations rtl_lines;
     connections_of_instance name inst).
Proof.
  unfold analyze_file. cbv zeta.
  destruct (detect_ports_and_signals _) as [ps ss]. cbn [modules connections].
  by rewrite dict_keys_set.
Qed.

Lemma elem_of_connections_of_instance name inst conn :
  conn ∈ connections_of_instance name inst ->
  parent_module conn = name /\ child_module conn = submodule inst /\
  instance conn = inst_name inst /\
  (child_port conn, parent_signal conn) ∈ inst_connections inst.
Proof.
  unfold connections_of_instance.
  intros ([p sig] & -> & Hin)%list_elem_of_fmap. by repeat split.
Qed.

(** X17: in the system that [analyze_system] builds the module names
    are distinct, at most one per file, and each is a run of word
    characters; every connection hangs below a recorded module, names a
    module type and an instance, and binds a port as
    [extract_port_pairs] gives it; and the connections are those of the
    files, one file after the other. *)
Theorem analyze_system_invariants (files : list string) :
  let system := analyze_system files in
  NoDup (Dict.keys (modules system)) /\
  length (modules system) <= length files /\
  (forall name,
     name ∈ Dict.keys (modules system) -> is_word_run name = true) /\
  (forall conn,
     conn ∈ connections system ->
     parent_module conn ∈ Dict.keys (modules system) /\
     is_word_run (child_module conn) = true /\
     is_identifier (instance conn) = true /\
     binding_ok (child_port conn, parent_signal conn)) /\
  connections system =
    (text ← files; connections (analyze_file (mkSystem [] []) text)).
Proof.
  cbv zeta. induction files as [|text files IH] using rev_ind.
  { split; [constructor|]. split; [done|].
    split; [by intros name ?%elem_of_nil|].
    split; [by intros conn ?%elem_of_nil|done]. }
  rewrite analyze_system_snoc.
  destruct IH as (Hnd & Hlen & Hnames & Hconns & Heq).
  destruct (analyze_file_fields (analyze_system files) text) as [Hkeys Hc].
  destruct (analyze_file_fields (mkSystem [] []) text) as [_ Hc0].
  cbv zeta in Hkeys, Hc, Hc0. cbn [connections app] in Hc0.
  set (rtl_lines := rtl_lines_of (strip_comments text)) in *.
  set (name := detect_module_name rtl_lines) in *.
  assert (name ∈ Dict.keys (modules (analyze_file (analyze_system files) text)))
    as Hname.
  { rewrite Hkeys. case_bool_decide; [done|].
    apply elem_of_app. right. apply list_elem_of_here. }
  assert (forall k, k ∈ Dict.keys (modules (analyze_system files)) ->
            k ∈ Dict.keys (modules (analyze_file (analyze_system files) text)))
    as Hmono.
  { intros k Hk. rewrite Hkeys. case_bool_decide; [done|].
    apply elem_of_app. by left. }
  split; [|split; [|split; [|split]]].
  - rewrite Hkeys. case_bool_decide as Hin; [done|].
    apply NoDup_app. split; [done|]. split; [|apply NoDup_singleton].
    by intros k Hk ->%list_elem_of_singleton.
  - rewrite length_app. cbn [length].
    rewrite <-(length_fmap fst (modules (analyze_file _ _))).
    rewrite <-(length_fmap fst) in Hlen.
    change (length (Dict.keys (modules (analyze_file (analyze_system files)
                                                      text)))
            <= length files + 1).
    change (length (Dict.keys (modules (analyze_system files)))
            <= length files) in Hlen.
    rewrite Hkeys. case_bool_decide; [lia|]. rewrite length_app. simpl. lia.
  - intros k. rewrite Hkeys. case_bool_decide; [apply Hnames|].
    intros [?| ->%list_elem_of_singleton]%elem_of_app; [auto|].
    apply detect_module_name_word_run.
  - intros conn. rewrite Hc.
    intros [Hin|(inst & Hconn & Hinst)%list_elem_of_bind]%elem_of_app.
    + destruct (Hconns conn Hin) as (? & ? & ? & ?). auto.
    + apply elem_of_connections_of_instance in Hconn as (-> & -> & -> & Hb).
      pose proof (detect_instantiations_ok_all rtl_lines) as Hall.
      rewrite Forall_forall in Hall.
      destruct (Hall inst Hinst) as (? & ? & _ & Hbind).
      rewrite Forall_forall in Hbind. by auto.
  - rewrite Hc, Heq, bind_app. f_equal.
    rewrite bind_cons. change (@nil string ≫= _) with (@nil Connection).
    by rewrite app_nil_r.
Qed.

(** ** Declared widths *)

Lemma add_names_lookup (w : Width) ws (decls : gmap string Width) name :
  foldl (fun decls name =>
      if bool_decide (name ∈ decl_keywords) then decls
      else <[name := w]> decls) decls ws !! name =
  if bool_decide (name ∈ ws) && negb (bool_decide (name ∈ decl_keywords))
  then Some w else decls !! name.
Proof.
  induction ws as [|x ws IH] using rev_ind.
  { cbn [foldl]. rewrite bool_decide_eq_false_2; [done|].
    by intros ?%elem_of_nil. }
  rewrite foldl_snoc. destruct (decide (x = name)) as [->|Hne].
  - rewrite (bool_decide_eq_true_2 (name ∈ ws ++ [name]))
      by (apply elem_of_app; right; apply list_elem_of_here).
    destruct (bool_decide (name ∈ decl_keywords)); cbn [andb negb].
    + rewrite IH. by rewrite andb_false_r.
    + by rewrite lookup_insert_eq.
  - assert (bool_decide (name ∈ ws ++ [x]) = bool_decide (name ∈ ws)) as ->.
    { apply bool_decide_ext. rewrite elem_of_app, list_elem_of_singleton.
      split; [intros [?|?]; done|auto]. }
    destruct (bool_decide (x ∈ decl_keywords)); [done|].
    by rewrite lookup_insert_ne.
Qed.

Lemma add_declarations_lookup decls line name :
  add_declarations decls line !! name =
  if declares name (Str.strip line)
  then Some (declared_width (Str.strip line))
  else decls !! name.
Proof.
  unfold add_declarations, declares. cbv zeta.
  destruct (decl_start (Str.strip line)); [|done].
  rewrite add_names_lookup. done.
Qed.

Lemma extract_signal_declarations_lookup rtl_lines name :
  extract_signal_declarations rtl_lines !! name =
  declared_width <$>
    last (List.filter (declares name) (Str.strip <$> rtl_lines)).
Proof.
  unfold extract_signal_declarations.
  induction rtl_lines as [|line rtl_lines IH] using rev_ind; [done|].
  rewrite foldl_snoc, add_declarations_lookup, IH.
  rewrite fmap_app, List.filter_app. cbn [fmap list_fmap List.filter].
  destruct (declares name (Str.strip line)).
  - by rewrite last_snoc.
  - by rewrite app_nil_r.
Qed.

Lemma numeric_range_positive prev s w r :
  numeric_range prev s = Some (w, r) -> (1 <= w)%Z.
Proof.
  unfold numeric_range.
  destruct (Re.lit "[" s) as [r0|]; [|done]. cbn [mbind option_bind].
  destruct (Re.capture1 is_digit r0) as [[msb r1]|]; [|done].
  cbn [mbind option_bind].
  destruct (Re.lit ":" _) as [r2|]; [|done]. cbn [mbind option_bind].
  destruct (Re.capture1 is_digit _) as [[lsb r3]|]; [|done].
  cbn [mbind option_bind].
  destruct (Re.lit "]" r3) as [r4|]; [|done]. cbn [mbind option_bind].
  intros [= <- _]. lia.
Qed.

Lemma symbolic_range_word_run prev s name r :
  symbolic_range prev s = Some (name, r) -> is_word_run name = true.
Proof.
  unfold symbolic_range.
  destruct (Re.lit "[" s) as [r0|]; [|done]. cbn [mbind option_bind].
  destruct (Re.capture1 is_word r0) as [[name' r1]|] eqn:E; [|done].
  cbn [mbind option_bind].
  destruct (Re.lit ":" _) as [r2|]; [|done]. cbn [mbind option_bind].
  destruct (Re.lit "0]" _) as [r3|]; [|done]. cbn [mbind option_bind].
  intros [= <- _]. by eapply capture1_word_run.
Qed.

Lemma declared_width_ok line : width_ok (declared_width line).
Proof.
  unfold declared_width.
  destruct (Re.search numeric_range line) as [[w r]|] eqn:E1.
  { apply search_go_Some in E1 as (prev & s & E1).
    by eapply numeric_range_positive. }
  destruct (Re.search symbolic_range line) as [[name r]|] eqn:E2; [|done].
  apply search_go_Some in E2 as (prev & s & E2).
  by eapply symbolic_range_word_run.
Qed.

Lemma extract_signal_declarations_ok rtl_lines name w :
  extract_signal_declarations rtl_lines !! name = Some w -> width_ok w.
Proof.
  rewrite extract_signal_declarations_lookup.
  destruct (last _) as [line|]; [|done]. intros [= <-].
  apply declared_width_ok.
Qed.

Lemma width_of_ok rtl_lines name :
  width_ok (width_of (extract_signal_declarations rtl_lines) name).
Proof.
  unfold width_of.
  destruct (_ !! name) as [w|] eqn:E; [|done].
  by eapply extract_signal_declarations_ok.
Qed.

Lemma rhs_width_of_ok rtl_lines rhs :
  width_ok (rhs_width_of (extract_signal_declarations rtl_lines) rhs).
Proof.
  unfold rhs_width_of.
  destruct (Re.search numeric_range rhs) as [[w r]|] eqn:E1.
  { apply search_go_Some in E1 as (prev & s & E1).
    by eapply numeric_range_positive. }
  destruct (Re.search symbolic_range rhs) as [[name r]|] eqn:E2.
  { apply search_go_Some in E2 as (prev & s & E2).
    by eapply symbolic_range_word_run. }
  apply width_of_ok.
Qed.

(** X18: the width recorded for a name is the one of the last
    declaration line that holds the name as a word, whatever the word
    is there for; declaration keywords are never recorded. Every
    recorded width is a positive number or the name of a parameter, and
    both widths of a reported mismatch are positive. *)
Theorem signal_declarations_exact (rtl_lines : list string) :
  let decls := extract_signal_declarations rtl_lines in
  (forall name,
     decls !! name =
     declared_width <$>
       last (List.filter (declares name) (Str.strip <$> rtl_lines))) /\
  (forall name, name ∈ decl_keywords -> decls !! name = None) /\
  (forall name w, decls !! name = Some w -> width_ok w) /\
  (forall m,
     m ∈ detect_width_mismatches rtl_lines ->
     (1 <= lhs_width m)%Z /\ (1 <= rhs_width m)%Z).
Proof.
  intros decls. split; [apply extract_signal_declarations_lookup|].
  split; [|split; [apply extract_signal_declarations_ok|]].
  - intros name Hkw. subst decls. rewrite extract_signal_declarations_lookup.
    assert (List.filter (declares name) (Str.strip <$> rtl_lines) = [])
      as ->; [|done].
    induction (Str.strip <$> rtl_lines) as [|l ls IH]; [done|]. simpl.
    unfold declares at 1. rewrite (bool_decide_eq_true_2 _ Hkw).
    by rewrite andb_false_r.
  - intros m ([lhs rhs] & Hm & _)%list_elem_of_bind.
    apply elem_of_check_assignment in Hm as (_ & Hl & Hr & _).
    pose proof (width_of_ok rtl_lines lhs) as Hlw.
    pose proof (rhs_width_of_ok rtl_lines rhs) as Hrw.
    rewrite Hl in Hlw. rewrite Hr in Hrw. done.
Qed.

(** ** Port and signal names *)

Lemma range_then_name_word_run s name r :
  range_then_name s = Some (name, r) -> is_word_run name = true.
Proof.
  unfold range_then_name.
  assert (Re.capture1 is_word s = Some (name, r) -> is_word_run name = true)
    as Hplain by apply capture1_word_run.
  destruct s as [|c s']; [done|].
  destruct (Ascii.eqb_spec c "[") as [->|Hne].
  - destruct (Re.many1 _ s') as [r0|]; [|done]. cbn [mbind option_bind].
    destruct (Re.lit "]" r0) as [r1|]; [|done]. cbn [mbind option_bind].
    apply capture1_word_run.
  - destruct c as [[] [] [] [] [] [] [] []]; try exact Hplain.
    by destruct Hne.
Qed.

Lemma port_decl_word_run prev s name r :
  port_decl prev s = Some (name, r) -> is_word_run name = true.
Proof.
  unfold port_decl.
  destruct (Re.alt _ s) as [r0|]; [|done]. cbn [mbind option_bind].
  destruct (Re.many1 is_space r0) as [r1|]; [|done]. cbn [mbind option_bind].
  destruct (Re.alt net_types r1) as [r2|];
    [|apply range_then_name_word_run].
  destruct (range_then_name (Re.many is_space r2)) as [res|] eqn:E;
    [|apply range_then_name_word_run].
  intros [= ->]. by eapply range_then_name_word_run.
Qed.

Lemma signal_decl_word_run prev s name r :
  signal_decl prev s = Some (name, r) -> is_word_run name = true.
Proof.
  unfold signal_decl. destruct (at_word_start prev); [|done].
  destruct (Re.alt net_types s) as [r0|]; [|done]. cbn [mbind option_bind].
  destruct (at_word_end r0); [|done]. apply range_then_name_word_run.
Qed.

Lemma header_lines_go_no_module rtl_lines :
  Forall (fun raw => module_decl (strip_comments raw) = None) rtl_lines ->
  header_lines_go false rtl_lines = [].
Proof.
  induction 1 as [|raw rest Hraw Hrest IH]; simpl; [done|].
  rewrite Hraw. rewrite bool_decide_eq_false_2 by (by intros [? [=]]).
  done.
Qed.

(** X19: every port name and every signal name that
    [detect_ports_and_signals] returns is a run of word characters, not
    empty; and it returns no port when no line opens a module
    declaration: ports are looked for in the module header only. *)
Theorem ports_and_signals_names (rtl_lines : list string) :
  Forall (fun p => is_word_run p = true)
         (detect_ports_and_signals rtl_lines).1 /\
  Forall (fun s => is_word_run s = true)
         (detect_ports_and_signals rtl_lines).2 /\
  (Forall (fun raw => module_decl (strip_comments raw) = None) rtl_lines ->
   (detect_ports_and_signals rtl_lines).1 = []).
Proof.
  unfold detect_ports_and_signals. cbv zeta. cbn [fst snd].
  split; [|split].
  - apply Forall_forall. intros p Hp.
    apply (proj1 (elem_of_sorted_set _ _)) in Hp.
    apply elem_of_findall_go in Hp as (prev & s & rest & H).
    by eapply port_decl_word_run.
  - apply Forall_forall. intros x Hx.
    apply (proj1 (elem_of_sorted_set _ _)) in Hx.
    apply list_elem_of_bind in Hx as (raw & Hx & _).
    apply elem_of_findall_go in Hx as (prev & s & rest & H).
    by eapply signal_decl_word_run.
  - intros Hnone. by rewrite (header_lines_go_no_module _ Hnone).
Qed.

(** ** Comment removal *)

Lemma sub_go_length m skip s :
  String.length (Re.sub_go m skip s) <= String.length s.
Proof.
  revert skip. induction s as [|c s IH]; intros skip; simpl; [lia|].
  destruct skip as [|k]; [|specialize (IH k); lia].
  destruct (m (String c s)) as [rest|].
  - specialize (IH (Re.skip_of (String c s) rest)). lia.
  - specialize (IH 0). simpl. lia.
Qed.

(** Text in which the matcher matches nowhere is left as it is. *)
Lemma sub_go_no_match m s :
  (forall pre suf, s = pre +:+ suf -> m suf = None) -> Re.sub_go m 0 s = s.
Proof.
  induction s as [|c s IH]; intros Hm; simpl; [done|].
  rewrite (Hm "" (String c s) eq_refl). f_equal. apply IH.
  intros pre suf ->. by apply (Hm (String c pre)).
Qed.

Lemma line_comment_None c s :
  line_comment (String c s) = None <->
  Ascii.eqb "/" c && Str.startswith s "/" = false.
Proof.
  unfold line_comment, Re.lit, Str.startswith. cbn [Str.strip_prefix].
  destruct (Ascii.eqb "/" c); [|done].
  destruct s as [|c' s']; [done|].
  destruct (Ascii.eqb "/" c'); cbn [mbind option_bind andb]; done.
Qed.

Lemma block_comment_slash c s :
  is_Some (block_comment (String c s)) ->
  c = "/"%char /\ exists r, s = String "*" r /\ is_Some (after_first "*/" r).
Proof.
  unfold block_comment, Re.lit. cbn [Str.strip_prefix].
  destruct (Ascii.eqb_spec "/" c) as [<-|]; [|by intros [? [=]]].
  destruct s as [|c' r]; [by intros [? [=]]|]. cbn [Str.strip_prefix].
  destruct (Ascii.eqb_spec "*" c') as [<-|]; [|by intros [? [=]]].
  cbn [mbind option_bind]. eauto.
Qed.

Lemma contains_cons sub c s :
  Str.contains sub (String c s) = false ->
  Str.startswith (String c s) sub = false /\ Str.contains sub s = false.
Proof. cbn [Str.contains]. by intros [? ?]%orb_false_iff. Qed.

Lemma startswith_two a b c s :
  Str.startswith (String c s) (String a (String b "")) =
  Ascii.eqb a c && Str.startswith s (String b "").
Proof.
  unfold Str.startswith. cbn [Str.strip_prefix].
  by destruct (Ascii.eqb a c).
Qed.

(** The first character that a replacement keeps. *)
Lemma sub_go_head m s :
  (forall s', is_Some (m s') -> Str.startswith s' "/" = true) ->
  Str.startswith s "/" = false ->
  Str.startswith (Re.sub_go m 0 s) "/" = false.
Proof.
  intros Hm. destruct s as [|c s]; [done|]. intros Hc. simpl.
  destruct (m (String c s)) as [rest|] eqn:E.
  { rewrite Hm in Hc; [done|]. rewrite E. by eexists. }
  by rewrite startswith_char in *.
Qed.

Lemma line_comment_slash s :
  is_Some (line_comment s) -> Str.startswith s "/" = true.
Proof.
  destruct s as [|c s]; [by intros [? [=]]|].
  intros H. rewrite startswith_char.
  destruct (Ascii.eqb "/" c) eqn:E; [done|].
  assert (line_comment (String c s) = None) as Hnone
    by (apply line_comment_None; by rewrite E).
  rewrite Hnone in H. by destruct H.
Qed.

Lemma block_comment_starts s :
  is_Some (block_comment s) -> Str.startswith s "/" = true.
Proof.
  destruct s as [|c s]; [by intros [? [=]]|].
  intros [-> _]%block_comment_slash. done.
Qed.

Lemma sub_line_comment_clean skip s :
  Str.contains "//" (Re.sub_go line_comment skip s) = false.
Proof.
  revert skip. induction s as [|c s IH]; intros skip; [done|]. simpl.
  destruct skip as [|k]; [|apply IH].
  destruct (line_comment (String c s)) as [rest|] eqn:E; [apply IH|].
  cbn [Str.contains]. rewrite IH, orb_false_r, startswith_two.
  apply line_comment_None in E.
  destruct (Ascii.eqb "/" c); [|done]. cbn [andb] in *.
  apply sub_go_head; [apply line_comment_slash|done].
Qed.

Lemma sub_block_comment_clean skip s :
  Str.contains "//" s = false ->
  Str.contains "//" (Re.sub_go block_comment skip s) = false.
Proof.
  revert skip. induction s as [|c s IH]; intros skip; [done|].
  intros [Hhead Htail]%contains_cons. simpl.
  destruct skip as [|k]; [|by apply IH].
  destruct (block_comment (String c s)) as [rest|] eqn:E; [by apply IH|].
  cbn [Str.contains]. rewrite IH, orb_false_r by done.
  rewrite startswith_two in *.
  destruct (Ascii.eqb "/" c); [|done]. cbn [andb] in *.
  apply sub_go_head; [apply block_comment_starts|done].
Qed.

Lemma sub_line_comment_fixed s :
  Str.contains "//" s = false -> Re.sub line_comment s = s.
Proof.
  unfold Re.sub. induction s as [|c s IH]; [done|].
  intros [Hhead Htail]%contains_cons. simpl.
  rewrite startswith_two in Hhead.
  rewrite (proj2 (line_comment_None c s) Hhead). by rewrite IH.
Qed.

Lemma after_first_app needle (a b : string) :
  is_Some (after_first needle b) -> is_Some (after_first needle (a +:+ b)).
Proof.
  intros Hb. induction a as [|c a IH]; [done|].
  change (String c a +:+ b) with (String c (a +:+ b)).
  cbn [after_first]. by destruct (Str.strip_prefix needle _).
Qed.

(** Without a closing token nothing after is a block comment. *)
Lemma block_comment_unclosed s pre suf :
  after_first "*/" s = None -> s = pre +:+ suf -> block_comment suf = None.
Proof.
  intros Hs ->. destruct (block_comment suf) as [r|] eqn:E; [|done].
  destruct suf as [|c suf]; [done|].
  destruct (block_comment_slash c suf) as (-> & r' & -> & Hr);
    [rewrite E; by eexists|].
  assert (is_Some (after_first "*/" (pre +:+ String "/" (String "*" r'))))
    as [x Hx]; [|congruence].
  apply after_first_app.
  change (String "/" (String "*" r')) with ("/*" +:+ r').
  by apply after_first_app.
Qed.

Lemma block_comment_None_unclosed r :
  block_comment (String "/" (String "*" r)) = None ->
  after_first "*/" r = None.
Proof.
  unfold block_comment, Re.lit. cbn [Str.strip_prefix].
  rewrite !Ascii.eqb_refl. done.
Qed.

(** What a removal of block comments leaves holds no block comment. *)
Lemma sub_block_comment_none skip s pre suf :
  Str.contains "//" s = false ->
  Re.sub_go block_comment skip s = pre +:+ suf -> block_comment suf = None.
Proof.
  revert skip pre. induction s as [|c s IH]; intros skip pre.
  { simpl. intros _ H. destruct pre; [|done].
    change ("" +:+ suf) with suf in H. by subst suf. }
  intros [Hhead Htail]%contains_cons. simpl.
  destruct skip as [|k]; [|by apply IH].
  destruct (block_comment (String c s)) as [rest|] eqn:E; [by apply IH|].
  destruct pre as [|c0 pre].
  2: { change (String c0 pre +:+ suf) with (String c0 (pre +:+ suf)).
       intros [= _ H]. by eapply IH. }
  change ("" +:+ suf) with suf. intros <-.
  destruct (block_comment (String c (Re.sub_go block_comment 0 s)))
    as [r|] eqn:E'; [|done]. exfalso.
  destruct (block_comment_slash c (Re.sub_go block_comment 0 s))
    as (-> & t & Ht & Hclosed); [rewrite E'; by eexists|].
  rewrite startswith_two in Hhead.
  change (Str.startswith s "/" = false) in Hhead.
  destruct s as [|c' s']; [done|].
  rewrite startswith_char in Hhead. cbn [Re.sub_go] in Ht.
  destruct (block_comment (String c' s')) as [rest|] eqn:E2.
  { destruct (block_comment_slash c' s') as [-> _]; [rewrite E2; by eexists|].
    done. }
  injection Ht as -> <-.
  apply block_comment_None_unclosed in E.
  rewrite sub_go_no_match in Hclosed.
  - rewrite E in Hclosed. by destruct Hclosed.
  - intros pre suf. by apply block_comment_unclosed.
Qed.

(** No comment starts anywhere in a stripped text. *)
Lemma strip_comments_no_comment s pre suf :
  strip_comments s = pre +:+ suf ->
  line_comment suf = None /\ block_comment suf = None.
Proof.
  intros Heq. split.
  - assert (Str.contains "//" (strip_comments s) = false) as Hclean
      by apply sub_block_comment_clean, sub_line_comment_clean.
    destruct (line_comment suf) as [r|] eqn:E; [|done]. exfalso.
    rewrite Heq in Hclean. clear Heq.
    induction pre as [|c pre IH].
    + change ("" +:+ suf) with suf in Hclean.
      destruct suf as [|c suf]; [done|].
      apply contains_cons in Hclean as [Hhead _].
      rewrite startswith_two in Hhead.
      apply line_comment_None in Hhead. congruence.
    + change (String c pre +:+ suf) with (String c (pre +:+ suf)) in Hclean.
      apply contains_cons in Hclean as [_ Htail]. auto.
  - revert Heq. apply sub_block_comment_none, sub_line_comment_clean.
Qed.

(** X20: [strip_comments] never makes a text longer and leaves a text
    without a slash as it is. Its result holds no line comment and no
    block comment any more, so that stripping an already stripped text
    changes nothing. *)
Theorem strip_comments_idempotent (s : string) :
  String.length (strip_comments s) <= String.length s /\
  (Str.all (fun c => negb (Ascii.eqb c "/")) s = true ->
   strip_comments s = s) /\
  Str.contains "//" (strip_comments s) = false /\
  (forall pre suf,
     strip_comments s = pre +:+ suf ->
     line_comment suf = None /\ block_comment suf = None) /\
  strip_comments (strip_comments s) = strip_comments s.
Proof.
  assert (Str.contains "//" (strip_comments s) = false) as Hclean
    by apply sub_block_comment_clean, sub_line_comment_clean.
  split; [|split; [|split; [|split]]].
  - unfold strip_comments, Re.sub.
    etrans; [apply sub_go_length|apply sub_go_length].
  - intros Hs. unfold strip_comments, Re.sub.
    assert (forall m : string -> option string,
      (forall s', is_Some (m s') -> Str.startswith s' "/" = true) ->
      Re.sub_go m 0 s = s) as Hsame.
    { intros m Hm. apply sub_go_no_match. intros pre suf ->.
      rewrite all_app in Hs. apply andb_true_iff in Hs as [_ Hsuf].
      destruct (m suf) as [r|] eqn:E; [|done].
      assert (Str.startswith suf "/" = true) as Hstart
        by (apply Hm; rewrite E; by eexists).
      destruct suf as [|c suf]; [done|].
      rewrite startswith_char in Hstart. cbn [Str.all] in Hsuf.
      rewrite Ascii.eqb_sym in Hstart. by rewrite Hstart in Hsuf. }
    rewrite (Hsame line_comment) by apply line_comment_slash.
    apply Hsame, block_comment_starts.
  - done.
  - apply strip_comments_no_comment.
  - unfold strip_comments at 1.
    rewrite (sub_line_comment_fixed _ Hclean).
    unfold Re.sub. apply sub_go_no_match. intros pre suf Heq.
    by destruct (strip_comments_no_comment s pre suf Heq).
Qed.

(** ** Lines of a stripped file *)

Lemma lines_go_substring cur content piece :
  piece ∈ lines_go cur content ->
  exists pre post, String.rev cur +:+ content = pre +:+ piece +:+ post.
Proof.
  revert cur. induction content as [|c content IH]; intros cur; simpl.
  { intros ->%list_elem_of_singleton. exists "", "".
    by rewrite string_app_nil_r. }
  destruct (is_line_break c).
  - intros [->|Hin]%elem_of_cons.
    + by exists "", (String c content).
    + apply IH in Hin as (pre & post & Heq).
      change (String.rev "" +:+ content) with content in Heq.
      exists (String.rev cur +:+ String c pre), post.
      rewrite Heq, string_app_assoc. done.
  - intros (pre & post & Heq)%IH. exists pre, post.
    rewrite <-Heq, rev_cons, string_app_assoc. done.
Qed.

Lemma rstrip_prefix s : exists sp, s = Str.rstrip s +:+ sp.
Proof.
  induction s as [|c s [sp IH]]; [by exists ""|].
  rewrite rstrip_cons. destruct (Str.all is_space (String c s)).
  - by exists (String c s).
  - exists sp. change (String c (Str.rstrip s) +:+ sp)
      with (String c (Str.rstrip s +:+ sp)). by rewrite <-IH.
Qed.

Lemma after_first_app_r needle (a b : string) :
  is_Some (after_first needle a) -> is_Some (after_first needle (a +:+ b)).
Proof.
  induction a as [|c a IH].
  - cbn [after_first].
    destruct (Str.strip_prefix needle "") as [r|] eqn:E; [|by intros [? [=]]].
    intros _. apply strip_prefix_spec in E.
    assert (needle = "") as -> by (by destruct needle).
    change ("" +:+ b) with b. by destruct b.
  - cbn [after_first].
    change (String c a +:+ b) with (String c (a +:+ b)). cbn [after_first].
    destruct (Str.strip_prefix needle (String c a)) as [r|] eqn:E.
    + intros _. apply strip_prefix_spec in E.
      assert (Str.strip_prefix needle (String c (a +:+ b)) = Some (r +:+ b))
        as ->; [|by eexists].
      apply strip_prefix_spec.
      change (String c (a +:+ b)) with (String c a +:+ b).
      by rewrite E, string_app_assoc.
    + intros H%IH.
      destruct (Str.strip_prefix needle (String c (a +:+ b)));
        [by eexists|done].
Qed.

Lemma line_comment_app (a b : string) :
  line_comment (a +:+ b) = None -> line_comment a = None.
Proof.
  unfold line_comment, Re.lit.
  destruct (Str.strip_prefix "//" a) as [r|] eqn:E; [|done].
  apply strip_prefix_spec in E. subst a.
  assert (Str.strip_prefix "//" (("//" +:+ r) +:+ b) = Some (r +:+ b)) as ->.
  { apply strip_prefix_spec. by rewrite string_app_assoc. }
  done.
Qed.

Lemma block_comment_app (a b : string) :
  block_comment (a +:+ b) = None -> block_comment a = None.
Proof.
  unfold block_comment, Re.lit.
  destruct (Str.strip_prefix "/*" a) as [r|] eqn:E; [|done].
  apply strip_prefix_spec in E. subst a.
  assert (Str.strip_prefix "/*" (("/*" +:+ r) +:+ b) = Some (r +:+ b)) as ->.
  { apply strip_prefix_spec. by rewrite string_app_assoc. }
  cbn [mbind option_bind]. intros Hnone.
  destruct (after_first "*/" r) as [x|] eqn:Hr; [|done].
  assert (is_Some (after_first "*/" (r +:+ b))) as [y Hy]
    by (apply after_first_app_r; by eexists).
  congruence.
Qed.

(** X21: the lines that [analyze_system] hands to the detectors hold
    no comment any more: the text is stripped as a whole first, and
    stripping one of its lines again, as every detector does, gives the
    line back. *)
Theorem stripped_lines_fixed (text line : string) :
  line ∈ rtl_lines_of (strip_comments text) -> strip_comments line = line.
Proof.
  unfold rtl_lines_of.
  intros (piece & -> & [Hin _]%list_elem_of_In%filter_In)%list_elem_of_fmap.
  apply list_elem_of_In, lines_go_substring in Hin as (pre & post & Heq).
  change (String.rev "" +:+ strip_comments text) with (strip_comments text)
    in Heq.
  destruct (rstrip_prefix piece) as [sp Hsp].
  assert (forall p1 suf,
    Str.rstrip piece = p1 +:+ suf ->
    line_comment suf = None /\ block_comment suf = None) as Hnone.
  { intros p1 suf Hsplit.
    destruct (strip_comments_no_comment text (pre +:+ p1)
                (suf +:+ sp +:+ post)) as [Hl Hb].
    { rewrite Heq, Hsp, Hsplit. by rewrite !string_app_assoc. }
    split; [by eapply line_comment_app|by eapply block_comment_app]. }
  unfold strip_comments, Re.sub.
  rewrite (sub_go_no_match line_comment).
  - apply sub_go_no_match. intros p1 suf Hsplit.
    by destruct (Hnone p1 suf Hsplit).
  - intros p1 suf Hsplit. by destruct (Hnone p1 suf Hsplit).
Qed.

Lemma stripped_lines_fixed_witness :
  strip_comments "wire x;" = "wire x;".
Proof.
  apply (stripped_lines_fixed "wire x; // net
/* block */ reg y;").
  vm_compute. apply list_elem_of_here.
Defined.

(** ** Classifications in a merged table *)

Lemma merge_two_tables_aligned class1 head1 data1 class2 head2 data2 c h d :
  merge_two_tables class1 head1 data1 class2 head2 data2 = Some (c, h, d) ->
  length class1 = length head1 ->
  length c = length h /\
  forall k n,
    h !! k = Some n ->
    (head1 !! k = Some n /\ c !! k = class1 !! k) \/
    (exists j, head2 !! j = Some n /\ c !! k = class2 !! j).
Proof.
  intros (pc & Hpc & -> & -> & _)%merge_two_tables_Some Hlen.
  pose proof (pick_Some _ _ _ (pick_kept_names head1 head2)) as [Hhl Hh].
  apply pick_Some in Hpc as [Hcl Hc].
  split; [rewrite !length_app; lia|].
  intros k n Hk. destruct (decide (k < length head1)) as [Hlt|Hge].
  - left. rewrite lookup_app_l in Hk by done.
    by rewrite lookup_app_l by lia.
  - right. rewrite lookup_app_r in Hk by lia.
    rewrite lookup_app_r by lia. rewrite Hlen.
    destruct (lookup_lt_is_Some_2 (keep_from head1 head2 0)
                (k - length head1)) as [j Hj].
    { apply lookup_lt_Some in Hk. lia. }
    exists j. rewrite <-(Hh _ _ Hj). split; [done|]. by apply Hc.
Qed.

Lemma merge_rest_aligned (P : string -> option string -> Prop)
    files c0 h0 d0 c h d :
  merge_rest (c0, h0, d0) files = Some (c, h, d) ->
  Forall (fun f => length (class_names f) = length (header_names f)) files ->
  length c0 = length h0 ->
  (forall k n, h0 !! k = Some n -> P n (c0 !! k)) ->
  length c = length h /\
  forall k n,
    h !! k = Some n ->
    P n (c !! k) \/
    exists f j, f ∈ files /\ header_names f !! j = Some n /\
                class_names f !! j = c !! k.
Proof.
  revert P c0 h0 d0. induction files as [|f files IH]; intros P c0 h0 d0.
  { intros [= -> -> ->] _ Hlen HP. split; [done|]. auto. }
  cbn [merge_rest].
  destruct (load_csv f) as [[[c2 h2] d2]|] eqn:Hf; [|done].
  cbn [mbind option_bind].
  destruct (merge_two_tables c0 h0 d0 c2 h2 d2) as [[[c1 h1] d1]|] eqn:Hm;
    [|done].
  cbn [mbind option_bind].
  intros Hrest [Hf_len Hall]%Forall_cons Hlen HP.
  pose proof (load_csv_Some _ _ _ _ Hf) as (Hc2 & Hh2 & _).
  destruct (merge_two_tables_aligned _ _ _ _ _ _ _ _ _ Hm Hlen)
    as [Hlen1 Hcols].
  destruct (IH (fun n x => P n x \/ exists j, h2 !! j = Some n /\ c2 !! j = x)
               c1 h1 d1 Hrest Hall Hlen1) as [Hlen' Hcols'].
  { intros k n [[Hk ->]|(j & Hj & ->)]%Hcols; [left; by apply HP|].
    right. eauto. }
  split; [done|].
  intros k n [[?|(j & ? & ?)]|(f' & j & ? & ? & ?)]%Hcols'.
  - by left.
  - right. exists f, j. rewrite Hh2, Hc2.
    split; [apply list_elem_of_here|done].
  - right. exists f', j. split; [by apply list_elem_of_further|done].
Qed.

Lemma merge_all_facts_classes files c h d :
  merge_all files = Some (c, h, d) ->
  Forall (fun f => length (class_names f) = length (header_names f)) files ->
  length c = length h /\
  forall k n,
    h !! k = Some n ->
    exists f j, f ∈ files /\ header_names f !! j = Some n /\
                class_names f !! j = c !! k.
Proof.
  destruct files as [|f0 files]; [done|]. cbn [merge_all].
  destruct (load_csv f0) as [[[c0 h0] d0]|] eqn:Hf; [|done].
  cbn [mbind option_bind]. intros Hrest [Hlen0 Hall]%Forall_cons.
  pose proof (load_csv_Some _ _ _ _ Hf) as (Hc0 & Hh0 & _).
  rewrite Hc0, Hh0 in Hlen0.
  destruct (merge_rest_aligned
              (fun n x => exists j, h0 !! j = Some n /\ c0 !! j = x)
              _ _ _ _ _ _ _ Hrest Hall Hlen0) as [Hlen Hcols]; [by eauto|].
  split; [done|].
  intros k n [(j & ? & ?)|(f & j & ? & ? & ?)]%Hcols.
  - exists f0, j. rewrite Hh0, Hc0. split; [apply list_elem_of_here|done].
  - exists f, j. split; [by apply list_elem_of_further|done].
Qed.

(** X22: when the classification row of every file is as long as its
    header, the merged classification row is as long as the merged
    header, and every merged column stands under the classification
    that one of the files gives to a column of that name. *)
Theorem merge_all_classes (files : list (list (list string)))
    (c h : list string) (d : list (list string)) :
  merge_all files = Some (c, h, d) ->
  Forall (fun f => length (class_names f) = length (header_names f)) files ->
  length c = length h /\
  forall k n,
    h !! k = Some n ->
    exists f j, f ∈ files /\ header_names f !! j = Some n /\
                class_names f !! j = c !! k.
Proof. apply merge_all_facts_classes. Qed.

Lemma merge_all_classes_witness :
  let files :=
    [ [[""; "clock"]; ["time_ps"; "clk"]; ["0"; "1"]];
      [[""; "data"]; ["time_ps"; "q"]; ["0"; "a"]; ["5"; "b"]] ] in
  let c := [""; "clock"; "data"] in
  let h := ["time_ps"; "clk"; "q"] in
  length c = length h /\
  forall k n,
    h !! k = Some n ->
    exists f j, f ∈ files /\ header_names f !! j = Some n /\
                class_names f !! j = c !! k.
Proof.
  apply (merge_all_classes _ _ _ [["0"; "1"; "a"]; [""; ""; "b"]]).
  - vm_compute. reflexivity.
  - repeat constructor.
Defined.

(** ** Merging the tables that the assembler writes *)

Lemma written_rows_fields nan t :
  2 <= length (written_rows nan t) /\
  class_names (written_rows nan t) = class_row t /\
  header_names (written_rows nan t) = header_row t /\
  data_count (written_rows nan t) = length (data_rows t).
Proof.
  unfold class_names, header_names, data_count, written_rows. simpl.
  rewrite length_fmap. repeat split. lia.
Qed.

(** X23: the tables that [build_table] writes can always be merged:
    [merge_all] succeeds on any non-empty list of them, whatever text
    stands for a missing cell. The merged table starts with the header
    of the first one, has a classification for every column, namely the
    one that a written table gives to a column of that name, as many
    data rows as the longest table, and data rows as long as its
    header. *)
Theorem written_tables_merge
    (enum : list string -> list string) (nan : string)
    (runs : list (Metadata * list string * list Row
                  * option (list Connection)))
    (tables : list Table) :
  Forall2 (fun '(metadata_map, clock_signals, waveform, connectivity) t =>
             exists filled,
               build_table enum metadata_map clock_signals waveform
                           connectivity = Some (t, filled))
          runs tables ->
  tables ≠ [] ->
  exists c h d,
    merge_all (written_rows nan <$> tables) = Some (c, h, d) /\
    (exists t0, head tables = Some t0 /\ header_row t0 `prefix_of` h) /\
    length c = length h /\
    (forall k n,
       h !! k = Some n ->
       exists t j, t ∈ tables /\ header_row t !! j = Some n /\
                   class_row t !! j = c !! k) /\
    length d = max_list ((fun t => length (data_rows t)) <$> tables) /\
    Forall (fun row => length row = length h) d.
Proof.
  intros Hruns Hne.
  assert (Forall (fun t =>
            length (class_row t) = length (header_row t) /\
            Forall (fun r => length r = length (header_row t)) (data_rows t))
          tables) as Hshape.
  { apply Forall_forall. intros t [i Hi]%list_elem_of_lookup.
    destruct (Forall2_lookup_r _ _ _ _ _ Hruns Hi)
      as ([[[md cs] wf] conn] & _ & filled & Hbuild).
    destruct (build_table_Some _ _ _ _ _ _ _ Hbuild)
      as (row0 & last_row & time_col & rows & _ & _ & _ & _ & _ & ->).
    cbn [class_row header_row data_rows]. split; [by rewrite length_fmap|].
    apply Forall_fmap, Forall_forall. intros e _. simpl.
    by rewrite length_fmap. }
  assert (Forall (fun f => 2 <= length f /\
                    length (header_names f) <= length (class_names f))
                 (written_rows nan <$> tables)) as Hfiles.
  { apply Forall_fmap. eapply Forall_impl; [exact Hshape|].
    intros t [Hlen _]. simpl.
    destruct (written_rows_fields nan t) as (? & -> & -> & _). lia. }
  assert (is_Some (merge_all (written_rows nan <$> tables)))
    as [[[c h] d] Hmerge].
  { apply merge_rest_total; [by destruct tables|done]. }
  exists c, h, d. split; [done|].
  pose proof Hmerge as (Hload & Hpre & Hnames & Hlen & Hdup & Hrect)
    %merge_all_facts.
  destruct (merge_all_facts_classes _ _ _ _ Hmerge) as [Hclen Hcols].
  { apply Forall_fmap. eapply Forall_impl; [exact Hshape|].
    intros t [Hlen' _]. simpl.
    by destruct (written_rows_fields nan t) as (? & -> & -> & _). }
  split; [|split; [done|split; [|split]]].
  - destruct Hpre as (f0 & Hhead & Hf0).
    destruct tables as [|t0 tables']; [done|]. exists t0. split; [done|].
    injection Hhead as <-.
    by destruct (written_rows_fields nan t0) as (_ & _ & <- & _).
  - intros k n (f & j & Hf & Hj & Hc)%Hcols.
    apply list_elem_of_fmap in Hf as (t & -> & Ht).
    destruct (written_rows_fields nan t) as (_ & Hcn & Hhn & _).
    rewrite Hhn in Hj. rewrite Hcn in Hc. eauto.
  - rewrite Hlen, <-list_fmap_compose. f_equal. apply list_fmap_ext.
    intros i t _. simpl. by destruct (written_rows_fields nan t) as (_ & _ & _ & ->).
  - destruct tables as [|t0 [|t1 tables']]; [done| |].
    + cbn in Hmerge. injection Hmerge as <- <- <-.
      apply Forall_inv in Hshape as [_ Hrows].
      apply Forall_fmap. eapply Forall_impl; [exact Hrows|].
      intros r Hr. simpl. by rewrite length_fmap.
    + apply Hrect. simpl. lia.
Qed.

Lemma written_tables_merge_witness :
  let tables := [example_table; example_table2] in
  exists c h d,
    merge_all (written_rows "nan" <$> tables) = Some (c, h, d) /\
    (exists t0, head tables = Some t0 /\ header_row t0 `prefix_of` h) /\
    length c = length h /\
    (forall k n,
       h !! k = Some n ->
       exists t j, t ∈ tables /\ header_row t !! j = Some n /\
                   class_row t !! j = c !! k) /\
    length d = max_list ((fun t => length (data_rows t)) <$> tables) /\
    Forall (fun row => length row = length h) d.
Proof.
  apply (written_tables_merge remove_dups "nan"
           [ (example_metadata, ["clk"], example_waveform,
              Some [uart_connection]);
             (example_metadata2, [], example_waveform, None) ]).
  - constructor; [|constructor; [|constructor]].
    + exists [("uart_busy", "soc_tb.dut.u_uart.tx_busy")].
      vm_compute. reflexivity.
    + exists []. vm_compute. reflexivity.
  - discriminate.
Defined.

(** ** The block of an instantiation *)

Lemma prefix_while_spec {A} (p : A -> bool) (l : list A) :
  let n := length (prefix_while p l) in
  prefix_while p l = take n l /\
  Forall (fun x => p x = true) (prefix_while p l) /\
  (forall x, l !! n = Some x -> p x = false).
Proof.
  induction l as [|x l IH]; simpl.
  { split; [done|]. split; [constructor|done]. }
  destruct (p x) eqn:E; simpl.
  - destruct IH as (Heq & Hall & Hnext). split; [by rewrite <-Heq|].
    split; [by constructor|done].
  - split; [done|]. split; [constructor|]. by intros y [= <-].
Qed.

Lemma join_app_head (a x : string) (l : list string) :
  Str.join " " ((a +:+ " " +:+ x) :: l) = a +:+ " " +:+ Str.join " " (x :: l).
Proof.
  destruct l as [|y l]; [done|].
  change (Str.join " " ((a +:+ " " +:+ x) :: y :: l))
    with ((a +:+ " " +:+ x) +:+ " " +:+ Str.join " " (y :: l)).
  change (Str.join " " (x :: y :: l))
    with (x +:+ " " +:+ Str.join " " (y :: l)).
  by rewrite !string_app_assoc.
Qed.

Lemma foldl_add_line block ls :
  foldl add_line block ls = Str.join " " (block :: (strip_comments <$> ls)).
Proof.
  revert block. induction ls as [|l ls IH]; intros block; [done|].
  cbn [foldl]. rewrite IH. unfold add_line. rewrite fmap_cons.
  rewrite join_app_head. by destruct ls.
Qed.

(** X24: the block of an instantiation that starts at line [start]
    runs to the first later line that holds the closing token, or to
    the last line when there is none; the start line itself is not
    looked at, so the block takes in the next line in any case. The
    block is made of these lines, each without its comments, joined by
    blanks. *)
Theorem accumulate_until_close_block
    (rtl_lines : list string) (start : nat) (first : string) :
  rtl_lines !! start = Some first ->
  let block := (accumulate_until_close rtl_lines start).1 in
  let i := (accumulate_until_close rtl_lines start).2 in
  start < i <= length rtl_lines /\
  (forall j l,
     start < j < i -> rtl_lines !! j = Some l -> Str.contains ");" l = false) /\
  (forall l, rtl_lines !! i = Some l -> Str.contains ");" l = true) /\
  block = Str.join " " (strip_comments <$>
                          take (S i - start) (drop start rtl_lines)).
Proof.
  intros Hstart. unfold accumulate_until_close, open_lines. cbv zeta.
  rewrite Hstart. cbn [default]. unfold id.
  set (rest := drop (S start) rtl_lines).
  set (p := fun line : string => negb (Str.contains ");" line)).
  destruct (prefix_while_spec p rest) as (Heq & Hall & Hnext).
  cbv zeta in Heq, Hnext.
  set (n := length (prefix_while p rest)) in *.
  assert (n <= length rest) as Hn.
  { subst n. rewrite Heq at 1. rewrite length_take. lia. }
  assert (length rest = length rtl_lines - S start) as Hrest
    by (subst rest; apply length_drop).
  pose proof (lookup_lt_Some _ _ _ Hstart) as Hlt.
  assert (forall j, rtl_lines !! (S start + j) = rest !! j) as Hlookup.
  { intros j. subst rest. by rewrite lookup_drop. }
  assert (drop start rtl_lines = first :: rest) as Hdrop.
  { subst rest. by apply drop_S. }
  assert ((match rtl_lines !! (S start + n) with
           | Some line => (add_line (foldl add_line (strip_comments first)
                                       (prefix_while p rest)) line,
                           S start + n)
           | None => (foldl add_line (strip_comments first)
                        (prefix_while p rest), S start + n)
           end) =
          (Str.join " " (strip_comments <$> take (S (S n)) (first :: rest)),
           S start + n)) as ->.
  { rewrite Hlookup. destruct (rest !! n) as [line|] eqn:Hline.
    - f_equal. change (add_line ?b line) with (foldl add_line b [line]).
      rewrite <-foldl_app, foldl_add_line. cbn [take fmap list_fmap].
      do 3 f_equal. rewrite Heq. symmetry. by apply take_S_r.
    - f_equal. rewrite foldl_add_line. cbn [take fmap list_fmap].
      do 3 f_equal. rewrite Heq.
      apply lookup_ge_None in Hline. by rewrite !take_ge by lia. }
  cbn [fst snd]. split; [lia|]. split; [|split].
  - intros j l Hj Hjl.
    replace j with (S start + (j - S start)) in Hjl by lia.
    rewrite Hlookup, <-(lookup_take_lt _ n) in Hjl by lia.
    rewrite <-Heq in Hjl. rewrite Forall_forall in Hall.
    apply list_elem_of_lookup_2, Hall in Hjl. subst p. simpl in Hjl.
    by apply negb_true_iff in Hjl.
  - intros l Hl. rewrite Hlookup in Hl. apply Hnext in Hl. subst p.
    simpl in Hl. by apply negb_false_iff in Hl.
  - rewrite Hdrop. do 3 f_equal. lia.
Qed.

Lemma accumulate_until_close_block_witness :
  let rtl_lines := ["foo u1 (.a(x));"; "bar u2 (.b(y));"; "wire z;"] in
  let block := (accumulate_until_close rtl_lines 0).1 in
  let i := (accumulate_until_close rtl_lines 0).2 in
  0 < i <= length rtl_lines /\
  (forall j l,
     0 < j < i -> rtl_lines !! j = Some l -> Str.contains ");" l = false) /\
  (forall l, rtl_lines !! i = Some l -> Str.contains ");" l = true) /\
  block = Str.join " " (strip_comments <$>
                          take (S i - 0) (drop 0 rtl_lines)).
Proof.
  apply (accumulate_until_close_block
           ["foo u1 (.a(x));"; "bar u2 (.b(y));"; "wire z;"] 0
           "foo u1 (.a(x));").
  reflexivity.
Defined.
